(** * A two-dimensional histogram filter: helpers.cpp and localizer.cpp

    Shallow embedding of the probability-grid operations of the robot
    localizer ([normalize], [blur], [close_enough] of helpers.cpp
    and [initialize_beliefs], [move], [sense] of localizer.cpp), of the
    reading of the map ([read_line], [read_map]) and of [zeros], and the
    properties of them that hold, or fail, on the code.

    Conventions of the embedding.

    - A [vector<T>] is a [list T]; [v.size()] is [length v].  Indexing with
      [operator[]] outside [0 .. size-1] is undefined behaviour in C++: every
      function of the embedding returns an [option], and [None] stands for an
      execution that indexes out of range (or takes a remainder by zero).
    - An [int] is a [Z]; [%] is the truncating remainder [Z.rem].  The sums
      of [move] add an offset of the caller: they are checked, and a sum that
      is not an [int] is undefined.  The [int]s that hold vector sizes, loop
      counters, the index sums of [blur] (an index, one more or one less,
      plus a size) and the cell count are assumed not to overflow.
    - [float] and [double] arithmetic is a parameter (class [Arith]) with two
      instances: [ieee], the IEEE-754 binary32 and binary64 operations with
      round-to-nearest-even, signed zeros, infinities and NaN, and [exact],
      the rational numbers, where no operation rounds.
    - A [std::string] is the list of its characters.  [read_line] may throw
      [std::out_of_range]: it and [read_map] end with an [outcome].  Their
      [while] loops run on fuel, and the lemmas show that the fuel they are
      given is enough for every input.  The files are a function from the
      name of a file to its characters, [None] for a file that cannot be
      opened. *)

From Stdlib Require Import ZArith QArith Qpower Qabs Qcanon Qcabs Lia Ascii.
From Stdlib Require Import Floats.SpecFloat.
From stdpp Require Import base option list.

Open Scope Z_scope.

(** ** Vectors and loops *)

Module Vec.

(** [v.size()] read into an [int]. *)
Definition size {A} (v : list A) : Z := Z.of_nat (length v).

(** [v[i]] as an rvalue. *)
Definition get {A} (v : list A) (i : Z) : option A :=
  if i <? 0 then None else v !! Z.to_nat i.

(** [v[i] = x]. *)
Definition set {A} (v : list A) (i : Z) (x : A) : option (list A) :=
  if (0 <=? i) && (i <? size v) then Some (<[Z.to_nat i := x]> v) else None.

(** [g[i][j]] as an rvalue. *)
Definition get2 {A} (g : list (list A)) (i j : Z) : option A :=
  row ← get g i; get row j.

(** [g[i][j] = x]. *)
Definition set2 {A} (g : list (list A)) (i j : Z) (x : A)
  : option (list (list A)) :=
  row ← get g i; row' ← set row j x; set g i row'.

(** [vector<T>(n, x)] for an [int] [n] that is not negative. *)
Definition fill {A} (n : Z) (x : A) : list A := replicate (Z.to_nat n) x.

(** [a % b] on [int]s; the remainder by zero is undefined. *)
Definition rem (a b : Z) : option Z :=
  if b =? 0 then None else Some (Z.rem a b).

(** [v.push_back(x)]. *)
Definition push_back {A} (v : list A) (x : A) : list A := v ++ [x].

(** The least and the greatest [int]. *)
Definition int_min : Z := - 2 ^ 31.
Definition int_max : Z := 2 ^ 31 - 1.

(** [a + b] on [int]s; a sum that is not an [int] is undefined. *)
Definition add (a b : Z) : option Z :=
  if (int_min <=? a + b) && (a + b <=? int_max) then Some (a + b) else None.

End Vec.

(** [for (int i = lo; i < hi; i++) s = body i s], stopping at the first
    iteration that has no defined result. *)
Fixpoint loop_from {S} (n : nat) (i : Z) (body : Z → S → option S) (s : S)
  : option S :=
  match n with
  | O => Some s
  | S n' => s' ← body i s; loop_from n' (i + 1) body s'
  end.

Definition for_range {S} (lo hi : Z) (body : Z → S → option S) (s : S)
  : option S :=
  loop_from (Z.to_nat (hi - lo)) lo body s.

(** The same loop around a body that may [return]: the body yields
    [Some (Some r)] to return [r] from the function, [Some None] to go on. *)
Fixpoint scan_from {R} (n : nat) (i : Z) (body : Z → option (option R))
  : option (option R) :=
  match n with
  | O => Some None
  | S n' =>
      r ← body i;
      match r with
      | Some v => Some (Some v)
      | None => scan_from n' (i + 1) body
      end
  end.

Definition for_return {R} (lo hi : Z) (body : Z → option (option R))
  : option (option R) :=
  scan_from (Z.to_nat (hi - lo)) lo body.

(** The offsets [(dx, dy)] of the window of [blur], in the order in which its
    two inner loops visit them, and a body run on each of them in turn. *)
Definition offsets : list (Z * Z) :=
  [ (-1, -1); (-1, 0); (-1, 1); (0, -1); (0, 0); (0, 1); (1, -1); (1, 0); (1, 1) ].

Fixpoint each_offset {S} (body : Z → Z → S → option S) (offs : list (Z * Z))
    (s : S) : option S :=
  match offs with
  | [] => Some s
  | (dx, dy) :: rest => s' ← body dx dy s; each_offset body rest s'
  end.

(** ** Arithmetic of [float] and [double] *)

Class Arith (F : Type) := {
  dbl : Type;                     (* the type double *)
  f_add : F → F → F;              (* float + float *)
  f_sub : F → F → F;              (* float - float *)
  f_mul : F → F → F;              (* float * float *)
  f_div : F → F → F;              (* float / float *)
  f_abs : F → F;                  (* std::abs(float) *)
  to_double : F → dbl;            (* promotion of a float operand *)
  to_float : dbl → F;             (* conversion on assignment to a float *)
  d_sub : dbl → dbl → dbl;        (* double - double *)
  d_div : dbl → dbl → dbl;        (* double / double *)
  d_gt : dbl → dbl → bool;        (* double > double *)
  d_of_int : Z → dbl;             (* an int operand, and the literals
                                     0.0, 1.0, 6.0 and 12.0 *)
  d_tol : dbl                     (* the literal 0.0001 *)
}.

(** IEEE-754 arithmetic: binary32 for [float], binary64 for [double]. *)
Module IEEE.

(** Both formats are values of [spec_float]; the operations of binary32 are
    those of 24 digits and largest exponent 128, the operations of binary64
    those of 53 digits and largest exponent 1024. *)
Definition float := spec_float.
Definition double := spec_float.

(** A float read as a double: the same number, in the canonical
    representation of binary64. *)
Definition widen (x : float) : double :=
  match x with
  | S754_finite s m e => binary_round 53 1024 s m e
  | _ => x
  end.

(** A double stored in a float: rounded to the nearest float. *)
Definition narrow (x : double) : float :=
  match x with
  | S754_finite s m e => binary_round 24 128 s m e
  | _ => x
  end.

(** [x > y]: false when one of them is NaN. *)
Definition gt (x y : double) : bool := SFltb y x.

(** An [int] converted to a double. *)
Definition of_int (z : Z) : double := binary_normalize 53 1024 z 0 false.

(** The double nearest to one ten-thousandth. *)
Definition tol : double := S754_finite false 7378697629483821 (-66).

Definition is_nan (x : float) : bool :=
  match x with S754_nan => true | _ => false end.

Definition is_inf (x : float) : bool :=
  match x with S754_infinity _ => true | _ => false end.

Definition is_zero (x : float) : bool :=
  match x with S754_zero _ => true | _ => false end.

(** A cell that is neither NaN nor a number: what a division by zero
    leaves. *)
Definition not_a_finite_number (x : float) : bool := is_nan x || is_inf x.

(** A finite number of binary32, in its canonical representation. *)
Definition finite (x : float) : bool :=
  match x with
  | S754_zero _ => true
  | S754_finite _ m e => bounded 24 128 m e
  | _ => false
  end.

(** A cell that can hold a probability mass: finite and not negative. *)
Definition mass (x : float) : bool :=
  match x with
  | S754_zero _ => true
  | S754_finite s m e => negb s && bounded 24 128 m e
  | _ => false
  end.

(** The sign bit is clear, or the value is an infinity or NaN. *)
Definition not_negative (x : float) : bool :=
  match x with
  | S754_zero s | S754_finite s _ _ => negb s
  | _ => true
  end.

(** A negative number, or the negative infinity. *)
Definition negative (x : float) : bool :=
  match x with
  | S754_finite s _ _ | S754_infinity s => s
  | _ => false
  end.

(** The sign bit is clear, or the value is NaN: what a sum of cells that are
    not negative is, [-0.0] excluded. *)
Definition sign_clear (x : float) : bool :=
  match x with
  | S754_zero s | S754_finite s _ _ | S754_infinity s => negb s
  | S754_nan => true
  end.

(** [-0.0] read as [+0.0]. *)
Definition unsigned_zero (x : float) : float :=
  match x with
  | S754_zero _ => S754_zero false
  | _ => x
  end.

(** The number that a finite float stands for. *)
Definition value (x : float) : Q :=
  match x with
  | S754_finite s m e => (inject_Z (cond_Zopp s (Zpos m)) * 2 ^ e)%Q
  | _ => 0%Q
  end.

(** Float constants used in the examples. *)
Definition zero : float := S754_zero false.
Definition one : float := S754_finite false 8388608 (-23).
Definition half : float := S754_finite false 8388608 (-24).
Definition quarter : float := S754_finite false 8388608 (-25).
Definition three : float := S754_finite false 12582912 (-22).
Definition nan : float := S754_nan.

End IEEE.

#[export] Instance ieee : Arith IEEE.float := {|
  dbl := IEEE.double;
  f_add := SFadd 24 128;
  f_sub := SFsub 24 128;
  f_mul := SFmul 24 128;
  f_div := SFdiv 24 128;
  f_abs := SFabs;
  to_double := IEEE.widen;
  to_float := IEEE.narrow;
  d_sub := SFsub 53 1024;
  d_div := SFdiv 53 1024;
  d_gt := IEEE.gt;
  d_of_int := IEEE.of_int;
  d_tol := IEEE.tol
|}.

(** Exact arithmetic: rational numbers in lowest terms. *)
Module Exact.

Definition of_int (z : Z) : Qc := Q2Qc (inject_Z z).

Definition gt (x y : Qc) : bool := negb (Qle_bool (this x) (this y)).

Definition tol : Qc := Q2Qc (1 # 10000).

(** The numerators and denominators of the cells of a result. *)
Definition fractions (r : option (list (list Qc))) : option (list (list Q)) :=
  map (map this) <$> r.

End Exact.

#[export] Instance exact : Arith Qc := {|
  dbl := Qc;
  f_add := Qcplus;
  f_sub := Qcminus;
  f_mul := Qcmult;
  f_div := Qcdiv;
  f_abs := Qcabs;
  to_double := λ x, x;
  to_float := λ x, x;
  d_sub := Qcminus;
  d_div := Qcdiv;
  d_gt := Exact.gt;
  d_of_int := Exact.of_int;
  d_tol := Exact.tol
|}.

(** ** helpers.cpp *)

(** [vector<vector<float>>]. *)
Abbreviation grid F := (list (list F)) (only parsing).

Section Helpers.

Context {F : Type} `{Arith F}.

(** The literal [0.0] stored in a float. *)
Definition f_zero : F := to_float (d_of_int 0).

(** [vector<vector<float>>(height, vector<float>(width, x))]. *)
Definition filled (height width : Z) (x : F) : grid F :=
  Vec.fill height (Vec.fill width x).

(** First loop nest of [normalize]: the sum of the cells of the first
    [grid[0].size()] columns of every row, added to [0.0] in row-major
    order. *)
Definition grid_total (g : grid F) : option F :=
  row0 ← Vec.get g 0;
  for_range 0 (Vec.size g) (λ row total,
    for_range 0 (Vec.size row0) (λ cell total,
      x ← Vec.get2 g row cell;
      Some (f_add total x)) total) f_zero.

(** Second loop nest of [normalize]; the bound of the inner loop is
    [grid.size()], as in the source. *)
Definition divide_cells (g : grid F) (total : F) (newGrid : grid F)
  : option (grid F) :=
  for_range 0 (Vec.size g) (λ row newGrid,
    for_range 0 (Vec.size g) (λ cell newGrid,
      x ← Vec.get2 g row cell;
      Vec.set2 newGrid row cell (f_div x total)) newGrid) newGrid.

Definition normalize (g : grid F) : option (grid F) :=
  row0 ← Vec.get g 0;
  let newGrid := filled (Vec.size g) (Vec.size row0) f_zero in
  total ← grid_total g;
  divide_cells g total newGrid.

(** The 3x3 window of [blur]. *)
Definition window (blurring : F) : grid F :=
  let center_prob := to_float (d_sub (d_of_int 1) (to_double blurring)) in
  let corner_prob := to_float (d_div (to_double blurring) (d_of_int 12)) in
  let adjacent_prob := to_float (d_div (to_double blurring) (d_of_int 6)) in
  [ [corner_prob; adjacent_prob; corner_prob];
    [adjacent_prob; center_prob; adjacent_prob];
    [corner_prob; adjacent_prob; corner_prob] ].

(** [((i + d) % n + n) % n]. *)
Definition wrap_index (i d n : Z) : option Z :=
  r ← Vec.rem (i + d) n; Vec.rem (r + n) n.

(** Body of the two innermost loops of [blur]. *)
Definition spill (w : grid F) (height width i j : Z) (grid_value : F)
  (dx dy : Z) (newGrid : grid F) : option (grid F) :=
  mult ← Vec.get2 w (dx + 1) (dy + 1);
  new_i ← wrap_index i dy height;
  new_j ← wrap_index j dx width;
  old ← Vec.get2 newGrid new_i new_j;
  Vec.set2 newGrid new_i new_j (f_add old (f_mul mult grid_value)).

(** The loop nest of [blur]: the convolution, before it is normalized. *)
Definition convolve (g : grid F) (blurring : F) : option (grid F) :=
  let height := Vec.size g in
  row0 ← Vec.get g 0;
  let width := Vec.size row0 in
  let newGrid := filled height width f_zero in
  let w := window blurring in
  for_range 0 height (λ i newGrid,
    for_range 0 width (λ j newGrid,
      grid_value ← Vec.get2 g i j;
      for_range (-1) 2 (λ dx newGrid,
        for_range (-1) 2 (λ dy newGrid,
          spill w height width i j grid_value dx dy newGrid) newGrid)
        newGrid) newGrid) newGrid.

Definition blur (g : grid F) (blurring : F) : option (grid F) :=
  newGrid ← convolve g blurring; normalize newGrid.

(** The test of both overloads of [close_enough]:
    [abs(v2-v1) > 0.0001]. *)
Definition too_far (v1 v2 : F) : bool :=
  d_gt (to_double (f_abs (f_sub v2 v1))) d_tol.

(** [close_enough(float, float)]. *)
Definition close_enough_scalar (v1 v2 : F) : bool :=
  if too_far v1 v2 then false else true.

(** [close_enough(grid, grid)]. *)
Definition close_enough (g1 g2 : grid F) : option bool :=
  if negb (Vec.size g1 =? Vec.size g2) then Some false else
  r1 ← Vec.get g1 0;
  r2 ← Vec.get g2 0;
  if negb (Vec.size r1 =? Vec.size r2) then Some false else
  r ← for_return 0 (Vec.size g1) (λ i,
        for_return 0 (Vec.size r1) (λ j,
          v1 ← Vec.get2 g1 i j;
          v2 ← Vec.get2 g2 i j;
          if too_far v1 v2 then Some (Some false) else Some None));
  Some (default true r).

(** [zeros]: the rows are built in [newRow], which is declared once, cleared
    at the start of every row and copied to the end of [newGrid]. *)
Definition zeros (height width : Z) : option (grid F) :=
  st ← for_range 0 height (λ i '(newGrid, newRow),
          let newRow : list F := [] in
          newRow ← for_range 0 width (λ j newRow,
                      Some (Vec.push_back newRow f_zero)) newRow;
          Some (Vec.push_back newGrid newRow, newRow)) ([], []);
  Some (fst st).

End Helpers.

(** ** Reading the map: [read_line] and [read_map] of helpers.cpp *)

(** A [std::string] is the list of its characters; positions and lengths
    ([size_t]) are natural numbers, and [npos] is [None]. *)
Module Str.

Definition space : ascii := " "%char.
Definition newline : ascii := "010"%char.

(** [d] is read at the start of [s]. *)
Fixpoint starts_with (d s : list ascii) : bool :=
  match d, s with
  | [], _ => true
  | _ :: _, [] => false
  | a :: d', b :: s' => Ascii.eqb a b && starts_with d' s'
  end.

(** [s.find(d)]: the first position at which [d] is read in [s]. *)
Fixpoint find (s d : list ascii) : option nat :=
  if starts_with d s then Some 0%nat
  else match s with
       | [] => None
       | _ :: s' => S <$> find s' d
       end.

(** [s.substr(pos, len)] and [s.erase(pos, len)], for [pos] up to the length
    of [s] (both are called with [pos = 0]); [len] may pass the end. *)
Definition substr (s : list ascii) (pos len : nat) : list ascii :=
  take len (drop pos s).

Definition erase (s : list ascii) (pos len : nat) : list ascii :=
  take pos s ++ drop (pos + len) s.

(** [s.at(i)]: [None] stands for the exception [std::out_of_range]. *)
Definition char_at (s : list ascii) (i : nat) : option ascii := s !! i.

End Str.

(** What a call that may throw ends with: the value it returns, or the
    exception [std::out_of_range] of [string::at]. *)
Inductive outcome (A : Type) : Type :=
  | Returns (a : A)
  | Throws_out_of_range.

Arguments Returns {A} a.
Arguments Throws_out_of_range {A}.

Definition delimiter : list ascii := [Str.space].

(** The [while] loop of [read_line]; [None] when [fuel] iterations do not
    reach its end. *)
Fixpoint read_line_loop (fuel : nat) (s : list ascii) (row : list ascii)
  : option (outcome (list ascii)) :=
  match fuel with
  | O => None
  | S fuel =>
      match Str.find s delimiter with
      | None => Some (Returns row)
      | Some pos =>
          let token := Str.substr s 0 pos in
          let s := Str.erase s 0 (pos + length delimiter) in
          match Str.char_at token 0 with
          | None => Some Throws_out_of_range
          | Some cell => read_line_loop fuel s (Vec.push_back row cell)
          end
      end
  end.

(** Every iteration erases at least the delimiter, so that one iteration
    more than [s] has characters is enough. *)
Definition read_line (s : list ascii) : option (outcome (list ascii)) :=
  read_line_loop (S (length s)) s [].

(** [std::getline(infile, line)] on the characters that are left in the
    stream: the line up to the next newline, which is read and dropped, or up
    to the end of the stream; [None] when no character is left, which ends the
    loop of [read_map]. *)
Definition getline (infile : list ascii) : option (list ascii * list ascii) :=
  match infile with
  | [] => None
  | _ :: _ =>
      match Str.find infile [Str.newline] with
      | Some pos => Some (take pos infile, drop (S pos) infile)
      | None => Some (infile, [])
      end
  end.

(** The [while] loop of [read_map]. *)
Fixpoint read_map_loop (fuel : nat) (infile : list ascii)
    (map : list (list ascii)) : option (outcome (list (list ascii))) :=
  match fuel with
  | O => None
  | S fuel =>
      match getline infile with
      | None => Some (Returns map)
      | Some (line, infile) =>
          r ← read_line line;
          match r with
          | Throws_out_of_range => Some Throws_out_of_range
          | Returns row => read_map_loop fuel infile (Vec.push_back map row)
          end
      end
  end.

(** [read_map]: [files] gives the characters of the files that can be opened;
    a file that cannot be opened leaves the map empty. *)
Definition read_map (files : list ascii → option (list ascii))
    (file_name : list ascii) : option (outcome (list (list ascii))) :=
  match files file_name with
  | None => Some (Returns [])
  | Some infile => read_map_loop (S (length infile)) infile []
  end.

(** ** localizer.cpp *)

Section Localizer.

Context {F : Type} `{Arith F}.

Definition initialize_beliefs (g : list (list ascii)) : option (grid F) :=
  let height := Vec.size g in
  row0 ← Vec.get g 0;
  let width := Vec.size row0 in
  let area := height * width in
  let belief_per_cell := to_float (d_div (d_of_int 1) (d_of_int area)) in
  Some (filled height width belief_per_cell).

(** The loop nest of [move]: the shift of the cells, before the blur.  The
    offsets come from the caller, so that the sums [i + dy] and [j + dx] may
    overflow: [Vec.add] has no result then. *)
Definition shift (dy dx : Z) (beliefs : grid F) : option (grid F) :=
  let height := Vec.size beliefs in
  row0 ← Vec.get beliefs 0;
  let width := Vec.size row0 in
  let newGrid := filled height width f_zero in
  for_range 0 height (λ i newGrid,
    for_range 0 width (λ j newGrid,
      row ← Vec.add i dy;
      new_i ← Vec.rem row width;
      column ← Vec.add j dx;
      new_j ← Vec.rem column height;
      v ← Vec.get2 beliefs i j;
      Vec.set2 newGrid new_i new_j v) newGrid) newGrid.

Definition move (dy dx : Z) (beliefs : grid F) (blurring : F)
  : option (grid F) :=
  newGrid ← shift dy dx beliefs; blur newGrid blurring.

(** [sense] declares an empty [newGrid], leaves it empty and normalizes
    it; none of its arguments is read. *)
Definition sense (color : ascii) (g : list (list ascii))
  (beliefs : grid F) (p_hit p_miss : F) : option (grid F) :=
  let newGrid : grid F := [] in
  normalize newGrid.

End Localizer.

(** A grid of [h] rows that all have [w] cells. *)
Definition shape {A} (h w : Z) (g : list (list A)) : Prop :=
  Vec.size g = h ∧ Forall (λ row, Vec.size row = w) g.

(** ** Texts of lines and of maps *)

(** The text of a list of tokens, each followed by a space; a token is given
    by its first character and the characters after it. *)
Definition spaced (ts : list (ascii * list ascii)) : list ascii :=
  concat (map (λ '(c, tl), c :: tl ++ [Str.space]) ts).

(** A line with an empty token: it starts with a space, or it has two spaces
    in a row. *)
Definition empty_token (s : list ascii) : Prop :=
  (∃ post, s = Str.space :: post)
  ∨ (∃ pre post, s = pre ++ Str.space :: Str.space :: post).

(** The text of a list of lines, each followed by a newline. *)
Definition lines_text (ls : list (list ascii)) : list ascii :=
  concat (map (λ l, l ++ [Str.newline]) ls).

(** The rows that [read_line] makes of a list of lines, up to the first line
    on which it throws. *)
Fixpoint read_lines (ls : list (list ascii)) (rows : list (list ascii))
  : option (outcome (list (list ascii))) :=
  match ls with
  | [] => Some (Returns rows)
  | l :: ls =>
      r ← read_line l;
      match r with
      | Throws_out_of_range => Some Throws_out_of_range
      | Returns row => read_lines ls (rows ++ [row])
      end
  end.

(** The text of a map: every cell is followed by a space, every row by a
    newline. *)
Definition map_text (g : list (list ascii)) : list ascii :=
  lines_text (map (λ row, spaced (map (λ c, (c, [])) row)) g).

(** ** Grids of the examples *)

Module Example.

Import IEEE.

(** All the belief in the centre of a 3x3 world, and in its last cell. *)
Definition centered : grid float :=
  [ [zero; zero; zero]; [zero; one; zero]; [zero; zero; zero] ].
Definition cornered : grid float :=
  [ [zero; zero; zero]; [zero; zero; zero]; [zero; zero; one] ].

(** A 2x2 grid without mass. *)
Definition massless : grid float := [ [zero; zero]; [zero; zero] ].

(** The maps of the sensor and of the initialization examples. *)
Definition red_green : list (list ascii) := [ ["r"; "g"] ]%char.
Definition all_green : list (list ascii) := [ ["g"; "g"]; ["g"; "g"] ]%char.

End Example.

(** ** Vectors: reads and writes *)

Section VecFacts.

Context {A : Type}.
Implicit Types (v : list A) (g : list (list A)) (i j : Z) (x : A).

Lemma size_nonneg v : 0 ≤ Vec.size v.
Proof. unfold Vec.size. lia. Qed.

Lemma get_lookup v (n : nat) : Vec.get v (Z.of_nat n) = v !! n.
Proof.
  unfold Vec.get. destruct (Z.ltb_spec (Z.of_nat n) 0); [lia|].
  by rewrite Nat2Z.id.
Qed.

Lemma get_in_range v i : 0 ≤ i < Vec.size v → is_Some (Vec.get v i).
Proof.
  unfold Vec.get, Vec.size. intros Hi.
  destruct (Z.ltb_spec i 0); [lia|].
  apply lookup_lt_is_Some. lia.
Qed.

Lemma get_Some_range v i x : Vec.get v i = Some x → 0 ≤ i < Vec.size v.
Proof.
  unfold Vec.get, Vec.size.
  destruct (Z.ltb_spec i 0); [done|].
  intros Hx%lookup_lt_Some. lia.
Qed.

Lemma set_in_range v i x :
  0 ≤ i < Vec.size v → Vec.set v i x = Some (<[Z.to_nat i := x]> v).
Proof.
  unfold Vec.set. intros Hi.
  destruct (Z.leb_spec 0 i), (Z.ltb_spec i (Vec.size v)); simpl; (done || lia).
Qed.

Lemma set_Some_range v i x v' :
  Vec.set v i x = Some v' → 0 ≤ i < Vec.size v ∧ v' = <[Z.to_nat i := x]> v.
Proof.
  unfold Vec.set.
  destruct (Z.leb_spec 0 i), (Z.ltb_spec i (Vec.size v)); simpl;
    intros [= <-]; split; (done || lia).
Qed.

Lemma size_set v i x v' : Vec.set v i x = Some v' → Vec.size v' = Vec.size v.
Proof.
  intros [_ ->]%set_Some_range. unfold Vec.size. by rewrite length_insert.
Qed.

Lemma get_set_eq v i x v' : Vec.set v i x = Some v' → Vec.get v' i = Some x.
Proof.
  intros [Hi ->]%set_Some_range. unfold Vec.get, Vec.size in *.
  destruct (Z.ltb_spec i 0); [lia|].
  apply list_lookup_insert_eq. lia.
Qed.

Lemma get_set_ne v i j x v' :
  Vec.set v i x = Some v' → i ≠ j → Vec.get v' j = Vec.get v j.
Proof.
  intros [Hi ->]%set_Some_range Hne. unfold Vec.get.
  destruct (Z.ltb_spec j 0); [done|].
  apply list_lookup_insert_ne. lia.
Qed.

Lemma set_same v i x : Vec.get v i = Some x → Vec.set v i x = Some v.
Proof.
  intros Hx. pose proof (get_Some_range _ _ _ Hx) as Hi.
  rewrite set_in_range by done. f_equal.
  apply list_insert_id. revert Hx. unfold Vec.get.
  by destruct (Z.ltb_spec i 0); [lia|].
Qed.

Lemma vec_ext v v' :
  Vec.size v = Vec.size v' →
  (∀ i, 0 ≤ i < Vec.size v → Vec.get v i = Vec.get v' i) → v = v'.
Proof.
  unfold Vec.size. intros Hlen Hget. apply list_eq. intros n.
  destruct (decide (n < length v)%nat) as [Hn|Hn].
  - rewrite <- !get_lookup. apply Hget. lia.
  - rewrite !lookup_ge_None_2; (done || lia).
Qed.

Lemma size_fill (n : Z) x : 0 ≤ n → Vec.size (Vec.fill n x) = n.
Proof. unfold Vec.size, Vec.fill. rewrite length_replicate. lia. Qed.

Lemma get_fill (n : Z) x i : 0 ≤ i < n → Vec.get (Vec.fill n x) i = Some x.
Proof.
  intros Hi. unfold Vec.get, Vec.fill.
  destruct (Z.ltb_spec i 0); [lia|].
  apply lookup_replicate_2. lia.
Qed.

End VecFacts.

(** ** Grids: reads and writes of cells *)

Section GridFacts.

Context {A : Type}.
Implicit Types (g : list (list A)) (row : list A) (i j h w : Z) (x : A).

Lemma shape_nonneg h w g : shape h w g → 0 ≤ h.
Proof. intros [<- _]. apply size_nonneg. Qed.

Lemma shape_row h w g i row :
  shape h w g → Vec.get g i = Some row → Vec.size row = w.
Proof.
  intros [_ Hrows] Hrow. rewrite Forall_forall in Hrows. apply Hrows.
  unfold Vec.get in Hrow. destruct (i <? 0); [done|].
  by eapply list_elem_of_lookup_2.
Qed.

Lemma shape_filled h w x : 0 ≤ h → 0 ≤ w → shape h w (Vec.fill h (Vec.fill w x)).
Proof.
  intros Hh Hw. split; [by apply size_fill|].
  apply Forall_forall. intros row Hrow.
  unfold Vec.fill in Hrow. apply elem_of_replicate in Hrow as [-> _].
  by apply size_fill.
Qed.

Lemma get2_in_range h w g i j :
  shape h w g → 0 ≤ i < h → 0 ≤ j < w → is_Some (Vec.get2 g i j).
Proof.
  intros Hg Hi Hj. unfold Vec.get2.
  destruct (get_in_range g i) as [row Hrow]; [destruct Hg; lia|].
  rewrite Hrow. simpl. apply get_in_range.
  by rewrite (shape_row _ _ _ _ _ Hg Hrow).
Qed.

Lemma get2_Some_range h w g i j x :
  shape h w g → Vec.get2 g i j = Some x → 0 ≤ i < h ∧ 0 ≤ j < w.
Proof.
  intros Hg. unfold Vec.get2. destruct (Vec.get g i) as [row|] eqn:Hrow; [|done].
  simpl. intros Hx%get_Some_range.
  rewrite (shape_row _ _ _ _ _ Hg Hrow) in Hx.
  apply get_Some_range in Hrow. destruct Hg as [<- _]. done.
Qed.

Lemma get2_out_of_range h w g i j :
  shape h w g → ¬ (0 ≤ i < h ∧ 0 ≤ j < w) → Vec.get2 g i j = None.
Proof.
  intros Hg Hij. destruct (Vec.get2 g i j) eqn:E; [|done].
  by apply (get2_Some_range _ _ _ _ _ _ Hg) in E.
Qed.

Lemma get2_filled h w x i j :
  0 ≤ i < h → 0 ≤ j < w → Vec.get2 (Vec.fill h (Vec.fill w x)) i j = Some x.
Proof.
  intros Hi Hj. unfold Vec.get2. rewrite get_fill by done. simpl.
  by apply get_fill.
Qed.

Lemma set2_in_range h w g i j x :
  shape h w g → 0 ≤ i < h → 0 ≤ j < w → is_Some (Vec.set2 g i j x).
Proof.
  intros Hg Hi Hj. unfold Vec.set2.
  destruct (get_in_range g i) as [row Hrow]; [destruct Hg; lia|].
  rewrite Hrow. simpl. rewrite set_in_range; simpl.
  - rewrite set_in_range; [done|]. destruct Hg. lia.
  - by rewrite (shape_row _ _ _ _ _ Hg Hrow).
Qed.

Lemma set2_shape h w g i j x g' :
  shape h w g → Vec.set2 g i j x = Some g' → shape h w g'.
Proof.
  intros Hg. unfold Vec.set2.
  destruct (Vec.get g i) as [row|] eqn:Hrow; [|done]. simpl.
  destruct (Vec.set row j x) as [row'|] eqn:Hset; [|done]. simpl.
  intros Hg'. pose proof (size_set _ _ _ _ Hg') as Hsz.
  apply set_Some_range in Hg' as [Hi ->].
  split; [destruct Hg; lia|].
  apply Forall_insert; [by destruct Hg|].
  rewrite (size_set _ _ _ _ Hset). by eapply shape_row.
Qed.

Lemma get2_set2_eq g i j x g' :
  Vec.set2 g i j x = Some g' → Vec.get2 g' i j = Some x.
Proof.
  unfold Vec.set2, Vec.get2.
  destruct (Vec.get g i) as [row|] eqn:Hrow; [|done]. simpl.
  destruct (Vec.set row j x) as [row'|] eqn:Hset; [|done]. simpl.
  intros Hg'. rewrite (get_set_eq _ _ _ _ Hg'). simpl.
  by eapply get_set_eq.
Qed.

Lemma get2_set2_ne g i j x g' i' j' :
  Vec.set2 g i j x = Some g' → (i, j) ≠ (i', j') →
  Vec.get2 g' i' j' = Vec.get2 g i' j'.
Proof.
  unfold Vec.set2, Vec.get2.
  destruct (Vec.get g i) as [row|] eqn:Hrow; [|done]. simpl.
  destruct (Vec.set row j x) as [row'|] eqn:Hset; [|done]. simpl.
  intros Hg' Hne. destruct (decide (i = i')) as [<-|Hi].
  - rewrite (get_set_eq _ _ _ _ Hg'), Hrow. simpl.
    eapply get_set_ne; [done|]. congruence.
  - by rewrite (get_set_ne _ _ _ _ _ Hg' Hi).
Qed.

Lemma set2_same g i j x : Vec.get2 g i j = Some x → Vec.set2 g i j x = Some g.
Proof.
  unfold Vec.set2, Vec.get2.
  destruct (Vec.get g i) as [row|] eqn:Hrow; [|done]. simpl.
  intros Hx. rewrite (set_same _ _ _ Hx). simpl. by apply set_same.
Qed.

Lemma grid_ext h w g g' :
  shape h w g → shape h w g' →
  (∀ i j, 0 ≤ i < h → 0 ≤ j < w → Vec.get2 g i j = Vec.get2 g' i j) →
  g = g'.
Proof.
  intros Hg Hg' Hcells. apply vec_ext.
  - destruct Hg, Hg'. lia.
  - intros i Hi.
    destruct (get_in_range g i) as [row Hrow]; [done|].
    destruct (get_in_range g' i) as [row' Hrow']; [destruct Hg, Hg'; lia|].
    rewrite Hrow, Hrow'. f_equal.
    pose proof (shape_row _ _ _ _ _ Hg Hrow) as Hw.
    pose proof (shape_row _ _ _ _ _ Hg' Hrow') as Hw'.
    apply vec_ext; [lia|]. intros j Hj.
    assert (0 ≤ i < h) as Hih by (destruct Hg; lia).
    specialize (Hcells i j Hih ltac:(lia)).
    unfold Vec.get2 in Hcells. by rewrite Hrow, Hrow' in Hcells.
Qed.

End GridFacts.

Section GridMapFacts.

Context {A B : Type} (f : A → B).
Implicit Types (g : list (list A)) (i j h w : Z).

Lemma shape_map h w g : shape h w g → shape h w (map (map f) g).
Proof.
  intros [Hsz Hrows]. split.
  - unfold Vec.size in *. by rewrite length_map.
  - apply Forall_fmap. eapply Forall_impl; [done|].
    intros row Hr. simpl. unfold Vec.size in *. by rewrite length_map.
Qed.

Lemma get2_map g i j : Vec.get2 (map (map f) g) i j = f <$> Vec.get2 g i j.
Proof.
  unfold Vec.get2, Vec.get. destruct (i <? 0); [done|].
  rewrite list_lookup_fmap. destruct (g !! Z.to_nat i) as [row|]; [simpl|done].
  destruct (j <? 0); [done|]. by rewrite list_lookup_fmap.
Qed.

End GridMapFacts.

(** ** Loops *)

Section LoopFacts.

Context {S : Type}.
Implicit Types (body : Z → S → option S) (s : S) (lo hi i : Z).

(** A loop whose every iteration keeps an invariant runs to its end. *)
Lemma for_range_invariant (P : Z → S → Prop) lo hi body s :
  lo ≤ hi → P lo s →
  (∀ i t, lo ≤ i < hi → P i t → ∃ t', body i t = Some t' ∧ P (i + 1) t') →
  ∃ s', for_range lo hi body s = Some s' ∧ P hi s'.
Proof.
  intros Hle Hs Hstep. unfold for_range.
  remember (Z.to_nat (hi - lo)) as n eqn:Hn.
  revert lo s Hle Hs Hstep Hn. induction n as [|n IH]; intros lo s Hle Hs Hstep Hn.
  - exists s. split; [done|]. by replace hi with lo by lia.
  - destruct (Hstep lo s ltac:(lia) Hs) as (t & Ht & HP). simpl. rewrite Ht. simpl.
    apply IH; [lia|done| |lia].
    intros i u Hi. apply Hstep. lia.
Qed.

(** A loop stops without a result at the first iteration that has none. *)
Lemma for_range_undefined (P : Z → S → Prop) lo hi k body s :
  lo ≤ k < hi → P lo s →
  (∀ i t, lo ≤ i < k → P i t → ∃ t', body i t = Some t' ∧ P (i + 1) t') →
  (∀ t, P k t → body k t = None) →
  for_range lo hi body s = None.
Proof.
  intros Hk Hs Hstep Hfail. unfold for_range.
  remember (Z.to_nat (k - lo)) as n eqn:Hn.
  revert lo s Hk Hs Hstep Hn. induction n as [|n IH]; intros lo s Hk Hs Hstep Hn.
  - assert (lo = k) as -> by lia.
    replace (Z.to_nat (hi - k)) with (Datatypes.S (Z.to_nat (hi - (k + 1)))) by lia.
    simpl. by rewrite (Hfail s Hs).
  - replace (Z.to_nat (hi - lo)) with (Datatypes.S (Z.to_nat (hi - (lo + 1)))) by lia.
    destruct (Hstep lo s ltac:(lia) Hs) as (t & Ht & HP). simpl. rewrite Ht. simpl.
    apply IH; [lia|done| |lia].
    intros i u Hi. apply Hstep. lia.
Qed.

Lemma bind_Some {T} (x : S) (f : S → option T) : (Some x ≫= f) = f x.
Proof. done. Qed.

(** The loops of [blur] over the window run from -1 to 1. *)
Lemma for_range_window body s :
  for_range (-1) 2 body s
  = s1 ← body (-1) s; s2 ← body 0 s1; s3 ← body 1 s2; Some s3.
Proof.
  unfold for_range. change (Z.to_nat (2 - -1)) with 3%nat.
  unfold loop_from. change (-1 + 1) with 0. change (0 + 1) with 1.
  destruct (body (-1) s) as [s1|]; [simpl|done].
  destruct (body 0 s1) as [s2|]; [simpl|done].
  by destruct (body 1 s2).
Qed.

End LoopFacts.

(** ** Loop nests that write cells *)

Section WriteCells.

Context {A : Type}.
Implicit Types (g : list (list A)) (h w k : Z).

(** Two nested loops that store [f i j] in cell [(i, j)] for the first [k]
    columns of every row, as the second loop nest of [normalize] does. *)
Lemma write_cells (body : Z → Z → list (list A) → option (list (list A)))
    (f : Z → Z → option A) h w k g0 :
  (∀ i j ng, body i j ng = x ← f i j; Vec.set2 ng i j x) →
  shape h w g0 → 0 ≤ k ≤ w →
  (∀ i j, 0 ≤ i < h → 0 ≤ j < k → is_Some (f i j)) →
  ∃ g', for_range 0 h (λ i ng, for_range 0 k (λ j ng, body i j ng) ng) g0
          = Some g'
        ∧ shape h w g'
        ∧ ∀ a b, 0 ≤ a < h → 0 ≤ b < w →
            Vec.get2 g' a b = if decide (b < k) then f a b else Vec.get2 g0 a b.
Proof.
  intros Hbody Hg0 Hk Hf.
  pose (done_ := λ (i j a b : Z), (a < i ∨ (a = i ∧ b < j)) ∧ b < k).
  pose (Q := λ (i j : Z) (ng : list (list A)),
    shape h w ng ∧ ∀ a b, 0 ≤ a < h → 0 ≤ b < w →
      Vec.get2 ng a b = if decide (done_ i j a b) then f a b else Vec.get2 g0 a b).
  pose proof (shape_nonneg _ _ _ Hg0) as Hh.
  destruct (for_range_invariant (λ i ng, Q i 0 ng) 0 h
    (λ i ng, for_range 0 k (λ j ng, body i j ng) ng) g0)
    as (g' & Hrun & Hsh & Hcells); [done| |..].
  - split; [done|]. intros a b Ha Hb.
    destruct (decide (done_ 0 0 a b)) as [Hd|]; [|done]. unfold done_ in Hd. lia.
  - intros i ng Hi HQ.
    destruct (for_range_invariant (λ j ng, Q i j ng) 0 k
      (λ j ng, body i j ng) ng)
      as (ng' & Hrun & Hsh & Hcells); [lia|done| |].
    + intros j t Hj [Hsh Hcells].
      destruct (Hf i j Hi Hj) as [x Hx]. rewrite Hbody, Hx. simpl.
      destruct (set2_in_range h w t i j x) as [t' Ht']; [done|done|lia|].
      exists t'. split; [done|]. split; [by eapply set2_shape|].
      intros a b Ha Hb. destruct (decide ((i, j) = (a, b))) as [[= <- <-]|Hne].
      * rewrite (get2_set2_eq _ _ _ _ _ Ht').
        destruct (decide (done_ i (j + 1) i j)) as [|Hd]; [done|].
        unfold done_ in Hd. lia.
      * rewrite (get2_set2_ne _ _ _ _ _ _ _ Ht' Hne), Hcells by done.
        assert (done_ i (j + 1) a b ↔ done_ i j a b) as Hiff.
        { unfold done_. assert (¬ (a = i ∧ b = j)) by (intros [-> ->]; done). lia. }
        destruct (decide (done_ i (j + 1) a b)), (decide (done_ i j a b)); tauto.
    + exists ng'. split; [done|]. split; [done|].
      intros a b Ha Hb. rewrite Hcells by done.
      assert (done_ (i + 1) 0 a b ↔ done_ i k a b) as Hiff by (unfold done_; lia).
      destruct (decide (done_ (i + 1) 0 a b)), (decide (done_ i k a b)); tauto.
  - exists g'. split; [done|]. split; [done|].
    intros a b Ha Hb. rewrite Hcells by done.
    assert (done_ h 0 a b ↔ b < k) as Hiff by (unfold done_; lia).
    destruct (decide (done_ h 0 a b)), (decide (b < k)); tauto.
Qed.

End WriteCells.

(** ** [normalize] *)

Section NormalizeFacts.

Context {F : Type} `{Arith F}.
Implicit Types (g : grid F) (h w : Z).

(** On a rectangular grid the first loop nest adds all the cells to [0.0],
    row by row from left to right. *)
Lemma grid_total_shape h w g :
  shape h w g → 0 < h → grid_total g = Some (foldl f_add f_zero (concat g)).
Proof.
  intros Hg Hh. unfold grid_total.
  destruct (get_in_range g 0) as [row0 Hrow0]; [destruct Hg; lia|].
  rewrite Hrow0. simpl.
  rewrite (shape_row _ _ _ _ _ Hg Hrow0).
  assert (Vec.size g = h) as -> by (by destruct Hg).
  destruct (for_range_invariant
    (λ i t, t = foldl f_add f_zero (concat (take (Z.to_nat i) g))) 0 h
    (λ row total, for_range 0 w (λ cell total,
        x ← Vec.get2 g row cell; Some (f_add total x)) total) f_zero)
    as (t & Hrun & Ht); [lia|done| |].
  - intros i t Hi ->.
    destruct (get_in_range g i) as [row Hrow]; [destruct Hg; lia|].
    pose proof (shape_row _ _ _ _ _ Hg Hrow) as Hw.
    assert (g !! Z.to_nat i = Some row) as Hlk.
    { rewrite <- get_lookup. by rewrite Z2Nat.id by lia. }
    destruct (for_range_invariant
      (λ j t, t = foldl f_add (foldl f_add f_zero (concat (take (Z.to_nat i) g)))
                    (take (Z.to_nat j) row)) 0 w
      (λ cell total, x ← Vec.get2 g i cell; Some (f_add total x))
      (foldl f_add f_zero (concat (take (Z.to_nat i) g))))
      as (t & Hrun & Ht); [rewrite <- Hw; apply size_nonneg|done| |].
    + intros j t Hj ->.
      destruct (get_in_range row j) as [x Hx]; [lia|].
      assert (row !! Z.to_nat j = Some x) as Hlx.
      { rewrite <- get_lookup. by rewrite Z2Nat.id by lia. }
      unfold Vec.get2. rewrite Hrow. simpl. rewrite Hx. simpl.
      eexists. split; [done|].
      replace (Z.to_nat (j + 1)) with (Datatypes.S (Z.to_nat j)) by lia.
      rewrite (take_S_r _ _ _ Hlx), foldl_app. done.
    + exists t. split; [done|]. subst t.
      replace (Z.to_nat (i + 1)) with (Datatypes.S (Z.to_nat i)) by lia.
      rewrite (take_S_r _ _ _ Hlk), concat_app, foldl_app. simpl.
      rewrite app_nil_r. f_equal.
      apply take_ge. unfold Vec.size in Hw. lia.
  - rewrite Hrun. f_equal. subst t. f_equal. f_equal.
    apply take_ge. destruct Hg as [Hsz _]. unfold Vec.size in Hsz. lia.
Qed.

(** What [normalize] returns on a grid that is at least as wide as it is
    tall: the first [h] columns are divided by the total, the columns from
    [h] on are left at [0.0]. *)
Lemma normalize_wide h w g total :
  shape h w g → 0 < h ≤ w → grid_total g = Some total →
  ∃ g', normalize g = Some g' ∧ shape h w g' ∧
    ∀ i j, 0 ≤ i < h → 0 ≤ j < w →
      Vec.get2 g' i j =
        if decide (j < h) then x ← Vec.get2 g i j; Some (f_div x total)
        else Some f_zero.
Proof.
  intros Hg Hhw Htotal. unfold normalize, divide_cells, filled.
  destruct (get_in_range g 0) as [row0 Hrow0]; [destruct Hg; lia|].
  rewrite Hrow0, Htotal. simpl.
  rewrite (shape_row _ _ _ _ _ Hg Hrow0).
  assert (Vec.size g = h) as -> by (by destruct Hg).
  destruct (write_cells
    (λ i j ng, x ← Vec.get2 g i j; Vec.set2 ng i j (f_div x total))
    (λ i j, x ← Vec.get2 g i j; Some (f_div x total))
    h w h (Vec.fill h (Vec.fill w f_zero))) as (g' & Hrun & Hsh & Hcells).
  - intros i j ng. by destruct (Vec.get2 g i j).
  - apply shape_filled; lia.
  - lia.
  - intros i j Hi Hj.
    destruct (get2_in_range h w g i j) as [x Hx]; [done|done|lia|].
    rewrite Hx. done.
  - exists g'. split; [done|]. split; [done|].
    intros i j Hi Hj. rewrite Hcells by done.
    destruct (decide (j < h)); [done|]. by apply get2_filled.
Qed.

(** On a grid that is taller than wide the second loop nest of [normalize]
    indexes row 0 at column [w], past its end. *)
Lemma normalize_tall h w g :
  shape h w g → 0 ≤ w < h → normalize g = None.
Proof.
  intros Hg Hwh. unfold normalize, divide_cells, filled.
  destruct (get_in_range g 0) as [row0 Hrow0]; [destruct Hg; lia|].
  rewrite Hrow0. simpl.
  rewrite (grid_total_shape h w g) by (done || lia). simpl.
  rewrite (shape_row _ _ _ _ _ Hg Hrow0).
  assert (Vec.size g = h) as -> by (by destruct Hg).
  apply (for_range_undefined (λ _ ng, shape h w ng) 0 h 0);
    [lia|apply shape_filled; lia|lia|].
  intros ng Hng.
  apply (for_range_undefined (λ _ ng, shape h w ng) 0 h w); [lia|done| |].
  - intros j t Hj Ht.
    destruct (get2_in_range h w g 0 j) as [x Hx]; [done|lia|lia|].
    rewrite Hx. simpl.
    destruct (set2_in_range h w t 0 j (f_div x (foldl f_add f_zero (concat g))))
      as [t' Ht']; [done|lia|lia|].
    exists t'. split; [done|]. by eapply set2_shape.
  - intros t Ht. rewrite (get2_out_of_range h w g 0 w); [done|done|lia].
Qed.

(** On a square grid every cell is divided by the total. *)
Lemma normalize_square h g total :
  shape h h g → 0 < h → grid_total g = Some total →
  normalize g = Some (map (map (λ x, f_div x total)) g).
Proof.
  intros Hg Hh Htotal.
  destruct (normalize_wide h h g total Hg ltac:(lia) Htotal)
    as (r & -> & Hsh & Hcells).
  f_equal. apply (grid_ext h h); [done|by apply shape_map|].
  intros i j Hi Hj. rewrite Hcells, get2_map by done.
  rewrite decide_True by lia. by destruct (Vec.get2 g i j).
Qed.

End NormalizeFacts.

(** ** The shift of [move] *)

Lemma mod_add_cancel a i d n :
  0 ≤ a < n → 0 ≤ i < n → (a + d) mod n = (i + d) mod n → a = i.
Proof.
  intros Ha Hi Heq.
  assert ((a - i) mod n = 0) as Hz.
  { replace (a - i) with ((a + d) - (i + d)) by lia.
    rewrite Zminus_mod, Heq, Z.sub_diag. apply Z.mod_0_l. lia. }
  destruct (Z.lt_trichotomy a i) as [Hlt|[->|Hgt]]; [|done|].
  - rewrite <- (Z_mod_plus_full _ 1 n), Z.mod_small in Hz; lia.
  - rewrite Z.mod_small in Hz; lia.
Qed.

(** Arithmetic that knows the range of [int]. *)
Ltac int_lia :=
  unfold Vec.int_min, Vec.int_max in *;
  change (2 ^ 31) with 2147483648 in *; lia.

(** A sum within the range of [int] is that sum. *)
Lemma add_in_range a b :
  Vec.int_min ≤ a + b ≤ Vec.int_max → Vec.add a b = Some (a + b).
Proof.
  intros Hab. unfold Vec.add.
  destruct (Z.leb_spec Vec.int_min (a + b)); [|lia].
  destruct (Z.leb_spec (a + b) Vec.int_max); [done|lia].
Qed.

(** A sum of [int]s is the sum, or is undefined. *)
Lemma add_cases a b : Vec.add a b = Some (a + b) ∨ Vec.add a b = None.
Proof. unfold Vec.add. destruct (_ && _); [by left|by right]. Qed.

Section ShiftFacts.

Context {F : Type} `{Arith F}.
Implicit Types (g : grid F) (n : Z).

(** On a square grid and for offsets that are not negative and that make no
    sum with an index overflow, the shift sends every cell [(i, j)] to
    [((i + dy) mod n, (j + dx) mod n)]. *)
Lemma shift_square n dy dx g :
  shape n n g → 0 < n →
  0 ≤ dy ≤ Vec.int_max - (n - 1) → 0 ≤ dx ≤ Vec.int_max - (n - 1) →
  ∃ r, shift dy dx g = Some r ∧ shape n n r ∧
    ∀ i j, 0 ≤ i < n → 0 ≤ j < n →
      Vec.get2 r ((i + dy) mod n) ((j + dx) mod n) = Vec.get2 g i j.
Proof.
  intros Hg Hn Hdy Hdx. unfold shift, filled.
  destruct (get_in_range g 0) as [row0 Hrow0]; [destruct Hg; lia|].
  rewrite Hrow0. simpl. rewrite (shape_row _ _ _ _ _ Hg Hrow0).
  assert (Vec.size g = n) as -> by (by destruct Hg).
  pose (Q := λ (i j : Z) (ng : list (list F)),
    shape n n ng ∧ ∀ a b, 0 ≤ a < n → 0 ≤ b < n →
      Vec.get2 ng ((a + dy) mod n) ((b + dx) mod n) =
        if decide (a < i ∨ (a = i ∧ b < j)) then Vec.get2 g a b
        else Some f_zero).
  assert (∀ a d, 0 ≤ (a + d) mod n < n) as Hmod.
  { intros a d. apply Z.mod_pos_bound. lia. }
  destruct (for_range_invariant (λ i ng, Q i 0 ng) 0 n
    (λ i ng, for_range 0 n (λ j ng,
       row ← Vec.add i dy; new_i ← Vec.rem row n;
       column ← Vec.add j dx; new_j ← Vec.rem column n;
       v ← Vec.get2 g i j; Vec.set2 ng new_i new_j v) ng)
    (Vec.fill n (Vec.fill n f_zero)))
    as (r & Hrun & Hsh & Hcells); [lia| | |].
  - split; [apply shape_filled; lia|]. intros a b Ha Hb.
    rewrite decide_False by lia. apply get2_filled; by apply Hmod.
  - intros i ng Hi HQ.
    destruct (for_range_invariant (λ j ng, Q i j ng) 0 n
      (λ j ng, row ← Vec.add i dy; new_i ← Vec.rem row n;
       column ← Vec.add j dx; new_j ← Vec.rem column n;
         v ← Vec.get2 g i j; Vec.set2 ng new_i new_j v) ng)
      as (ng' & Hrun & Hsh & Hcells); [lia|done| |].
    + intros j t Hj [Hsh Hcells].
      rewrite (add_in_range i dy), (add_in_range j dx) by int_lia.
      cbn [mbind option_bind]. unfold Vec.rem.
      destruct (Z.eqb_spec n 0) as [|_]; [lia|]. simpl.
      rewrite !Z.rem_mod_nonneg by lia.
      destruct (get2_in_range n n g i j) as [v Hv]; [done..|].
      rewrite Hv. simpl.
      destruct (set2_in_range n n t ((i + dy) mod n) ((j + dx) mod n) v)
        as [t' Ht']; [done|by apply Hmod..|].
      exists t'. split; [done|]. split; [by eapply set2_shape|].
      intros a b Ha Hb. destruct (decide ((i, j) = (a, b))) as [[= <- <-]|Hne].
      * rewrite (get2_set2_eq _ _ _ _ _ Ht'). rewrite decide_True by lia. done.
      * rewrite (get2_set2_ne _ _ _ _ _ _ _ Ht'), Hcells by
          (done || (intros [= Ei Ej]; apply Hne; f_equal;
                    symmetry; eapply mod_add_cancel; eauto)).
        assert (¬ (a = i ∧ b = j)) by (intros [-> ->]; done).
        do 2 destruct (decide _); (done || lia).
    + exists ng'. split; [done|]. split; [done|].
      intros a b Ha Hb. rewrite Hcells by done.
      do 2 destruct (decide _); (done || lia).
  - exists r. split; [done|]. split; [done|].
    intros i j Hi Hj. rewrite Hcells by done. by rewrite decide_True by lia.
Qed.

End ShiftFacts.

(** ** [blur] *)

(** The index computed by [blur] is the mathematical modulus. *)
Lemma wrap_index_mod i d n : 0 < n → wrap_index i d n = Some ((i + d) mod n).
Proof.
  intros Hn. unfold wrap_index, Vec.rem.
  destruct (Z.eqb_spec n 0) as [|_]; [lia|]. simpl.
  destruct (Z.eqb_spec n 0) as [|_]; [lia|]. f_equal.
  pose proof (Z.quot_rem' (i + d) n) as Hqr.
  assert (- n < Z.rem (i + d) n < n) as Hr.
  { pose proof (Z.rem_bound_abs (i + d) n). lia. }
  rewrite Z.rem_mod_nonneg by lia.
  replace (Z.rem (i + d) n + n) with (i + d + (1 - (i + d) ÷ n) * n) by lia.
  apply Z_mod_plus_full.
Qed.

Section BlurAtZero.

Context {F : Type} `{Arith F}.

(** The three weights of the window when [blurring] is [0.0]. *)
Let center0 : F := to_float (d_sub (d_of_int 1) (to_double f_zero)).
Let corner0 : F := to_float (d_div (to_double f_zero) (d_of_int 12)).
Let adjacent0 : F := to_float (d_div (to_double f_zero) (d_of_int 6)).

(** What the arithmetic has to provide: on the cells [fine] of the input and
    the accumulators [steady] of the output, a neighbour's share leaves the
    accumulator as it is, and the centre's share added to [0.0] gives
    [settle v]. *)
Variables (fine steady : F → Prop) (settle : F → F).
Hypothesis steady_zero : steady f_zero.
Hypothesis steady_settle : ∀ v, fine v → steady (settle v).
Hypothesis add_corner :
  ∀ acc v, steady acc → fine v → f_add acc (f_mul corner0 v) = acc.
Hypothesis add_adjacent :
  ∀ acc v, steady acc → fine v → f_add acc (f_mul adjacent0 v) = acc.
Hypothesis add_center :
  ∀ v, fine v → f_add f_zero (f_mul center0 v) = settle v.

Implicit Types (g ng : grid F) (h w i j : Z).

Let all_steady ng : Prop := ∀ a b x, Vec.get2 ng a b = Some x → steady x.

Lemma spill_off_center h w i j v dx dy ng :
  shape h w ng → all_steady ng → fine v →
  0 ≤ i < h → 0 ≤ j < w → -1 ≤ dx ≤ 1 → -1 ≤ dy ≤ 1 → (dx, dy) ≠ (0, 0) →
  spill (window f_zero) h w i j v dx dy ng = Some ng.
Proof.
  intros Hng Hst Hv Hi Hj Hdx Hdy Hne. unfold spill.
  rewrite !wrap_index_mod by lia.
  assert (∃ k, Vec.get2 (window f_zero) (dx + 1) (dy + 1) = Some k
               ∧ (k = corner0 ∨ k = adjacent0)) as (k & Hget & Hk).
  { assert (dx = -1 ∨ dx = 0 ∨ dx = 1) as [-> | [-> | ->]] by lia;
      assert (dy = -1 ∨ dy = 0 ∨ dy = 1) as [-> | [-> | ->]] by lia;
      try done; eexists; (split; [reflexivity|]); auto. }
  rewrite Hget. simpl.
  pose proof (Z.mod_pos_bound (i + dy) h ltac:(lia)).
  pose proof (Z.mod_pos_bound (j + dx) w ltac:(lia)).
  destruct (get2_in_range h w ng ((i + dy) mod h) ((j + dx) mod w))
    as [old Hold]; [done..|].
  rewrite Hold. simpl. apply set2_same. rewrite Hold. f_equal.
  symmetry. destruct Hk as [-> | ->]; [apply add_corner|apply add_adjacent]; eauto.
Qed.

Lemma spill_center h w i j v ng :
  shape h w ng → fine v → 0 ≤ i < h → 0 ≤ j < w →
  Vec.get2 ng i j = Some f_zero →
  spill (window f_zero) h w i j v 0 0 ng = Vec.set2 ng i j (settle v).
Proof.
  intros Hng Hv Hi Hj Hzero. unfold spill.
  rewrite !wrap_index_mod by lia. simpl.
  rewrite !Z.add_0_r, !Z.mod_small by lia.
  rewrite Hzero. simpl. f_equal. by apply add_center.
Qed.

(** The nine shares of one source cell: only the cell itself changes. *)
Lemma spill_window h w i j v ng :
  shape h w ng → all_steady ng → fine v → 0 ≤ i < h → 0 ≤ j < w →
  Vec.get2 ng i j = Some f_zero →
  for_range (-1) 2 (λ dx ng,
    for_range (-1) 2 (λ dy ng,
      spill (window f_zero) h w i j v dx dy ng) ng) ng
  = Vec.set2 ng i j (settle v).
Proof.
  intros Hng Hst Hv Hi Hj Hzero.
  destruct (set2_in_range h w ng i j (settle v)) as [ng' Hng']; [done..|].
  assert (shape h w ng') as Hsh' by (by eapply set2_shape).
  assert (all_steady ng') as Hst'.
  { intros a b x Hx. destruct (decide ((i, j) = (a, b))) as [[= <- <-]|Hne].
    - rewrite (get2_set2_eq _ _ _ _ _ Hng') in Hx. injection Hx as <-. auto.
    - rewrite (get2_set2_ne _ _ _ _ _ _ _ Hng' Hne) in Hx. eauto. }
  repeat first
    [ rewrite for_range_window; cbv beta
    | rewrite (spill_off_center h w i j v _ _ ng) by (done || lia)
    | rewrite bind_Some; cbv beta ].
  rewrite spill_center by done. rewrite Hng'.
  repeat first
    [ rewrite for_range_window; cbv beta
    | rewrite (spill_off_center h w i j v _ _ ng') by (done || lia)
    | rewrite bind_Some; cbv beta ].
  done.
Qed.

(** With [blurring = 0.0] the loop nest of [blur] rebuilds its input, cell
    by cell. *)
Lemma convolve_zero h w g :
  shape h w g → 0 < h →
  (∀ a b x, Vec.get2 g a b = Some x → fine x) →
  convolve g f_zero = Some (map (map settle) g).
Proof.
  intros Hg Hh Hfine. unfold convolve, filled.
  destruct (get_in_range g 0) as [row0 Hrow0]; [destruct Hg; lia|].
  rewrite Hrow0. simpl. rewrite (shape_row _ _ _ _ _ Hg Hrow0).
  assert (Vec.size g = h) as -> by (by destruct Hg).
  assert (0 ≤ w) as Hw.
  { rewrite <- (shape_row _ _ _ _ _ Hg Hrow0). apply size_nonneg. }
  pose (Q := λ (i j : Z) (ng : list (list F)),
    shape h w ng ∧ ∀ a b, 0 ≤ a < h → 0 ≤ b < w →
      ∃ x, Vec.get2 g a b = Some x ∧
        Vec.get2 ng a b =
          Some (if decide (a < i ∨ (a = i ∧ b < j)) then settle x else f_zero)).
  assert (∀ i j ng, Q i j ng → all_steady ng) as Hsteady.
  { intros i j ng [Hsh Hcells] a b x Hx.
    destruct (get2_Some_range _ _ _ _ _ _ Hsh Hx) as [Ha Hb].
    destruct (Hcells a b Ha Hb) as (y & Hy & Hx'). rewrite Hx' in Hx.
    injection Hx as <-. destruct (decide _); eauto. }
  destruct (for_range_invariant (λ i ng, Q i 0 ng) 0 h
    (λ i ng, for_range 0 w (λ j ng,
       grid_value ← Vec.get2 g i j;
       for_range (-1) 2 (λ dx ng,
         for_range (-1) 2 (λ dy ng,
           spill (window f_zero) h w i j grid_value dx dy ng) ng) ng) ng)
    (Vec.fill h (Vec.fill w f_zero)))
    as (g' & Hrun & Hsh & Hcells); [lia| | |].
  - split; [apply shape_filled; lia|]. intros a b Ha Hb.
    destruct (get2_in_range h w g a b) as [x Hx]; [done..|].
    exists x. split; [done|]. rewrite get2_filled by done.
    destruct (decide _); [lia|done].
  - intros i ng Hi HQ.
    destruct (for_range_invariant (λ j ng, Q i j ng) 0 w
      (λ j ng, grid_value ← Vec.get2 g i j;
         for_range (-1) 2 (λ dx ng,
           for_range (-1) 2 (λ dy ng,
             spill (window f_zero) h w i j grid_value dx dy ng) ng) ng) ng)
      as (ng' & Hrun & Hsh & Hcells); [lia|done| |].
    + intros j t Hj HQt. pose proof (Hsteady _ _ _ HQt) as Hst.
      destruct HQt as [Hsh Hcells].
      destruct (Hcells i j Hi Hj) as (v & Hv & Ht). rewrite Hv. simpl.
      destruct (decide _) as [|_] in Ht; [lia|].
      rewrite (spill_window h w) by eauto.
      destruct (set2_in_range h w t i j (settle v)) as [t' Ht']; [done..|].
      exists t'. split; [done|]. split; [by eapply set2_shape|].
      intros a b Ha Hb. destruct (Hcells a b Ha Hb) as (x & Hx & Hxt).
      exists x. split; [done|].
      destruct (decide ((i, j) = (a, b))) as [[= <- <-]|Hne].
      * rewrite (get2_set2_eq _ _ _ _ _ Ht').
        rewrite decide_True by lia. congruence.
      * rewrite (get2_set2_ne _ _ _ _ _ _ _ Ht' Hne), Hxt.
        assert (¬ (a = i ∧ b = j)) by (intros [-> ->]; done).
        do 2 destruct (decide _); (done || lia).
    + exists ng'. split; [done|]. split; [done|].
      intros a b Ha Hb. destruct (Hcells a b Ha Hb) as (x & Hx & Hxt).
      exists x. split; [done|]. rewrite Hxt.
      do 2 destruct (decide _); (done || lia).
  - rewrite Hrun. f_equal.
    apply (grid_ext h w); [done|by apply shape_map|].
    intros a b Ha Hb. destruct (Hcells a b Ha Hb) as (x & Hx & ->).
    rewrite decide_True by lia. by rewrite get2_map, Hx.
Qed.

End BlurAtZero.

(** ** Exact arithmetic *)

Section ExactFacts.

Implicit Types (g : grid Qc) (h w : Z).

(** Without rounding, [blur] with [blurring = 0.0] convolves every grid to
    itself. *)
Lemma exact_convolve_zero h w g :
  shape h w g → 0 < h → convolve g f_zero = Some g.
Proof.
  intros Hg Hh.
  assert (map (map (λ x : Qc, x)) g = g) as Hid.
  { rewrite <- (List.map_id g) at 2. apply List.map_ext. intros row.
    apply List.map_id. }
  rewrite <- Hid at 2.
  apply (convolve_zero (λ _, True) (λ _, True) (λ x, x)) with (h := h) (w := w).
  - exact I.
  - intros; exact I.
  - intros acc v _ _. change (acc + 0 / Exact.of_int 12 * v = acc)%Qc.
    unfold Qcdiv. ring.
  - intros acc v _ _. change (acc + 0 / Exact.of_int 6 * v = acc)%Qc.
    unfold Qcdiv. ring.
  - intros v _. change (0 + (1 - 0) * v = v)%Qc. ring.
  - exact Hg.
  - exact Hh.
  - intros; exact I.
Qed.

End ExactFacts.

(** ** Loops that return *)

Section ReturnFacts.

Context {R : Type}.
Implicit Types (body : Z → option (option R)) (lo hi : Z) (r : R).

(** A loop whose iterations either go on or return [r]: it returns [r]
    exactly when one of them does. *)
Lemma for_return_cases (bad : Z → bool) r lo hi body :
  (∀ i, lo ≤ i < hi → body i = Some (if bad i then Some r else None)) →
  (for_return lo hi body = Some None ∧ ∀ i, lo ≤ i < hi → bad i = false)
  ∨ (for_return lo hi body = Some (Some r) ∧ ∃ i, lo ≤ i < hi ∧ bad i = true).
Proof.
  unfold for_return. remember (Z.to_nat (hi - lo)) as n eqn:Hn.
  revert lo Hn. induction n as [|n IH]; intros lo Hn Hbody.
  - left. split; [done|]. intros i Hi. lia.
  - simpl. rewrite (Hbody lo) by lia. simpl.
    destruct (bad lo) eqn:Hlo.
    + right. split; [done|]. exists lo. split; [lia|done].
    + destruct (IH (lo + 1)) as [[Hrun Hall]|[Hrun (i & Hi & Hbad)]].
      * lia.
      * intros i Hi. apply Hbody. lia.
      * left. split; [done|]. intros i Hi.
        destruct (decide (i = lo)) as [->|]; [done|]. apply Hall. lia.
      * right. split; [done|]. exists i. split; [lia|done].
Qed.

End ReturnFacts.

(** ** [close_enough] *)

Section CloseEnoughFacts.

Context {F : Type} `{Arith F}.
Implicit Types (g : grid F) (h w : Z).

Lemma close_enough_rows g1 g2 :
  Vec.size g1 ≠ Vec.size g2 → close_enough g1 g2 = Some false.
Proof.
  intros Hne. unfold close_enough.
  by destruct (Z.eqb_spec (Vec.size g1) (Vec.size g2)).
Qed.

Lemma close_enough_first_row g1 g2 r1 r2 :
  Vec.get g1 0 = Some r1 → Vec.get g2 0 = Some r2 →
  Vec.size r1 ≠ Vec.size r2 → close_enough g1 g2 = Some false.
Proof.
  intros Hr1 Hr2 Hne. unfold close_enough.
  destruct (Z.eqb_spec (Vec.size g1) (Vec.size g2)); [simpl|done].
  rewrite Hr1, Hr2. simpl.
  by destruct (Z.eqb_spec (Vec.size r1) (Vec.size r2)).
Qed.

Lemma close_enough_cells h w g1 g2 :
  shape h w g1 → shape h w g2 → 0 < h →
  ∃ b, close_enough g1 g2 = Some b ∧
    (b = true ↔
     ∀ i j v1 v2, Vec.get2 g1 i j = Some v1 → Vec.get2 g2 i j = Some v2 →
       close_enough_scalar v1 v2 = true).
Proof.
  intros Hg1 Hg2 Hh. unfold close_enough.
  assert (Vec.size g1 = h) as Hs1 by (by destruct Hg1).
  assert (Vec.size g2 = h) as Hs2 by (by destruct Hg2).
  rewrite Hs1, Hs2, Z.eqb_refl. simpl.
  destruct (get_in_range g1 0) as [r1 Hr1]; [lia|].
  destruct (get_in_range g2 0) as [r2 Hr2]; [lia|].
  rewrite Hr1, Hr2. simpl.
  rewrite (shape_row _ _ _ _ _ Hg1 Hr1), (shape_row _ _ _ _ _ Hg2 Hr2).
  rewrite Z.eqb_refl. simpl.
  pose (far := λ i j : Z,
    match Vec.get2 g1 i j, Vec.get2 g2 i j with
    | Some v1, Some v2 => too_far v1 v2
    | _, _ => false
    end).
  pose (inner := λ i : Z, for_return 0 w (λ j,
      v1 ← Vec.get2 g1 i j; v2 ← Vec.get2 g2 i j;
      if too_far v1 v2 then Some (Some false) else Some None)).
  assert (∀ i, 0 ≤ i < h →
    (inner i = Some None ∧ ∀ j, 0 ≤ j < w → far i j = false)
    ∨ (inner i = Some (Some false) ∧ ∃ j, 0 ≤ j < w ∧ far i j = true))
    as Hinner.
  { intros i Hi. apply for_return_cases. intros j Hj. unfold far.
    destruct (get2_in_range h w g1 i j) as [v1 ->]; [done..|].
    destruct (get2_in_range h w g2 i j) as [v2 ->]; [done..|].
    simpl. by destruct (too_far v1 v2). }
  pose (bad := λ i : Z,
    match inner i with Some (Some _) => true | _ => false end).
  destruct (for_return_cases bad false 0 h inner) as
    [[Hrun Hall]|[Hrun (i & Hi & Hbad)]].
  - intros i Hi. unfold bad.
    by destruct (Hinner i Hi) as [[-> _]|[-> _]].
  - fold inner. rewrite Hrun. simpl. exists true. split; [done|].
    split; [|done]. intros _ i j v1 v2 Hv1 Hv2.
    destruct (get2_Some_range _ _ _ _ _ _ Hg1 Hv1) as [Hi Hj].
    specialize (Hall i Hi). unfold bad in Hall.
    destruct (Hinner i Hi) as [[_ Hfar]|[Hr _]]; [|by rewrite Hr in Hall].
    specialize (Hfar j Hj). unfold far in Hfar. rewrite Hv1, Hv2 in Hfar.
    unfold close_enough_scalar. by rewrite Hfar.
  - fold inner. rewrite Hrun. simpl. exists false. split; [done|].
    split; [done|]. intros Hall. exfalso. unfold bad in Hbad.
    destruct (Hinner i Hi) as [[Hr _]|[_ (j & Hj & Hfar)]];
      [by rewrite Hr in Hbad|].
    unfold far in Hfar.
    destruct (Vec.get2 g1 i j) as [v1|] eqn:Hv1; [|done].
    destruct (Vec.get2 g2 i j) as [v2|] eqn:Hv2; [|done].
    specialize (Hall i j v1 v2 Hv1 Hv2). unfold close_enough_scalar in Hall.
    by rewrite Hfar in Hall.
Qed.

End CloseEnoughFacts.

(** ** [initialize_beliefs] *)

Lemma initialize_beliefs_filled {F : Type} `{Arith F} (g : list (list ascii)) h w :
  shape h w g → 0 < h →
  initialize_beliefs g
  = Some (filled h w (to_float (d_div (d_of_int 1) (d_of_int (h * w))))).
Proof.
  intros Hg Hh. unfold initialize_beliefs.
  destruct (get_in_range g 0) as [row0 Hrow0]; [destruct Hg; lia|].
  rewrite Hrow0. simpl. rewrite (shape_row _ _ _ _ _ Hg Hrow0).
  by assert (Vec.size g = h) as -> by (by destruct Hg).
Qed.

(** ** Sums in exact arithmetic *)

Section ExactSums.

Open Scope Qc_scope.

Lemma of_int_succ (n : nat) :
  Exact.of_int (Z.of_nat (S n)) = Exact.of_int (Z.of_nat n) + 1.
Proof.
  apply Qc_is_canon. unfold Exact.of_int. simpl.
  rewrite !Qred_correct. rewrite Nat2Z.inj_succ. unfold Z.succ.
  rewrite inject_Z_plus. reflexivity.
Qed.

Lemma of_int_mult (a b : Z) :
  Exact.of_int (a * b) = Exact.of_int a * Exact.of_int b.
Proof.
  apply Qc_is_canon. unfold Exact.of_int. simpl.
  rewrite !Qred_correct. rewrite inject_Z_mult. reflexivity.
Qed.

Lemma of_int_nonzero (a : Z) : a ≠ 0%Z → Exact.of_int a ≠ 0.
Proof.
  intros Ha E. apply Ha. apply (f_equal this) in E. simpl in E.
  assert (inject_Z a == 0)%Q as E' by (by rewrite <- Qred_correct, E).
  unfold Qeq in E'. simpl in E'. lia.
Qed.

Lemma sum_replicate (acc v : Qc) (n : nat) :
  foldl Qcplus acc (replicate n v) = acc + Exact.of_int (Z.of_nat n) * v.
Proof.
  revert acc. induction n as [|n IH]; intros acc.
  - simpl. change (Exact.of_int (Z.of_nat 0)) with 0. ring.
  - cbn [replicate foldl]. rewrite IH, of_int_succ. ring.
Qed.

Lemma sum_replicate_rows (acc v : Qc) (m n : nat) :
  foldl Qcplus acc (concat (replicate m (replicate n v)))
  = acc + Exact.of_int (Z.of_nat m) * (Exact.of_int (Z.of_nat n) * v).
Proof.
  revert acc. induction m as [|m IH]; intros acc.
  - simpl. change (Exact.of_int (Z.of_nat 0)) with 0. ring.
  - cbn [replicate concat]. rewrite foldl_app, IH, sum_replicate, of_int_succ.
    ring.
Qed.

(** The cells of a grid filled with [1/(h*w)] add up to one. *)
Lemma total_of_uniform (h w : Z) :
  (0 < h)%Z → (0 < w)%Z →
  grid_total (filled h w (1 / Exact.of_int (h * w))) = Some 1.
Proof.
  intros Hh Hw. rewrite (grid_total_shape h w); [|apply shape_filled; lia|done].
  f_equal. unfold filled, Vec.fill. rewrite sum_replicate_rows.
  rewrite !Z2Nat.id by lia. rewrite of_int_mult.
  change (f_zero (F:=Qc)) with 0.
  field. split; apply of_int_nonzero; lia.
Qed.

(** The window of [blur]: one centre, four neighbours at a sixth of the
    blurring, four corners at a twelfth. *)
Lemma window_entries (b : Qc) :
  window b = [ [b / Exact.of_int 12; b / Exact.of_int 6; b / Exact.of_int 12];
               [b / Exact.of_int 6; 1 - b; b / Exact.of_int 6];
               [b / Exact.of_int 12; b / Exact.of_int 6; b / Exact.of_int 12] ].
Proof. reflexivity. Qed.

Lemma window_total (b : Qc) : foldl Qcplus 0 (concat (window b)) = 1.
Proof.
  rewrite window_entries. cbn [concat app foldl].
  assert (Exact.of_int 12 = (1 + 1) * (1 + 1) * (1 + 1 + 1)) as ->.
  { apply Qc_is_canon. reflexivity. }
  assert (Exact.of_int 6 = (1 + 1) * (1 + 1 + 1)) as ->.
  { apply Qc_is_canon. reflexivity. }
  field. split; intros E; discriminate E.
Qed.

Lemma sum_scaled (total acc : Qc) (xs : list Qc) :
  foldl Qcplus (acc / total) (map (λ x, x / total) xs)
  = foldl Qcplus acc xs / total.
Proof.
  revert acc. induction xs as [|x xs IH]; intros acc; [done|].
  cbn [map foldl]. rewrite <- IH. f_equal. unfold Qcdiv. ring.
Qed.

(** Where the loop bound of [normalize] does no harm, on square grids,
    [normalize] is what the specification says: every cell is divided by the
    total, and the cells of the result add up to one. *)
Lemma exact_normalize_square (h : Z) (g : grid Qc) (total : Qc) :
  shape h h g → (0 < h)%Z → grid_total g = Some total → total ≠ 0 →
  ∃ r, normalize g = Some r ∧ shape h h r
       ∧ (∀ i j x, Vec.get2 g i j = Some x →
            Vec.get2 r i j = Some (x / total))
       ∧ grid_total r = Some 1.
Proof.
  intros Hg Hh Htotal Hnz.
  exists (map (map (λ x, f_div x total)) g).
  split; [by apply (normalize_square h)|].
  split; [by apply shape_map|]. split.
  - intros i j x Hx. by rewrite get2_map, Hx.
  - rewrite (grid_total_shape h h) by (by apply shape_map || done).
    rewrite (grid_total_shape h h g Hg Hh) in Htotal. injection Htotal as Htotal.
    rewrite <- concat_map. f_equal.
    change (f_zero (F:=Qc)) with 0 in *. replace 0 with (0 / total) at 1 by
      (unfold Qcdiv; ring).
    change (λ x : Qc, f_div x total) with (λ x : Qc, x / total).
    change (@f_add Qc exact) with Qcplus in *.
    change (Exact.of_int 0) with 0 in Htotal.
    rewrite sum_scaled, Htotal. by field.
Qed.

(** The comparison of [close_enough], without rounding. *)
Lemma exact_close_enough_scalar (v1 v2 : Qc) :
  close_enough_scalar v1 v2 = true ↔ [v2 - v1] <= Exact.tol.
Proof.
  unfold close_enough_scalar, too_far. simpl. unfold Exact.gt, Qcle.
  rewrite <- Qle_bool_iff.
  by destruct (Qle_bool [v2 - v1] Exact.tol).
Qed.

End ExactSums.

(** ** IEEE arithmetic *)

Section IEEEFacts.

Import IEEE.

Implicit Types (g : grid float) (h w : Z) (x v acc : float).

Lemma ieee_zero : f_zero = zero.
Proof. reflexivity. Qed.

Lemma ieee_window_zero :
  window (f_zero (F:=float))
  = [ [zero; zero; zero]; [zero; one; zero]; [zero; zero; zero] ].
Proof. reflexivity. Qed.

(** The literal [0.0001] is the quotient of [1.0] by [10000.0]. *)
Lemma tol_nearest : SFdiv 53 1024 (of_int 1) (of_int 10000) = tol.
Proof. vm_compute. reflexivity. Qed.

Lemma mass_finite x : mass x = true → finite x = true.
Proof. destruct x as [| | |[] m e]; done. Qed.

(** A float divided by a zero is NaN or an infinity. *)
Lemma ieee_divide_by_zero x total :
  is_zero total = true → not_a_finite_number (f_div x total) = true.
Proof. destruct total; try done. intros _. by destruct x. Qed.

Lemma ieee_divide_by_nan x total :
  is_nan total = true → is_nan (f_div x total) = true.
Proof. destruct total; try done. intros _. by destruct x. Qed.

(** The mantissa of [1.0] is [2^23]: the product with it has 23 more digits,
    and rounding shifts them out again. *)
Lemma digits_shift23 (m : positive) :
  Zpos (digits2_pos (8388608 * m)) = Zpos (digits2_pos m) + 23.
Proof.
  change (8388608 * m)%positive with
    (m~0~0~0~0~0~0~0~0~0~0~0~0~0~0~0~0~0~0~0~0~0~0~0)%positive.
  cbn [digits2_pos]. lia.
Qed.

Lemma shr_shift23 (m : positive) :
  SpecFloat.iter_pos shr_1 23
    {| shr_m := Zpos (8388608 * m); shr_r := false; shr_s := false |}
  = {| shr_m := Zpos m; shr_r := false; shr_s := false |}.
Proof. reflexivity. Qed.

(** The product of [1.0] and a finite float is that float. *)
Lemma ieee_mul_one s m e :
  bounded 24 128 m e = true →
  SFmul 24 128 one (S754_finite s m e) = S754_finite s m e.
Proof.
  intros Hb. unfold bounded, canonical_mantissa in Hb.
  apply andb_prop in Hb as [Hc He]. apply Z.eqb_eq in Hc. apply Z.leb_le in He.
  unfold one, SFmul. cbn [xorb].
  unfold binary_round_aux, shr_fexp.
  cbn [Zdigits2]. rewrite digits_shift23.
  replace (Z.pos (digits2_pos m) + 23 + (-23 + e))
    with (Z.pos (digits2_pos m) + e) by lia.
  rewrite Hc.
  replace (e - (-23 + e)) with 23 by lia.
  cbn [shr shr_record_of_loc]. rewrite shr_shift23.
  replace (-23 + e + 23) with e by lia.
  cbn [loc_of_shr_record shr_m shr_r shr_s round_nearest_even Zdigits2].
  rewrite Hc, Z.sub_diag. cbn [shr shr_record_of_loc shr_m].
  destruct (Z.leb_spec e (128 - 24)); [done|lia].
Qed.

(** The share of a neighbour is a zero, and adding it changes nothing but
    the sign of [-0.0]. *)
Lemma ieee_add_share acc v :
  acc ≠ S754_zero true → finite v = true →
  SFadd 24 128 acc (SFmul 24 128 zero v) = acc.
Proof.
  intros Hacc Hv. destruct v as [sv| | |sv mv ev]; try done;
    destruct acc as [[]| | |]; try done; by destruct sv.
Qed.

Lemma ieee_add_center v :
  finite v = true →
  SFadd 24 128 zero (SFmul 24 128 one v) = unsigned_zero v.
Proof.
  intros Hv. destruct v as [sv| | |sv mv ev]; try done.
  - by destruct sv.
  - by rewrite ieee_mul_one.
Qed.

(** In binary32, [blur] with [blurring = 0.0] convolves a grid of finite
    cells to itself, up to the sign of its zeros. *)
Lemma ieee_convolve_zero h w g :
  shape h w g → 0 < h →
  (∀ a b x, Vec.get2 g a b = Some x → finite x = true) →
  convolve g f_zero = Some (map (map unsigned_zero) g).
Proof.
  intros Hg Hh Hfin.
  apply (convolve_zero (λ v, finite v = true) (λ acc, acc ≠ S754_zero true)
           unsigned_zero) with (h := h) (w := w); try done.
  - intros v _. by destruct v.
  - intros acc v. apply ieee_add_share.
  - intros acc v. apply ieee_add_share.
  - intros v. apply ieee_add_center.
Qed.

(** Sums of masses never are [-0.0], so that the total does not see the sign
    of the zeros. *)
Lemma round_not_negative m e :
  not_negative (binary_round 24 128 false m e) = true.
Proof.
  unfold binary_round, binary_round_aux.
  destruct (shl_align _ _ _) as [mz ez].
  destruct (shr_fexp _ _ _ _ _) as [mrs' e'].
  destruct (shr_fexp _ _ _ _ _) as [mrs'' e''].
  destruct (shr_m mrs''); try done. by destruct (_ <=? _).
Qed.

Lemma add_not_negative acc x :
  not_negative acc = true → mass x = true →
  not_negative (SFadd 24 128 acc x) = true
  ∧ SFadd 24 128 acc (unsigned_zero x) = SFadd 24 128 acc x.
Proof.
  intros Hacc Hx. destruct x as [sx| | |sx mx ex]; try done.
  - destruct acc as [[]| | |]; try done; by destruct sx.
  - split; [|done]. destruct sx; [done|].
    destruct acc as [sa|sa| |sa ma ea]; try done.
    destruct sa; [done|]. unfold SFadd. cbn [cond_Zopp].
    cbn [Z.add binary_normalize]. apply round_not_negative.
Qed.

Lemma total_unsigned_zero acc (xs : list float) :
  not_negative acc = true → Forall (λ x, mass x = true) xs →
  foldl (SFadd 24 128) acc (map unsigned_zero xs) = foldl (SFadd 24 128) acc xs.
Proof.
  intros Hacc Hxs. revert acc Hacc.
  induction Hxs as [|x xs Hx Hxs IH]; intros acc Hacc; [done|].
  cbn [map foldl].
  destruct (add_not_negative acc x Hacc Hx) as [Hnn ->]. by apply IH.
Qed.

(** The comparison of [close_enough] accepts a float next to itself, also
    an infinity or NaN, and two quotients that differ in the sign of a zero
    numerator. *)
Lemma too_far_same v : too_far v v = false.
Proof.
  unfold too_far. cbn [f_sub f_abs to_double d_gt d_tol ieee].
  destruct v as [[]|[]| |s m e]; try done.
  unfold SFsub. rewrite Z.sub_diag. done.
Qed.

(** In binary32 the scalar [close_enough] accepts [v1] and [v2] exactly when
    the difference it computes is at most the double [0.0001], or is not
    ordered with it: a NaN. *)
Lemma compare_swap (x y : spec_float) :
  SFcompare y x = CompOpp <$> SFcompare x y.
Proof.
  destruct x as [[]|[]| |[] mx ex], y as [[]|[]| |[] my ey]; try done;
    cbn [SFcompare fmap option_fmap option_map];
    rewrite (Z.compare_antisym ex ey);
    replace (Pos.compare_cont Eq my mx)
      with (CompOpp (Pos.compare_cont Eq mx my))
      by apply (Pos.compare_cont_antisym mx my Eq);
    by destruct (ex ?= ey), (Pos.compare_cont Eq mx my).
Qed.

Lemma ieee_close_enough_scalar v1 v2 :
  let d := to_double (f_abs (f_sub v2 v1)) in
  close_enough_scalar v1 v2 = true
  ↔ SFleb d tol = true ∨ SFcompare d tol = None.
Proof.
  intros d. unfold close_enough_scalar, too_far. fold d.
  cbn [d_gt d_tol ieee]. unfold gt, SFltb, SFleb.
  rewrite (compare_swap d tol).
  destruct (SFcompare d tol) as [[]|]; cbn; split;
    (done || auto || (intros [|]; done)).
Qed.

(** A finite float is never rounded to NaN. *)
Lemma shr_1_nonneg mrs : 0 ≤ shr_m mrs → 0 ≤ shr_m (shr_1 mrs).
Proof. destruct mrs as [[|[p|p|]|p] r s]; cbn; lia. Qed.

Lemma iter_shr_nonneg n mrs :
  0 ≤ shr_m mrs → 0 ≤ shr_m (SpecFloat.iter_pos shr_1 n mrs).
Proof.
  revert mrs. induction n as [n IH|n IH|]; intros mrs Hm; cbn [SpecFloat.iter_pos].
  - apply IH, IH. by apply shr_1_nonneg.
  - by apply IH, IH.
  - by apply shr_1_nonneg.
Qed.

Lemma shr_fexp_nonneg prec emax m e l :
  0 ≤ m → 0 ≤ shr_m (fst (shr_fexp prec emax m e l)).
Proof.
  intros Hm. unfold shr_fexp, shr.
  assert (0 ≤ shr_m (shr_record_of_loc m l)) by (by destruct l as [|[]]).
  destruct (_ - e) as [|n|n]; cbn [fst]; [done| |done].
  by apply iter_shr_nonneg.
Qed.

Lemma round_not_nan prec emax s m e :
  is_nan (binary_round prec emax s m e) = false.
Proof.
  unfold binary_round, binary_round_aux.
  destruct (shl_align _ _ _) as [mz ez].
  pose proof (shr_fexp_nonneg prec emax (Zpos mz) ez loc_Exact ltac:(lia)) as H1.
  destruct (shr_fexp prec emax (Zpos mz) ez loc_Exact) as [mrs' e']. cbn [fst] in H1.
  assert (0 ≤ round_nearest_even (shr_m mrs') (loc_of_shr_record mrs')) as H2.
  { unfold round_nearest_even.
    destruct (loc_of_shr_record mrs') as [|[]]; try done.
    - destruct (Z.even _); lia.
    - lia. }
  pose proof (shr_fexp_nonneg prec emax _ e' loc_Exact H2) as H3.
  destruct (shr_fexp prec emax _ e' loc_Exact) as [mrs'' e'']. cbn [fst] in H3.
  destruct (shr_m mrs''); [done| |lia]. by destruct (_ <=? _).
Qed.

(** When the difference is not NaN, the second case does not arise. *)
Lemma ieee_close_enough_numbers (v1 v2 : float) :
  is_nan (f_sub v2 v1) = false →
  close_enough_scalar v1 v2 = true
  ↔ SFleb (to_double (f_abs (f_sub v2 v1))) tol = true.
Proof.
  intros Hnan. rewrite ieee_close_enough_scalar.
  split; [|auto]. intros [Hle|Hnone]; [done|]. exfalso.
  cbn [f_sub f_abs to_double ieee] in *.
  destruct (SFsub 24 128 v2 v1) as [| | |s m e]; try done.
  cbn [SFabs widen] in Hnone.
  pose proof (round_not_nan 53 1024 false m e) as Hr.
  by destruct (binary_round 53 1024 false m e).
Qed.

Lemma too_far_unsigned_zero x total :
  too_far (f_div (unsigned_zero x) total) (f_div x total) = false.
Proof.
  destruct x as [sx| | |]; try apply too_far_same.
  destruct total as [[]|[]| |[] mt et]; by destruct sx.
Qed.

Lemma masses_cell g i j x :
  Forall (Forall (λ x, mass x = true)) g → Vec.get2 g i j = Some x →
  mass x = true.
Proof.
  intros Hg. unfold Vec.get2, Vec.get. destruct (i <? 0); [done|].
  destruct (g !! Z.to_nat i) as [row|] eqn:Hrow; [simpl|done].
  destruct (j <? 0); [done|]. intros Hx.
  rewrite Forall_lookup in Hg. specialize (Hg _ _ Hrow).
  rewrite Forall_lookup in Hg. by apply (Hg _ _ Hx).
Qed.

(** In binary32, on a grid of masses that is at least as wide as tall,
    [blur] with [blurring = 0.0] and [normalize] both have a result, and
    [close_enough] accepts the two. *)
Lemma ieee_blur_zero h w g :
  shape h w g → 0 < h ≤ w → Forall (Forall (λ x, mass x = true)) g →
  ∃ r1 r2, blur g f_zero = Some r1 ∧ normalize g = Some r2
           ∧ close_enough r1 r2 = Some true.
Proof.
  intros Hg Hhw Hmass. unfold blur.
  rewrite (ieee_convolve_zero h w g Hg) by
    (lia || (intros a b x Hx; apply mass_finite; by eapply masses_cell)).
  simpl. set (g' := map (map unsigned_zero) g).
  pose proof (shape_map unsigned_zero h w g Hg) as Hg'. fold g' in Hg'.
  set (total := foldl f_add f_zero (concat g)).
  assert (grid_total g = Some total) as Ht by (apply (grid_total_shape h w); (done || lia)).
  assert (grid_total g' = Some total) as Ht'.
  { rewrite (grid_total_shape h w g') by (done || lia). f_equal.
    unfold g', total. rewrite <- concat_map.
    apply total_unsigned_zero; [done|]. by apply Forall_concat. }
  destruct (normalize_wide h w g' total Hg' Hhw Ht') as (r1 & Hr1 & Hs1 & Hc1).
  destruct (normalize_wide h w g total Hg Hhw Ht) as (r2 & Hr2 & Hs2 & Hc2).
  exists r1, r2. split; [done|]. split; [done|].
  destruct (close_enough_cells h w r1 r2 Hs1 Hs2) as (b & Hb & Hiff); [lia|].
  rewrite Hb. f_equal. apply Hiff. intros i j v1 v2 Hv1 Hv2.
  destruct (get2_Some_range _ _ _ _ _ _ Hs1 Hv1) as [Hi Hj].
  rewrite Hc1 in Hv1 by done. rewrite Hc2 in Hv2 by done.
  unfold close_enough_scalar.
  destruct (decide (j < h)).
  - unfold g' in Hv1. rewrite get2_map in Hv1.
    destruct (Vec.get2 g i j) as [x|]; [|done]. simpl in Hv1, Hv2.
    injection Hv1 as <-. injection Hv2 as <-.
    pose proof (too_far_unsigned_zero x total) as Hclose.
    cbn [f_div ieee] in Hclose. by rewrite Hclose.
  - injection Hv1 as <-. injection Hv2 as <-. by rewrite too_far_same.
Qed.


(** ** Rounding in IEEE arithmetic *)

(** The number of binary digits of a mantissa. *)
Lemma digits_bounds (p : positive) :
  2 ^ (Zpos (digits2_pos p) - 1) ≤ Zpos p < 2 ^ Zpos (digits2_pos p).
Proof.
  induction p as [p IH|p IH|]; cbn [digits2_pos]; [| |done];
    rewrite Pos2Z.inj_succ;
    replace (Z.succ (Zpos (digits2_pos p)) - 1) with (Z.succ (Zpos (digits2_pos p) - 1)) by lia;
    rewrite !Z.pow_succ_r by lia; lia.
Qed.

Lemma digits_unique (p : positive) (k : Z) :
  2 ^ (k - 1) ≤ Zpos p < 2 ^ k → Zpos (digits2_pos p) = k.
Proof.
  intros [Hlo Hhi]. pose proof (digits_bounds p) as [Hlo' Hhi'].
  assert (0 < k).
  { destruct (Z.lt_trichotomy k 0) as [Hk|[->|Hk]]; [|simpl in Hhi; lia|done].
    rewrite Z.pow_neg_r in Hhi by done. lia. }
  destruct (Z.lt_trichotomy (Zpos (digits2_pos p)) k) as [Hlt|[->|Hgt]]; [|done|].
  - assert (2 ^ Zpos (digits2_pos p) ≤ 2 ^ (k - 1)) by (apply Z.pow_le_mono_r; lia).
    lia.
  - assert (2 ^ k ≤ 2 ^ (Zpos (digits2_pos p) - 1)) by (apply Z.pow_le_mono_r; lia).
    lia.
Qed.

(** Shifting a record to the right divides its mantissa. *)
Lemma shr_1_div mrs : 0 ≤ shr_m mrs → shr_m (shr_1 mrs) = shr_m mrs / 2.
Proof.
  destruct mrs as [[|[p|p|]|p] r s]; cbn [shr_m shr_1]; intros Hm; try done.
  - rewrite Pos2Z.inj_xI. apply (Z.div_unique _ _ _ 1); lia.
  - rewrite Pos2Z.inj_xO. apply (Z.div_unique _ _ _ 0); lia.
Qed.

Lemma iter_shr_div n mrs :
  0 ≤ shr_m mrs →
  0 ≤ shr_m (SpecFloat.iter_pos shr_1 n mrs)
  ∧ shr_m (SpecFloat.iter_pos shr_1 n mrs) = shr_m mrs / 2 ^ Zpos n.
Proof.
  revert mrs. induction n as [n IH|n IH|]; intros mrs Hm; cbn [SpecFloat.iter_pos].
  - pose proof (shr_1_nonneg mrs Hm) as H1.
    destruct (IH _ H1) as [H2 E2]. destruct (IH _ H2) as [H3 E3].
    split; [done|]. rewrite E3, E2, shr_1_div by done.
    pose proof (Z.pow_pos_nonneg 2 (Zpos n) ltac:(lia) ltac:(lia)).
    rewrite !Z.div_div by lia. f_equal.
    replace (Zpos n~1) with (Zpos n + Zpos n + 1) by lia.
    generalize (Zpos n) (Pos2Z.is_pos n). intros a Ha.
    rewrite (Z.pow_add_r 2 (a + a) 1), (Z.pow_add_r 2 a a) by lia.
    change (2 ^ 1) with 2. ring.
  - destruct (IH _ Hm) as [H2 E2]. destruct (IH _ H2) as [H3 E3].
    pose proof (Z.pow_pos_nonneg 2 (Zpos n) ltac:(lia) ltac:(lia)).
    split; [done|]. rewrite E3, E2. rewrite Z.div_div by lia. f_equal.
    replace (Zpos n~0) with (Zpos n + Zpos n) by lia.
    generalize (Zpos n) (Pos2Z.is_pos n). intros a Ha.
    by rewrite (Z.pow_add_r 2 a a) by lia.
  - split; [by apply shr_1_nonneg|]. rewrite shr_1_div by done. done.
Qed.

Lemma shr_fexp_shift prec emax (p : positive) e l n :
  fexp prec emax (Zpos (digits2_pos p) + e) - e = n → 0 ≤ n →
  ∃ mrs, shr_fexp prec emax (Zpos p) e l = (mrs, e + n)
         ∧ shr_m mrs = Zpos p / 2 ^ n
         ∧ (n = 0 → mrs = shr_record_of_loc (Zpos p) l).
Proof.
  intros Hn Hpos. unfold shr_fexp. cbn [Zdigits2]. rewrite Hn.
  assert (shr_m (shr_record_of_loc (Zpos p) l) = Zpos p) as Hm
    by (by destruct l as [|[]]).
  destruct n as [|k|k]; [| |lia]; cbn [shr].
  - eexists. rewrite Z.add_0_r. split; [done|]. split; [|done].
    by rewrite Hm, Z.div_1_r.
  - eexists. split; [done|]. split; [|done].
    destruct (iter_shr_div k (shr_record_of_loc (Zpos p) l)) as [_ ->];
      rewrite Hm; (done || lia).
Qed.

Lemma round_cases m l :
  round_nearest_even m l = m ∨ round_nearest_even m l = m + 1.
Proof.
  unfold round_nearest_even. destruct l as [|[]]; auto.
  destruct (Z.even m); auto.
Qed.

(** Rounding a mantissa of at least [prec] digits in the normal range:
    the result is a finite float, of [prec] digits, next to the mantissa cut
    to [prec] digits. *)
Lemma round_normal prec emax s (p : positive) e l :
  0 < prec → prec ≤ Zpos (digits2_pos p) →
  emin prec emax ≤ Zpos (digits2_pos p) + e - prec →
  Zpos (digits2_pos p) + e + 1 ≤ emax →
  ∃ m' e',
    binary_round_aux prec emax s (Zpos p) e l = S754_finite s m' e'
    ∧ e + (Zpos (digits2_pos p) - prec) ≤ e' ≤ e + (Zpos (digits2_pos p) - prec) + 1
    ∧ 2 ^ (prec - 1) ≤ Zpos m' < 2 ^ prec
    ∧ Zpos p - 2 ^ (Zpos (digits2_pos p) - prec) < Zpos m' * 2 ^ (e' - e)
      ≤ Zpos p + 2 ^ (Zpos (digits2_pos p) - prec).
Proof.
  set (D := Zpos (digits2_pos p)). intros Hprec HD Hmin Hmax.
  set (n := D - prec).
  assert (0 ≤ n) as Hn by (unfold n; lia).
  pose proof (digits_bounds p) as [Hlo Hhi]. fold D in Hlo, Hhi.
  assert (0 < 2 ^ n) as Hpn by (apply Z.pow_pos_nonneg; lia).
  assert (2 ^ D = 2 ^ prec * 2 ^ n) as HpD.
  { rewrite <- Z.pow_add_r by lia. f_equal. unfold n. lia. }
  assert (2 ^ (D - 1) = 2 ^ (prec - 1) * 2 ^ n) as HpD1.
  { rewrite <- Z.pow_add_r by lia. f_equal. unfold n. lia. }
  assert (2 ^ prec = 2 * 2 ^ (prec - 1)) as Hpp.
  { rewrite <- Z.pow_succ_r by lia. f_equal. lia. }
  set (m1 := Zpos p / 2 ^ n).
  pose proof (Z.div_mod (Zpos p) (2 ^ n) ltac:(lia)) as Hdm.
  pose proof (Z.mod_pos_bound (Zpos p) (2 ^ n) Hpn) as Hmod.
  fold m1 in Hdm.
  assert (2 ^ (prec - 1) ≤ m1 < 2 ^ prec) as Hm1 by nia.
  (* first shift *)
  destruct (shr_fexp_shift prec emax p e l n) as (mrs' & Hs1 & Hm' & _).
  { fold D. unfold fexp. unfold n. lia. }
  { done. }
  unfold binary_round_aux. rewrite Hs1. fold m1 in Hm'. rewrite Hm'.
  (* rounding *)
  set (m2 := round_nearest_even m1 (loc_of_shr_record mrs')).
  assert (m2 = m1 ∨ m2 = m1 + 1) as Hm2 by apply round_cases.
  assert (0 < m2) as Hm2pos by lia.
  destruct m2 as [|p2|p2] eqn:Ep2; [lia| |lia].
  destruct (decide (Zpos p2 < 2 ^ prec)) as [Hsmall|Hbig].
  - (* no carry *)
    assert (Zpos (digits2_pos p2) = prec) as Hd2 by (apply digits_unique; lia).
    destruct (shr_fexp_shift prec emax p2 (e + n) loc_Exact 0) as (mrs'' & Hs2 & Hm'' & _).
    { rewrite Hd2. unfold fexp, n. lia. }
    { done. }
    rewrite Hs2, Hm'', Z.div_1_r, Z.add_0_r.
    destruct (Z.leb_spec (e + n) (emax - prec)); [|unfold n in *; lia].
    exists p2, (e + n). split; [done|]. split; [unfold n; lia|]. split; [lia|].
    replace (e + n - e) with n by lia. fold n. nia.
  - (* the mantissa has grown by a digit *)
    assert (Zpos p2 = 2 ^ prec) as Hp2 by lia.
    assert (Zpos (digits2_pos p2) = prec + 1) as Hd2.
    { apply digits_unique. replace (prec + 1 - 1) with prec by lia.
      rewrite Hp2, Z.pow_add_r by lia. change (2 ^ 1) with 2. lia. }
    destruct (shr_fexp_shift prec emax p2 (e + n) loc_Exact 1) as (mrs'' & Hs2 & Hm'' & _).
    { rewrite Hd2. unfold fexp, n. lia. }
    { done. }
    rewrite Hs2, Hm''. change (2 ^ 1) with 2.
    assert (Zpos p2 / 2 = 2 ^ (prec - 1)) as Hhalf.
    { rewrite Hp2, Hpp. rewrite Z.mul_comm. apply Z.div_mul. lia. }
    rewrite Hhalf.
    assert (0 < 2 ^ (prec - 1)) as Hp1 by (apply Z.pow_pos_nonneg; lia).
    destruct (2 ^ (prec - 1)) as [|p3|p3] eqn:Ep3; [lia| |lia].
    destruct (Z.leb_spec (e + n + 1) (emax - prec)); [|unfold n in *; lia].
    exists p3, (e + n + 1). split; [done|]. split; [unfold n; lia|]. split; [lia|].
    replace (e + n + 1 - e) with (n + 1) by lia. fold n.
    rewrite (Z.pow_add_r 2 n 1) by lia. change (2 ^ 1) with 2. nia.
Qed.

(** A mantissa in canonical position is not changed by rounding. *)
Lemma round_exact prec emax s (p : positive) e :
  bounded prec emax p e = true →
  binary_round_aux prec emax s (Zpos p) e loc_Exact = S754_finite s p e.
Proof.
  intros Hb. unfold bounded, canonical_mantissa in Hb.
  apply andb_prop in Hb as [Hc He]. apply Z.eqb_eq in Hc. apply Z.leb_le in He.
  unfold binary_round_aux, shr_fexp. cbn [Zdigits2].
  rewrite Hc, Z.sub_diag.
  cbn [shr shr_record_of_loc loc_of_shr_record shr_m round_nearest_even Zdigits2].
  rewrite Hc, Z.sub_diag. cbn [shr shr_m].
  destruct (Z.leb_spec e (emax - prec)); [done|lia].
Qed.

Lemma iter_xO (p k : positive) : Zpos (Pos.iter xO p k) = Zpos p * 2 ^ Zpos k.
Proof.
  induction k as [|k IH] using Pos.peano_ind.
  - cbn [Pos.iter]. lia.
  - rewrite Pos.iter_succ, Pos2Z.inj_xO, IH, Pos2Z.inj_succ.
    rewrite Z.pow_succ_r by lia. ring.
Qed.

Lemma shl_align_low (p : positive) e e' :
  e' ≤ e →
  ∃ p', shl_align p e e' = (p', e') ∧ Zpos p' = Zpos p * 2 ^ (e - e').
Proof.
  intros Hle. unfold shl_align.
  destruct (e' - e) as [|k|k] eqn:Ek; [| lia |].
  - assert (e' = e) as -> by lia. exists p. split; [done|].
    rewrite Z.sub_diag. cbn. lia.
  - exists (Pos.iter xO p k). split; [done|].
    rewrite iter_xO. f_equal. f_equal. lia.
Qed.

Lemma shl_align_high (p : positive) e e' : e ≤ e' → shl_align p e e' = (p, e).
Proof. intros Hle. unfold shl_align. by destruct (e' - e) eqn:Ek; [| |lia]. Qed.

(** The conversion of a positive [int] of at most 53 binary digits to a
    double is exact. *)
Lemma of_int_exact (N : positive) :
  Zpos (digits2_pos N) ≤ 53 →
  ∃ m, of_int (Zpos N) = S754_finite false m (Zpos (digits2_pos N) - 53)
       ∧ Zpos m = Zpos N * 2 ^ (53 - Zpos (digits2_pos N))
       ∧ Zpos (digits2_pos m) = 53.
Proof.
  set (d := Zpos (digits2_pos N)). intros Hd.
  pose proof (digits_bounds N) as [Hlo Hhi]. fold d in Hlo, Hhi.
  unfold of_int, binary_normalize, binary_round. fold d.
  assert (fexp 53 1024 (d + 0) = d - 53) as -> by (unfold fexp, emin; lia).
  destruct (shl_align_low N 0 (d - 53)) as (m & -> & Hm); [lia|].
  replace (0 - (d - 53)) with (53 - d) in Hm by lia.
  assert (Zpos (digits2_pos m) = 53) as Hdm.
  { apply digits_unique. rewrite Hm.
    assert (2 ^ 53 = 2 ^ d * 2 ^ (53 - d)) as ->.
    { rewrite <- Z.pow_add_r by lia. f_equal. lia. }
    assert (2 ^ (53 - 1) = 2 ^ (d - 1) * 2 ^ (53 - d)) as ->.
    { rewrite <- Z.pow_add_r by lia. f_equal. lia. }
    assert (0 < 2 ^ (53 - d)) by (apply Z.pow_pos_nonneg; lia). nia. }
  exists m. split; [|done]. apply round_exact.
  unfold bounded, canonical_mantissa. rewrite Hdm.
  apply andb_true_intro. split; [apply Z.eqb_eq|apply Z.leb_le];
    unfold fexp, emin; lia.
Qed.

(** The double quotient of [1.0] by a double of mantissa [mN]: a mantissa
    within two units of [2^105 / mN]. *)
Lemma inverse_double (mN : positive) eN :
  Zpos (digits2_pos mN) = 53 → -53 < eN ≤ 0 →
  ∃ m1 e1,
    SFdiv 53 1024 (of_int 1) (S754_finite false mN eN) = S754_finite false m1 e1
    ∧ -105 - eN ≤ e1 ≤ -105 - eN + 2
    ∧ Zpos (digits2_pos m1) = 53
    ∧ 2 ^ 105 / Zpos mN - 2 < Zpos m1 * 2 ^ (e1 - (-105 - eN))
      ≤ 2 ^ 105 / Zpos mN + 2.
Proof.
  intros HdN HeN.
  pose proof (digits_bounds mN) as [Hlo Hhi]. rewrite HdN in Hlo, Hhi.
  change (of_int 1) with (S754_finite false 4503599627370496 (-52)).
  unfold SFdiv, SFdiv_core_binary. cbn [xorb Zdigits2].
  change (Zpos (digits2_pos 4503599627370496)) with 53. rewrite HdN.
  replace (53 + -52 - (53 + eN)) with (-52 - eN) by lia.
  assert (fexp 53 1024 (-52 - eN) = -105 - eN) as -> by (unfold fexp, emin; lia).
  replace (Z.min (-105 - eN) (-52 - eN)) with (-105 - eN) by lia.
  replace (-52 - eN - (-105 - eN)) with 53 by lia.
  change (Z.shiftl 4503599627370496 53) with (2 ^ 105).
  pose proof (Z_div_mod (2 ^ 105) (Zpos mN) ltac:(lia)) as Hqr.
  unfold Z.div. destruct (Z.div_eucl (2 ^ 105) (Zpos mN)) as [q r].
  destruct Hqr as [Hq Hr].
  assert (2 ^ 52 ≤ q ≤ 2 ^ 53) as Hqb.
  { change (2 ^ (53 - 1)) with (2 ^ 52) in Hlo.
    change (2 ^ 105) with (2 ^ 52 * 2 ^ 53) in Hq. nia. }
  destruct q as [|pq|pq]; [lia| |lia].
  assert (Zpos (digits2_pos pq) = 53 ∨ Zpos (digits2_pos pq) = 54) as Hdq.
  { destruct (decide (Zpos pq < 2 ^ 53)).
    - left. apply digits_unique. change (2 ^ (53 - 1)) with (2 ^ 52). lia.
    - right. apply digits_unique. change (2 ^ (54 - 1)) with (2 ^ 53).
      change (2 ^ 54) with (2 * 2 ^ 53). lia. }
  destruct (round_normal 53 1024 false pq (-105 - eN) (new_location (Zpos mN) r))
    as (m1 & e1 & -> & He1 & Hm1 & Hbr); [lia|lia|unfold emin; lia|lia|].
  exists m1, e1. split; [done|]. split; [lia|].
  split; [apply digits_unique; change (2 ^ (53 - 1)) with (2 ^ 52); lia|].
  assert (2 ^ (Zpos (digits2_pos pq) - 53) ≤ 2) as Hp.
  { destruct Hdq as [-> | ->]; cbn; lia. }
  lia.
Qed.

(** The conversion to [float] of a double in the normal range of binary32:
    a mantissa of 24 digits, within [2^29] of the 53 digits of the double. *)
Lemma narrow_double (m1 : positive) e1 :
  Zpos (digits2_pos m1) = 53 → -178 ≤ e1 ≤ 74 →
  ∃ m3 e3,
    narrow (S754_finite false m1 e1) = S754_finite false m3 e3
    ∧ bounded 24 128 m3 e3 = true
    ∧ e1 + 29 ≤ e3 ≤ e1 + 30
    ∧ Zpos m1 - 2 ^ 29 < Zpos m3 * 2 ^ (e3 - e1) ≤ Zpos m1 + 2 ^ 29.
Proof.
  intros Hd He. unfold narrow, binary_round. rewrite Hd.
  assert (fexp 24 128 (53 + e1) = 29 + e1) as -> by (unfold fexp, emin; lia).
  rewrite shl_align_high by lia.
  destruct (round_normal 24 128 false m1 e1 loc_Exact)
    as (m3 & e3 & -> & He3 & Hm3 & Hbr); [lia|lia|unfold emin; lia|lia|].
  rewrite Hd in He3, Hbr. change (53 - 24) with 29 in *.
  exists m3, e3. split; [done|]. split; [|split; [lia|done]].
  unfold bounded, canonical_mantissa.
  assert (Zpos (digits2_pos m3) = 24) as ->
    by (apply digits_unique; change (2 ^ (24 - 1)) with (2 ^ 23); lia).
  apply andb_true_intro. split; [apply Z.eqb_eq|apply Z.leb_le];
    unfold fexp, emin; lia.
Qed.

(** The cell of [initialize_beliefs] for an area [N]: a float [m * 2^e] with
    [N * m * 2^e] within [2^-20] of one. *)
Lemma inverse_area (N : positive) :
  Zpos N < 2 ^ 53 →
  ∃ m e,
    to_float (d_div (d_of_int 1) (d_of_int (Zpos N))) = S754_finite false m e
    ∧ bounded 24 128 m e = true
    ∧ -105 ≤ e
    ∧ 2 ^ 105 - 2 ^ 85 < Zpos N * Zpos m * 2 ^ (e + 105) < 2 ^ 105 + 2 ^ 85.
Proof.
  intros HN. cbn [to_float d_div d_of_int ieee].
  set (d := Zpos (digits2_pos N)).
  assert (1 ≤ d ≤ 53) as Hd.
  { pose proof (digits_bounds N) as [Hlo Hhi]. fold d in Hlo, Hhi.
    split; [unfold d; lia|].
    destruct (Z.le_gt_cases d 53) as [|Hgt]; [done|].
    assert (2 ^ 53 ≤ 2 ^ (d - 1)) by (apply Z.pow_le_mono_r; lia). lia. }
  destruct (of_int_exact N) as (mN & -> & HmN & HdN); [fold d; lia|]. fold d in HmN |- *.
  destruct (inverse_double mN (d - 53) HdN) as (m1 & e1 & -> & He1 & Hd1 & Hb1); [lia|].
  destruct (narrow_double m1 e1 Hd1) as (m3 & e3 & -> & Hbd & He3 & Hb3); [lia|].
  exists m3, e3. split; [done|]. split; [done|]. split; [lia|].
  pose proof (digits_bounds mN) as [_ HmN53]. rewrite HdN in HmN53.
  pose proof (Z.div_mod (2 ^ 105) (Zpos mN) ltac:(lia)) as Hdiv.
  pose proof (Z.mod_pos_bound (2 ^ 105) (Zpos mN) ltac:(lia)) as Hmod.
  set (q := 2 ^ 105 / Zpos mN) in *.
  replace (-105 - (d - 53)) with (-52 - d) in * by lia.
  set (a := e1 - (-52 - d)) in *. set (c := e3 - e1) in *.
  assert (e3 + 105 = c + a + (53 - d)) as -> by (unfold a, c; lia).
  rewrite !Z.pow_add_r by (unfold a, c; lia).
  assert (Zpos N * Zpos m3 * (2 ^ c * 2 ^ a * 2 ^ (53 - d))
          = Zpos mN * ((Zpos m3 * 2 ^ c) * 2 ^ a)) as -> by (rewrite HmN; ring).
  assert (1 ≤ 2 ^ a ≤ 4) as Ha.
  { assert (a = 0 ∨ a = 1 ∨ a = 2) as [-> | [-> | ->]] by (unfold a; lia); cbn; lia. }
  set (B := Zpos m3 * 2 ^ c) in *. set (A := 2 ^ a) in *.
  assert (q - 2 - 2 ^ 31 < B * A ≤ q + 2 + 2 ^ 31) as HX.
  { change (2 ^ 31) with (2 ^ 29 * 4). nia. }
  change (2 ^ 105) with (2 ^ 53 * 2 ^ 52) in *.
  change (2 ^ 85) with (2 ^ 53 * 2 ^ 32).
  change (2 ^ 31) with 2147483648 in HX. change (2 ^ 32) with 4294967296.
  nia.
Qed.

Lemma value_scaled (m : positive) e k :
  0 ≤ e + k → 0 ≤ k →
  (value (S754_finite false m e) == inject_Z (Zpos m * 2 ^ (e + k)) / inject_Z (2 ^ k))%Q.
Proof.
  intros Hek Hk. cbn [value cond_Zopp].
  rewrite inject_Z_mult, !Zpower_Qpower by done.
  rewrite Qpower_plus by done.
  change (inject_Z 2) with 2%Q. field.
  apply Qpower_not_0. done.
Qed.

Lemma near_one (x : Z) :
  2 ^ 105 - 2 ^ 85 < x < 2 ^ 105 + 2 ^ 85 →
  (Qabs (inject_Z x / inject_Z (2 ^ 105) - 1) < 1 # 1048576)%Q.
Proof.
  intros [Hlo Hhi]. apply Qabs_Qlt_condition.
  assert (inject_Z x / inject_Z (2 ^ 105) - 1
          == (inject_Z x - inject_Z (2 ^ 105)) / inject_Z (2 ^ 105))%Q as ->
    by (field; done).
  assert (0 < inject_Z (2 ^ 105))%Q as Hpos by done.
  split.
  - apply Qlt_shift_div_l; [done|].
    apply (Qplus_lt_l _ _ (inject_Z (2 ^ 105))).
    assert (inject_Z x - inject_Z (2 ^ 105) + inject_Z (2 ^ 105) == inject_Z x)%Q
      as -> by ring.
    assert (- (1 # 1048576) * inject_Z (2 ^ 105) + inject_Z (2 ^ 105)
            == inject_Z (2 ^ 105 - 2 ^ 85))%Q as -> by done.
    rewrite <- Zlt_Qlt. done.
  - apply Qlt_shift_div_r; [done|].
    apply (Qplus_lt_l _ _ (inject_Z (2 ^ 105))).
    assert (inject_Z x - inject_Z (2 ^ 105) + inject_Z (2 ^ 105) == inject_Z x)%Q
      as -> by ring.
    assert ((1 # 1048576) * inject_Z (2 ^ 105) + inject_Z (2 ^ 105)
            == inject_Z (2 ^ 105 + 2 ^ 85))%Q as -> by done.
    rewrite <- Zlt_Qlt. done.
Qed.

(** The cells of [initialize_beliefs] add up to one within [2^-20]: the sum
    of [N] cells is [N] times the value of one. *)
Lemma inverse_area_value (N : Z) :
  0 < N < 2 ^ 53 →
  ∃ c, to_float (d_div (d_of_int 1) (d_of_int N)) = c
       ∧ mass c = true
       ∧ (Qabs (inject_Z N * value c - 1) < 1 # 1048576)%Q.
Proof.
  intros [Hpos HN]. destruct N as [|N|N]; [lia| |lia].
  destruct (inverse_area N HN) as (m & e & Hc & Hbd & He & Hb).
  exists (S754_finite false m e). split; [done|]. split; [done|].
  rewrite (value_scaled m e 105) by lia.
  assert (inject_Z (Zpos N) * (inject_Z (Zpos m * 2 ^ (e + 105)) / inject_Z (2 ^ 105))
          == inject_Z (Zpos N * Zpos m * 2 ^ (e + 105)) / inject_Z (2 ^ 105))%Q
    as ->.
  { rewrite !inject_Z_mult. field. done. }
  by apply near_one.
Qed.

End IEEEFacts.

(** ** The shares of [blur], and uniform grids *)

Section ShareFacts.

Context {F : Type} `{Arith F}.
Implicit Types (g ng : grid F) (h w i j : Z).

(** The two inner loops of [blur] visit the nine offsets one after the
    other. *)
Lemma window_loops {S} (body : Z → Z → S → option S) (s : S) :
  for_range (-1) 2 (λ dx s, for_range (-1) 2 (λ dy s, body dx dy s) s) s
  = each_offset body offsets s.
Proof.
  unfold for_range. change (Z.to_nat (2 - -1)) with 3%nat.
  cbn [loop_from each_offset offsets].
  change (-1 + 1) with 0. change (0 + 1) with 1.
  repeat (match goal with
          | |- context [body ?dx ?dy ?t] =>
              is_var t; destruct (body dx dy t); cbn [mbind option_bind]
          end; try done).
Qed.


(** One share: the cell at the wrapped index receives the product of the
    weight and the value, the other cells stay. *)
Lemma spill_cell (W : grid F) h w i j v dx dy k ng :
  shape h w ng → 0 < h → 0 < w →
  Vec.get2 W (dx + 1) (dy + 1) = Some k →
  ∃ ng', spill W h w i j v dx dy ng = Some ng' ∧ shape h w ng' ∧
    ∀ a b old, Vec.get2 ng a b = Some old →
      Vec.get2 ng' a b =
        Some (if decide (((i + dy) mod h, (j + dx) mod w) = (a, b))
              then f_add old (f_mul k v) else old).
Proof.
  intros Hng Hh Hw Hk. unfold spill. rewrite Hk. simpl.
  rewrite !wrap_index_mod by done. simpl.
  pose proof (Z.mod_pos_bound (i + dy) h Hh).
  pose proof (Z.mod_pos_bound (j + dx) w Hw).
  destruct (get2_in_range h w ng ((i + dy) mod h) ((j + dx) mod w))
    as [old Hold]; [done..|].
  rewrite Hold. simpl.
  destruct (set2_in_range h w ng ((i + dy) mod h) ((j + dx) mod w)
              (f_add old (f_mul k v))) as [ng' Hng']; [done..|].
  exists ng'. split; [done|]. split; [by eapply set2_shape|].
  intros a b old' Hold'. destruct (decide _) as [[= <- <-]|Hne].
  - rewrite (get2_set2_eq _ _ _ _ _ Hng'). congruence.
  - by rewrite (get2_set2_ne _ _ _ _ _ _ _ Hng' Hne).
Qed.

(** The shares of one source cell, for the offsets [offs]. *)
Lemma spill_offsets (W : grid F) (weight : Z → Z → F) h w i j v offs ng :
  shape h w ng → 0 < h → 0 < w →
  Forall (λ '(dx, dy), Vec.get2 W (dx + 1) (dy + 1) = Some (weight dx dy)) offs →
  ∃ ng', each_offset (spill W h w i j v) offs ng = Some ng' ∧ shape h w ng' ∧
    ∀ a b old, Vec.get2 ng a b = Some old →
      Vec.get2 ng' a b =
        Some (foldl (λ acc '(dx, dy),
                if decide (((i + dy) mod h, (j + dx) mod w) = (a, b))
                then f_add acc (f_mul (weight dx dy) v) else acc) old offs).
Proof.
  intros Hng Hh Hw Hoffs. revert ng Hng.
  induction Hoffs as [|[dx dy] offs Hk Hoffs IH]; intros ng Hng.
  - exists ng. split; [done|]. split; [done|]. intros a b old Hold. done.
  - destruct (spill_cell W h w i j v dx dy _ ng Hng Hh Hw Hk)
      as (ng1 & Hrun1 & Hsh1 & Hcells1).
    destruct (IH ng1 Hsh1) as (ng' & Hrun & Hsh & Hcells).
    exists ng'. cbn [each_offset]. rewrite Hrun1. simpl.
    split; [done|]. split; [done|].
    intros a b old Hold. cbn [foldl]. apply Hcells. by apply Hcells1.
Qed.

End ShareFacts.

Lemma mod_shift_iff a i d n :
  0 ≤ a < n → 0 ≤ i < n → ((i + d) mod n = a ↔ (a - d) mod n = i).
Proof.
  intros Ha Hi. split; intros <-.
  - rewrite Zminus_mod_idemp_l. replace (i + d - d) with i by lia.
    by apply Z.mod_small.
  - rewrite Zplus_mod_idemp_l. replace (a - d + d) with a by lia.
    by apply Z.mod_small.
Qed.

Section UniformFacts.

Open Scope Qc_scope.

Variables (n : Z) (u b : Qc).
Hypothesis n_positive : (0 < n)%Z.

(** The weight of the window at an offset. *)
Let weight (dx dy : Z) : Qc :=
  if (dx =? 0)%Z && (dy =? 0)%Z then 1 - b
  else if (dx =? 0)%Z || (dy =? 0)%Z then b / Exact.of_int 6
  else b / Exact.of_int 12.

(** The source cells that the outer loops of [blur] have left behind when
    they reach cell [(i, j)]. *)
Let passed (i j p q : Z) : Prop := (p < i ∨ (p = i ∧ q < j))%Z.

(** The weights that cell [(a, b)] has received by then. *)
Let received (i j a c : Z) : Qc :=
  foldr Qcplus 0
    (map (λ '(dx, dy),
       if decide (passed i j ((a - dy) mod n) ((c - dx) mod n))
       then weight dx dy else 0) offsets).

Lemma window_weights :
  Forall (λ '(dx, dy), Vec.get2 (window b) (dx + 1) (dy + 1) = Some (weight dx dy))
    offsets.
Proof. repeat constructor. Qed.

Lemma sum_split {A} (f g k : A → Qc) (l : list A) :
  Forall (λ x, f x = g x + k x) l →
  foldr Qcplus 0 (map f l) = foldr Qcplus 0 (map g l) + foldr Qcplus 0 (map k l).
Proof.
  induction 1 as [|x l Hx _ IH]; cbn [map foldr]; [ring|].
  rewrite Hx, IH. ring.
Qed.

Lemma sum_ext {A} (f g : A → Qc) (l : list A) :
  Forall (λ x, f x = g x) l →
  foldr Qcplus 0 (map f l) = foldr Qcplus 0 (map g l).
Proof.
  induction 1 as [|x l Hx _ IH]; cbn [map foldr]; [done|]. by rewrite Hx, IH.
Qed.

Lemma shares_sum (hit : Z → Z → Prop) `{∀ dx dy, Decision (hit dx dy)}
    (old : Qc) (offs : list (Z * Z)) :
  foldl (λ acc '(dx, dy),
     if decide (hit dx dy) then acc + weight dx dy * u else acc) old offs
  = old + u * foldr Qcplus 0
      (map (λ '(dx, dy), if decide (hit dx dy) then weight dx dy else 0) offs).
Proof.
  revert old. induction offs as [|[dx dy] offs IH]; intros old;
    cbn [foldl map foldr]; [ring|].
  rewrite IH. destruct (decide (hit dx dy)); ring.
Qed.

Lemma received_step i j a c :
  (0 ≤ i < n)%Z → (0 ≤ j < n)%Z → (0 ≤ a < n)%Z → (0 ≤ c < n)%Z →
  received i (j + 1) a c
  = received i j a c
    + foldr Qcplus 0
        (map (λ '(dx, dy),
           if decide (((i + dy) mod n, (j + dx) mod n) = (a, c))
           then weight dx dy else 0) offsets).
Proof.
  intros Hi Hj Ha Hc. unfold received. apply sum_split.
  apply Forall_forall. intros [dx dy] _.
  pose proof (Z.mod_pos_bound (a - dy) n n_positive) as Hp.
  pose proof (Z.mod_pos_bound (c - dx) n n_positive) as Hq.
  pose proof (mod_shift_iff a i dy n Ha Hi) as Hrow.
  pose proof (mod_shift_iff c j dx n Hc Hj) as Hcol.
  unfold passed.
  destruct (decide (((i + dy) mod n, (j + dx) mod n) = (a, c))) as [[= Ea Ec]|Hne].
  - apply Hrow in Ea. apply Hcol in Ec.
    rewrite decide_True, decide_False by lia. ring.
  - assert (¬ ((a - dy) mod n = i ∧ (c - dx) mod n = j)) as Hne'.
    { intros [Ep Eq]. apply Hne. f_equal; [by apply Hrow|by apply Hcol]. }
    destruct (decide _), (decide _); (ring || lia).
Qed.

Lemma received_none a c : (0 ≤ a < n)%Z → (0 ≤ c < n)%Z → received 0 0 a c = 0.
Proof.
  intros Ha Hc. unfold received.
  rewrite (sum_ext _ (λ _, 0)).
  - cbn [offsets map foldr]. ring.
  - apply Forall_forall. intros [dx dy] _.
    pose proof (Z.mod_pos_bound (a - dy) n n_positive).
    pose proof (Z.mod_pos_bound (c - dx) n n_positive).
    unfold passed. rewrite decide_False by lia. done.
Qed.

Lemma received_row i a c :
  (0 ≤ a < n)%Z → (0 ≤ c < n)%Z → received (i + 1) 0 a c = received i n a c.
Proof.
  intros Ha Hc. unfold received. apply sum_ext.
  apply Forall_forall. intros [dx dy] _.
  pose proof (Z.mod_pos_bound (a - dy) n n_positive).
  pose proof (Z.mod_pos_bound (c - dx) n n_positive).
  unfold passed. destruct (decide _), (decide _); (done || lia).
Qed.

Lemma received_all a c : (0 ≤ a < n)%Z → (0 ≤ c < n)%Z → received n 0 a c = 1.
Proof.
  intros Ha Hc. unfold received.
  rewrite (sum_ext _ (λ '(dx, dy), weight dx dy)).
  - cbn [offsets map foldr]. unfold weight. cbn.
    assert (Exact.of_int 12 = (1 + 1) * (1 + 1) * (1 + 1 + 1)) as ->.
    { apply Qc_is_canon. reflexivity. }
    assert (Exact.of_int 6 = (1 + 1) * (1 + 1 + 1)) as ->.
    { apply Qc_is_canon. reflexivity. }
    field. split; intros E; discriminate E.
  - apply Forall_forall. intros [dx dy] _.
    pose proof (Z.mod_pos_bound (a - dy) n n_positive).
    pose proof (Z.mod_pos_bound (c - dx) n n_positive).
    unfold passed. rewrite decide_True by lia. done.
Qed.

(** On a square grid whose cells all hold [u], the loop nest of [blur] gives
    every cell the sum of the nine weights times [u]: the grid itself. *)
Lemma convolve_uniform : convolve (filled n n u) b = Some (filled n n u).
Proof.
  assert (shape n n (filled n n u)) as Hg by (apply shape_filled; lia).
  unfold convolve.
  destruct (get_in_range (filled n n u) 0) as [row0 Hrow0]; [destruct Hg; lia|].
  rewrite Hrow0. cbn [mbind option_bind].
  rewrite (shape_row _ _ _ _ _ Hg Hrow0).
  assert (Vec.size (filled n n u) = n) as -> by (by destruct Hg).
  pose (Q := λ (i j : Z) (ng : list (list Qc)),
    shape n n ng ∧ ∀ a c, (0 ≤ a < n)%Z → (0 ≤ c < n)%Z →
      Vec.get2 ng a c = Some (u * received i j a c)).
  destruct (for_range_invariant (λ i ng, Q i 0%Z ng) 0 n
    (λ i ng, for_range 0 n (λ j ng,
       grid_value ← Vec.get2 (filled n n u) i j;
       for_range (-1) 2 (λ dx ng,
         for_range (-1) 2 (λ dy ng,
           spill (window b) n n i j grid_value dx dy ng) ng) ng) ng)
    (filled n n f_zero))
    as (r & Hrun & Hsh & Hcells); [lia| | |].
  - split; [apply shape_filled; lia|]. intros a c Ha Hc.
    unfold filled. rewrite get2_filled, (received_none a c) by done.
    f_equal. change (f_zero (F:=Qc)) with 0. ring.
  - intros i ng Hi HQ.
    destruct (for_range_invariant (λ j ng, Q i j ng) 0 n
      (λ j ng, grid_value ← Vec.get2 (filled n n u) i j;
         for_range (-1) 2 (λ dx ng,
           for_range (-1) 2 (λ dy ng,
             spill (window b) n n i j grid_value dx dy ng) ng) ng) ng)
      as (ng' & Hrun & Hsh & Hcells); [lia|done| |].
    + intros j t Hj [Hsh Hcells].
      unfold filled at 1. rewrite get2_filled by done. cbn [mbind option_bind].
      rewrite (window_loops (λ dx dy ng, spill (window b) n n i j u dx dy ng)).
      destruct (spill_offsets (window b) weight n n i j u offsets t Hsh
                  n_positive n_positive window_weights)
        as (t' & Ht' & Hsh' & Hcells').
      exists t'. split; [done|]. split; [done|].
      intros a c Ha Hc. rewrite (Hcells' a c _ (Hcells a c Ha Hc)). f_equal.
      change (@f_add Qc exact) with Qcplus. change (@f_mul Qc exact) with Qcmult.
      rewrite (shares_sum (λ dx dy, ((i + dy) mod n, (j + dx) mod n) = (a, c))).
      rewrite (received_step i j a c) by done. ring.
    + exists ng'. split; [done|]. split; [done|]. intros a c Ha Hc.
      by rewrite (received_row i a c), Hcells.
  - rewrite Hrun. f_equal.
    apply (grid_ext n n); [done|done|].
    intros a c Ha Hc. unfold filled. rewrite Hcells, get2_filled by done.
    rewrite (received_all a c) by done. f_equal. ring.
Qed.

End UniformFacts.

(** Where the loop bound of [normalize] does no harm, on square grids, the
    uniform belief grid is a fixed point of [blur], for every [blurring]. *)
Lemma exact_blur_uniform (n : Z) (b : Qc) :
  0 < n →
  blur (filled n n (1 / Exact.of_int (n * n))%Qc) b
  = Some (filled n n (1 / Exact.of_int (n * n))%Qc).
Proof.
  intros Hn. unfold blur. rewrite convolve_uniform by done.
  cbn [mbind option_bind].
  rewrite (normalize_square n _ 1%Qc);
    [|apply shape_filled; lia|done|by apply total_of_uniform].
  f_equal. unfold filled, Vec.fill.
  rewrite <- (List.map_id (replicate (Z.to_nat n) _)) at 2.
  apply List.map_ext. intros row.
  rewrite <- (List.map_id row) at 2.
  apply List.map_ext. intros x. change (x / 1 = x)%Qc. field.
  intros E. discriminate E.
Qed.

(** * The claims *)

Import IEEE Example.

Lemma shape_intro {A} (g : list (list A)) h w :
  Vec.size g = h → forallb (λ row, Vec.size row =? w) g = true → shape h w g.
Proof.
  intros Hh Hw. split; [done|]. apply Forall_forall. intros row Hrow.
  rewrite forallb_forall in Hw. apply Z.eqb_eq, Hw. by apply list_elem_of_In.
Qed.

(** C1.  [normalize] does not divide every cell by the total: its second
    loop nest runs the column index up to the number of rows.  On a grid of
    one row and two columns the second cell keeps the [0.0] it was created
    with, whatever the arithmetic; on [[1, 1]] the result is [[0.5, 0]], whose
    cells add up to a half; on a grid of two rows and one column the loop
    indexes a row past its end. *)
Theorem normalize_skips_columns :
  (∀ (F : Type) (A : Arith F) (a b : F),
     normalize [[a; b]]
     = Some [[f_div a (f_add (f_add f_zero a) b); f_zero]])
  ∧ normalize [[one; one]] = Some [[half; zero]]
  ∧ Exact.fractions (normalize [[1%Qc; 1%Qc]]) = Some [[1 # 2; 0%Q]]
  ∧ (∀ (F : Type) (A : Arith F) (a b : F), normalize [[a]; [b]] = None).
Proof.
  split; [|split; [|split]].
  - intros F A a b. reflexivity.
  - vm_compute. reflexivity.
  - vm_compute. reflexivity.
  - intros F A a b. reflexivity.
Qed.

(** C2.  The shift of [move] is not the translation on the torus: it reduces
    the row index modulo the width and the column index modulo the height, with
    the remainder of C++, which is negative for a negative sum.  With [dy = -1]
    the first cell of a 3x3 grid is stored at row -1; on a grid of one row and
    two columns, [dx = 1] sends both cells to cell (0,0), so that the first
    value is lost. *)
Theorem shift_not_toroidal :
  (∀ (F : Type) (A : Arith F) (a b c d e f g h i : F),
     shift (-1) 0 [[a; b; c]; [d; e; f]; [g; h; i]] = None)
  ∧ (∀ (F : Type) (A : Arith F) (a b : F),
       shift 0 1 [[a; b]] = Some [[b; f_zero]]).
Proof. split; intros; reflexivity. Qed.

(** C3.  [sense] reads none of its arguments: it normalizes a grid that has
    no row, and [normalize] indexes row 0 of it.  The example of the
    specification has no result. *)
Theorem sense_unimplemented :
  (∀ (F : Type) (A : Arith F) color g (beliefs : grid F) p_hit p_miss,
     sense color g beliefs p_hit p_miss = None)
  ∧ sense "r"%char red_green [[half; half]] three one = None.
Proof. split; intros; reflexivity. Qed.

(** C4.  A noiseless move cannot be undone: after [move 1 1] the inverse
    offsets are negative, and the shift stores the first cell at row -1. *)
Theorem move_back_undefined :
  move 1 1 centered zero = Some cornered
  ∧ move (-1) (-1) cornered zero = None.
Proof. split; vm_compute; reflexivity. Qed.

(** C5, as stated, fails: on a grid whose total is zero [normalize] returns
    a grid of NaN. *)
Lemma normalize_massless_nan :
  grid_total massless = Some zero
  ∧ normalize massless = Some [[nan; nan]; [nan; nan]].
Proof. split; vm_compute; reflexivity. Qed.

(** C5, amended.  [normalize] makes no check of the total and has no way
    to report one.  On every grid that is at least as wide as it is tall it
    returns a grid of the same dimensions, and every cell of its first [h]
    columns is the cell of the input divided by the total: NaN or an infinity
    when the total is a zero, NaN when the total is NaN. *)
Theorem normalize_zero_mass_unchecked (g : grid float) h w total :
  shape h w g → 0 < h ≤ w → grid_total g = Some total →
  ∃ r, normalize g = Some r ∧ shape h w r ∧
    ∀ i j, 0 ≤ i < h → 0 ≤ j < h →
      ∃ x, Vec.get2 g i j = Some x ∧ Vec.get2 r i j = Some (f_div x total)
           ∧ (is_zero total = true →
              not_a_finite_number (f_div x total) = true)
           ∧ (is_nan total = true → is_nan (f_div x total) = true).
Proof.
  intros Hg Hhw Htotal.
  destruct (normalize_wide h w g total Hg Hhw Htotal) as (r & Hr & Hsh & Hcells).
  exists r. split; [done|]. split; [done|]. intros i j Hi Hj.
  destruct (get2_in_range h w g i j) as [x Hx]; [done|done|lia|].
  exists x. split; [done|]. split; [|split].
  - rewrite Hcells by lia. rewrite decide_True by lia. by rewrite Hx.
  - apply ieee_divide_by_zero.
  - apply ieee_divide_by_nan.
Qed.

Lemma normalize_zero_mass_unchecked_witness :
  ∃ r, normalize massless = Some r ∧ shape 2 2 r ∧
    ∀ i j, 0 ≤ i < 2 → 0 ≤ j < 2 →
      ∃ x, Vec.get2 massless i j = Some x ∧ Vec.get2 r i j = Some (f_div x zero)
           ∧ (is_zero zero = true → not_a_finite_number (f_div x zero) = true)
           ∧ (is_nan zero = true → is_nan (f_div x zero) = true).
Proof.
  apply (normalize_zero_mass_unchecked massless 2 2 zero).
  - apply shape_intro; reflexivity.
  - lia.
  - vm_compute; reflexivity.
Defined.

(** [close_enough] accepts a grid of rationals as close to itself. *)
(** C6.  [blur] with [blurring = 0.0] does not equal [normalize] within the
    tolerance on every rectangular grid with positive mass: on a grid of two
    rows and one column neither call returns a grid, whatever the cells and
    the arithmetic.  [blur] ends with [normalize], whose second loop nest
    indexes every row up to the number of rows.  On [[0.5], [0.5]], whose
    mass is one, [blur] has no result to compare. *)
Theorem blur_zero_undefined_on_tall_grid :
  (∀ (F : Type) (A : Arith F) (a b : F),
     blur [[a]; [b]] f_zero = None ∧ normalize [[a]; [b]] = None)
  ∧ blur [[half]; [half]] zero = None
  ∧ normalize [[half]; [half]] = None.
Proof.
  split; [|split].
  - intros F A a b. split; reflexivity.
  - vm_compute. reflexivity.
  - vm_compute. reflexivity.
Qed.

(** C7.  A uniform belief grid is not a fixed point of [blur] when the grid
    has more columns than rows: [blur] ends with [normalize], which leaves the
    columns from the number of rows on at [0.0].  The uniform grid
    [[0.5, 0.5]] is blurred to [[0.5, 0]]. *)
Theorem blur_uniform_not_fixed :
  (∀ (F : Type) (A : Arith F) (a blurring : F),
     ∃ x, blur [[a; a]] blurring = Some [[x; f_zero]])
  ∧ blur [[half; half]] half = Some [[half; zero]]
  ∧ Exact.fractions (blur [[Q2Qc (1 # 2); Q2Qc (1 # 2)]] (Q2Qc (1 # 2)))
    = Some [[1 # 2; 0%Q]].
Proof.
  split; [|split].
  - intros F A a blurring. eexists. reflexivity.
  - vm_compute. reflexivity.
  - vm_compute. reflexivity.
Qed.

(** C8.  [initialize_beliefs] fills a grid of the dimensions of the map with
    the quotient of [1.0] by the number of cells.  Without rounding every cell
    is [1/(h*w)] and the cells add up to one.  In binary32 every cell is the
    same finite positive float, and [h*w] times its value is within [2^-20] of
    one.  The 2x2 map gives four cells of [0.25]. *)
Theorem initialize_beliefs_uniform :
  (∀ (F : Type) (A : Arith F) (g : list (list ascii)) h w,
     shape h w g → 0 < h →
     initialize_beliefs g
     = Some (filled h w (to_float (d_div (d_of_int 1) (d_of_int (h * w))))))
  ∧ (∀ (g : list (list ascii)) h w,
       shape h w g → 0 < h → 0 < w →
       ∃ r : grid Qc,
         initialize_beliefs g = Some r ∧ shape h w r
         ∧ (∀ i j, 0 ≤ i < h → 0 ≤ j < w →
              Vec.get2 r i j = Some (1 / Exact.of_int (h * w))%Qc)
         ∧ grid_total r = Some 1%Qc)
  ∧ (∀ (g : list (list ascii)) h w,
       shape h w g → 0 < h → 0 < w → h * w < 2 ^ 31 →
       ∃ c : float,
         initialize_beliefs g = Some (filled h w c) ∧ mass c = true
         ∧ (Qabs (inject_Z (h * w) * value c - 1) < 1 # 1048576)%Q)
  ∧ initialize_beliefs all_green
    = Some [[quarter; quarter]; [quarter; quarter]]
  ∧ Exact.fractions (initialize_beliefs all_green)
    = Some [[1 # 4; 1 # 4]; [1 # 4; 1 # 4]].
Proof.
  split; [|split; [|split; [|split]]].
  - intros F A g h w Hg Hh. by apply initialize_beliefs_filled.
  - intros g h w Hg Hh Hw.
    exists (filled h w (1 / Exact.of_int (h * w))%Qc).
    split; [exact (initialize_beliefs_filled (F:=Qc) g h w Hg Hh)|].
    split; [apply shape_filled; lia|].
    split; [|by apply total_of_uniform].
    intros i j Hi Hj. by apply get2_filled.
  - intros g h w Hg Hh Hw Harea.
    destruct (inverse_area_value (h * w)) as (c & Hc & Hmass & Hsum).
    { change (2 ^ 31) with 2147483648 in Harea.
      change (2 ^ 53) with 9007199254740992. nia. }
    exists c. split; [|done].
    rewrite <- Hc. by apply initialize_beliefs_filled.
  - vm_compute. reflexivity.
  - vm_compute. reflexivity.
Qed.

Lemma initialize_beliefs_uniform_witness :
  initialize_beliefs (F:=float) all_green
  = Some (filled 2 2 (to_float (d_div (d_of_int 1) (d_of_int (2 * 2)))))
  ∧ (∃ r : grid Qc,
       initialize_beliefs all_green = Some r ∧ shape 2 2 r
       ∧ (∀ i j, 0 ≤ i < 2 → 0 ≤ j < 2 →
            Vec.get2 r i j = Some (1 / Exact.of_int (2 * 2))%Qc)
       ∧ grid_total r = Some 1%Qc)
  ∧ (∃ c : float,
       initialize_beliefs all_green = Some (filled 2 2 c) ∧ mass c = true
       ∧ (Qabs (inject_Z (2 * 2) * value c - 1) < 1 # 1048576)%Q).
Proof.
  destruct initialize_beliefs_uniform as (Hcells & Hsum & Hieee & _).
  split; [|split].
  - apply (Hcells float ieee all_green 2 2); [apply shape_intro; reflexivity|lia].
  - apply (Hsum all_green 2 2); [apply shape_intro; reflexivity|lia|lia].
  - apply (Hieee all_green 2 2); [apply shape_intro; reflexivity|lia|lia|].
    reflexivity.
Defined.

(** C9.  The example of [move]: the belief in the centre of the 3x3 grid
    moves one cell down and one cell right. *)
Theorem move_example :
  move 1 1 centered zero = Some cornered
  ∧ Exact.fractions (move 1 1 [[0; 0; 0]; [0; 1; 0]; [0; 0; 0]]%Qc 0%Qc)
    = Some [[0; 0; 0]; [0; 0; 0]; [0; 0; 1]]%Q.
Proof. split; vm_compute; reflexivity. Qed.

(** The scalar test in binary32: the difference is accepted when, rounded to
    a float and read as a double, it is at most the double [0.0001], and also
    when it is NaN. *)
Lemma ieee_close_enough_or_nan (v1 v2 : float) :
  close_enough_scalar v1 v2 = true
  ↔ SFleb (to_double (f_abs (f_sub v2 v1))) tol = true
    ∨ is_nan (f_sub v2 v1) = true.
Proof.
  destruct (is_nan (f_sub v2 v1)) eqn:Hnan.
  - split; [by right|]. intros _.
    unfold close_enough_scalar, too_far. cbn [f_sub f_abs to_double ieee] in *.
    by destruct (SFsub 24 128 v2 v1).
  - rewrite (ieee_close_enough_numbers v1 v2 Hnan).
    split; [by left|]. by intros [?|?].
Qed.

(** C10, the claim as it stands fails: the cell NaN is accepted next to the
    cell [1.0], although the difference of the two is not at most
    [0.0001]. *)
Lemma close_enough_accepts_nan_cell :
  close_enough [[nan]] [[one]] = Some true
  ∧ close_enough_scalar nan one = true
  ∧ SFleb (to_double (f_abs (f_sub one nan))) tol = false.
Proof. repeat split; vm_compute; reflexivity. Qed.

(** C10.  [close_enough] on grids answers [false] when the numbers of rows
    differ or the first rows differ in width.  On two grids of the same
    dimensions, in binary32, it answers [true] exactly when for every pair of
    cells the difference [v2 - v1], rounded to a float, is NaN or has an
    absolute value that is at most the double [0.0001], that bound included;
    the scalar overload makes the same test on its two floats. *)
Theorem close_enough_float_tolerance :
  (∀ (F : Type) (A : Arith F) (g1 g2 : grid F),
     Vec.size g1 ≠ Vec.size g2 → close_enough g1 g2 = Some false)
  ∧ (∀ (F : Type) (A : Arith F) (g1 g2 : grid F) r1 r2,
       Vec.get g1 0 = Some r1 → Vec.get g2 0 = Some r2 →
       Vec.size r1 ≠ Vec.size r2 → close_enough g1 g2 = Some false)
  ∧ (∀ h w (g1 g2 : grid float),
       shape h w g1 → shape h w g2 → 0 < h →
       ∃ b, close_enough g1 g2 = Some b ∧
         (b = true ↔
          ∀ i j v1 v2,
            Vec.get2 g1 i j = Some v1 → Vec.get2 g2 i j = Some v2 →
            SFleb (to_double (f_abs (f_sub v2 v1))) tol = true
            ∨ is_nan (f_sub v2 v1) = true))
  ∧ (∀ v1 v2 : float,
       close_enough_scalar v1 v2 = true
       ↔ SFleb (to_double (f_abs (f_sub v2 v1))) tol = true
         ∨ is_nan (f_sub v2 v1) = true).
Proof.
  split; [|split; [|split]].
  - intros F A g1 g2. apply close_enough_rows.
  - intros F A g1 g2 r1 r2. apply close_enough_first_row.
  - intros h w g1 g2 Hg1 Hg2 Hh.
    destruct (close_enough_cells h w g1 g2 Hg1 Hg2 Hh) as (b & Hb & Hiff).
    exists b. split; [done|]. rewrite Hiff.
    split; intros Hcells i j v1 v2 Hv1 Hv2;
      apply ieee_close_enough_or_nan; by apply (Hcells i j).
  - apply ieee_close_enough_or_nan.
Qed.

Lemma close_enough_float_tolerance_witness :
  close_enough [[one; one]] [[one; one]; [one; one]] = Some false
  ∧ close_enough [[one; one]] [[one]] = Some false
  ∧ (∃ b, close_enough [[one; nan]] [[one; half]] = Some b ∧
       (b = true ↔
        ∀ i j v1 v2,
          Vec.get2 [[one; nan]] i j = Some v1 →
          Vec.get2 [[one; half]] i j = Some v2 →
          SFleb (to_double (f_abs (f_sub v2 v1))) tol = true
          ∨ is_nan (f_sub v2 v1) = true)).
Proof.
  destruct close_enough_float_tolerance as (Hrows & Hrow0 & Hcells & _).
  split; [|split].
  - apply Hrows. vm_compute. discriminate.
  - apply (Hrow0 float ieee _ _ [one; one] [one]); [reflexivity..|].
    vm_compute. discriminate.
  - apply (Hcells 1 2); [apply shape_intro; reflexivity..|lia].
Defined.

(** * Further lemmas *)

(** ** Loops *)

Section MoreLoopFacts.

Context {S : Type}.
Implicit Types (body : Z → S → option S) (s : S) (lo hi i : Z).

(** What every iteration keeps holds of the result of a loop that has one. *)
Lemma for_range_result (P : Z → S → Prop) lo hi body s s' :
  lo ≤ hi → P lo s →
  (∀ i t t', lo ≤ i < hi → P i t → body i t = Some t' → P (i + 1) t') →
  for_range lo hi body s = Some s' → P hi s'.
Proof.
  intros Hle Hs Hstep. unfold for_range.
  remember (Z.to_nat (hi - lo)) as n eqn:Hn.
  revert lo s Hle Hs Hstep Hn. induction n as [|n IH]; intros lo s Hle Hs Hstep Hn.
  - intros [= <-]. by replace hi with lo by lia.
  - cbn [loop_from]. destruct (body lo s) as [t|] eqn:Ht; [|done].
    cbn [mbind option_bind]. apply IH; [lia|by eapply Hstep; [lia|..]| |lia].
    intros i u u' Hi. apply Hstep. lia.
Qed.

(** A loop with an iteration that has no result in any state has none. *)
Lemma for_range_fails lo hi k body s :
  lo ≤ k < hi → (∀ t, body k t = None) → for_range lo hi body s = None.
Proof.
  intros Hk Hfail. unfold for_range.
  remember (Z.to_nat (k - lo)) as n eqn:Hn.
  revert lo s Hk Hn. induction n as [|n IH]; intros lo s Hk Hn.
  - assert (lo = k) as -> by lia.
    replace (Z.to_nat (hi - k)) with (Datatypes.S (Z.to_nat (hi - (k + 1)))) by lia.
    cbn [loop_from]. by rewrite Hfail.
  - replace (Z.to_nat (hi - lo)) with (Datatypes.S (Z.to_nat (hi - (lo + 1)))) by lia.
    cbn [loop_from]. destruct (body lo s) as [t|]; [|done].
    cbn [mbind option_bind]. apply IH; lia.
Qed.

End MoreLoopFacts.

Section ShapeFacts.

Context {F : Type} `{Arith F}.
Implicit Types (g ng : grid F) (h w i j : Z).

(** The weights of the window at the nine offsets. *)
Lemma window_offsets (b : F) :
  Forall (λ '(dx, dy),
      Vec.get2 (window b) (dx + 1) (dy + 1)
      = Some (default f_zero (Vec.get2 (window b) (dx + 1) (dy + 1)))) offsets.
Proof. repeat constructor. Qed.

(** The loop nest of [blur] has a result on every rectangular grid, of the
    shape of the grid: the wrapped indices stay in range. *)
Lemma convolve_shape h w g b :
  shape h w g → 0 < h → ∃ r, convolve g b = Some r ∧ shape h w r.
Proof.
  intros Hg Hh. unfold convolve.
  destruct (get_in_range g 0) as [row0 Hrow0]; [destruct Hg; lia|].
  rewrite Hrow0. cbn [mbind option_bind].
  rewrite (shape_row _ _ _ _ _ Hg Hrow0).
  assert (Vec.size g = h) as -> by (by destruct Hg).
  assert (0 ≤ w) as Hw.
  { rewrite <- (shape_row _ _ _ _ _ Hg Hrow0). apply size_nonneg. }
  destruct (for_range_invariant (λ _ ng, shape h w ng) 0 h
    (λ i ng, for_range 0 w (λ j ng,
       grid_value ← Vec.get2 g i j;
       for_range (-1) 2 (λ dx ng,
         for_range (-1) 2 (λ dy ng,
           spill (window b) h w i j grid_value dx dy ng) ng) ng) ng)
    (filled h w f_zero)) as (r & Hrun & Hsh); [lia|apply shape_filled; lia| |].
  - intros i ng Hi Hng.
    apply (for_range_invariant (λ _ ng, shape h w ng) 0 w); [lia|done|].
    intros j t Hj Ht.
    destruct (get2_in_range h w g i j) as [v Hv]; [done..|].
    rewrite Hv. cbn [mbind option_bind].
    rewrite (window_loops (λ dx dy ng, spill (window b) h w i j v dx dy ng)).
    destruct (spill_offsets (window b) _ h w i j v offsets t Ht Hh
                ltac:(lia) (window_offsets b)) as (t' & Ht' & Hsh' & _).
    by exists t'.
  - by exists r.
Qed.

(** Where the shift of [move] has a result, it has the shape of the grid. *)
Lemma shift_shape h w dy dx g r :
  shape h w g → 0 < h → shift dy dx g = Some r → shape h w r.
Proof.
  intros Hg Hh. unfold shift.
  destruct (get_in_range g 0) as [row0 Hrow0]; [destruct Hg; lia|].
  rewrite Hrow0. cbn [mbind option_bind].
  rewrite (shape_row _ _ _ _ _ Hg Hrow0).
  assert (Vec.size g = h) as -> by (by destruct Hg).
  assert (0 ≤ w) as Hw.
  { rewrite <- (shape_row _ _ _ _ _ Hg Hrow0). apply size_nonneg. }
  apply (for_range_result (λ _ ng, shape h w ng)); [lia|apply shape_filled; lia|].
  intros i t t' Hi Ht.
  apply (for_range_result (λ _ ng, shape h w ng)); [lia|done|].
  intros j u u' Hj Hu.
  destruct (Vec.add i dy) as [row|]; [|done]. cbn [mbind option_bind].
  destruct (Vec.rem row w) as [new_i|]; [|done]. cbn [mbind option_bind].
  destruct (Vec.add j dx) as [column|]; [|done]. cbn [mbind option_bind].
  destruct (Vec.rem column h) as [new_j|]; [|done].
  destruct (Vec.get2 g i j) as [v|]; [|done]. cbn [mbind option_bind].
  by apply set2_shape.
Qed.

Lemma set2_negative g i j (x : F) : i < 0 ∨ j < 0 → Vec.set2 g i j x = None.
Proof.
  intros Hij. unfold Vec.set2, Vec.get, Vec.set.
  destruct (Z.ltb_spec i 0); [done|].
  destruct (g !! Z.to_nat i); [|done]. cbn [mbind option_bind].
  destruct (Z.leb_spec 0 j); [lia|]. done.
Qed.

(** The shift has no result when a cell is sent to a negative index. *)
Lemma shift_negative_index h w dy dx g i j :
  shape h w g → 0 ≤ i < h → 0 ≤ j < w →
  Z.rem (i + dy) w < 0 ∨ Z.rem (j + dx) h < 0 →
  shift dy dx g = None.
Proof.
  intros Hg Hi Hj Hneg. unfold shift.
  destruct (get_in_range g 0) as [row0 Hrow0]; [destruct Hg; lia|].
  rewrite Hrow0. cbn [mbind option_bind].
  rewrite (shape_row _ _ _ _ _ Hg Hrow0).
  assert (Vec.size g = h) as -> by (by destruct Hg).
  apply (for_range_fails 0 h i); [done|]. intros t.
  apply (for_range_fails 0 w j); [done|]. intros u.
  destruct (add_cases i dy) as [-> | ->]; [|done].
  destruct (add_cases j dx) as [-> | ->];
    [|cbn [mbind option_bind]; by destruct (Vec.rem (i + dy) w)].
  unfold Vec.rem. cbn [mbind option_bind].
  destruct (w =? 0); [done|]. cbn [mbind option_bind].
  destruct (h =? 0); [done|]. cbn [mbind option_bind].
  destruct (Vec.get2 g i j) as [v|]; [|done]. cbn [mbind option_bind].
  by apply set2_negative.
Qed.

(** A negative number or the next one has a negative remainder. *)
Lemma rem_negative d n :
  d < 0 → 2 ≤ n → Z.rem (0 + d) n < 0 ∨ Z.rem (1 + d) n < 0.
Proof.
  intros Hd Hn.
  pose proof (Z.rem_nonpos (0 + d) n ltac:(lia) ltac:(lia)) as H0.
  pose proof (Z.rem_nonpos (1 + d) n ltac:(lia) ltac:(lia)) as H1.
  destruct (decide (Z.rem (0 + d) n = 0)) as [E0|]; [|lia].
  destruct (decide (Z.rem (1 + d) n = 0)) as [E1|]; [|lia].
  apply Z.rem_divide in E0; [|lia]. apply Z.rem_divide in E1; [|lia].
  assert (n | 1) as Hone.
  { replace 1 with (1 + d - (0 + d)) by lia. by apply Z.divide_sub_r. }
  apply Z.divide_1_r in Hone. lia.
Qed.

(** With a negative offset, on a grid of two rows and two columns or more. *)
Lemma shift_negative_offset h w dy dx g :
  shape h w g → 2 ≤ h → 2 ≤ w → dy < 0 ∨ dx < 0 → shift dy dx g = None.
Proof.
  intros Hg Hh Hw [Hdy|Hdx].
  - destruct (rem_negative dy w Hdy Hw) as [Hneg|Hneg].
    + apply (shift_negative_index h w dy dx g 0 0); [done|lia|lia|by left].
    + apply (shift_negative_index h w dy dx g 1 0); [done|lia|lia|by left].
  - destruct (rem_negative dx h Hdx Hh) as [Hneg|Hneg].
    + apply (shift_negative_index h w dy dx g 0 0); [done|lia|lia|by right].
    + apply (shift_negative_index h w dy dx g 0 1); [done|lia|lia|by right].
Qed.

End ShapeFacts.

(** ** [zeros] *)

Section ZerosFacts.

Context {F : Type} `{Arith F}.

(** A loop that appends [x] at every turn. *)
Lemma loop_push_back {A} (x : A) (n : nat) : ∀ i (v : list A),
  loop_from n i (λ _ v, Some (Vec.push_back v x)) v = Some (v ++ replicate n x).
Proof.
  induction n as [|n IH]; intros i v.
  - by rewrite app_nil_r.
  - cbn [loop_from mbind option_bind]. rewrite IH. unfold Vec.push_back.
    by rewrite <- app_assoc.
Qed.

Lemma loop_from_ext {S} (f g : Z → S → option S) (n : nat) : ∀ i s,
  (∀ i s, f i s = g i s) → loop_from n i f s = loop_from n i g s.
Proof.
  induction n as [|n IH]; intros i s Hfg; [done|].
  cbn [loop_from]. rewrite Hfg. destruct (g i s); [simpl|done]. by apply IH.
Qed.

Lemma loop_push_rows (row : list F) (n : nat) : ∀ i (newGrid : grid F) newRow,
  loop_from n i (λ _ '(newGrid, _), Some (Vec.push_back newGrid row, row))
    (newGrid, newRow)
  = Some (newGrid ++ replicate n row, match n with O => newRow | S _ => row end).
Proof.
  induction n as [|n IH]; intros i newGrid newRow.
  - by rewrite app_nil_r.
  - cbn [loop_from mbind option_bind]. rewrite IH. unfold Vec.push_back.
    rewrite <- app_assoc. by destruct n.
Qed.

Lemma zeros_filled (height width : Z) :
  zeros height width = Some (filled height width f_zero).
Proof.
  unfold zeros. unfold for_range at 1.
  rewrite (loop_from_ext _
    (λ _ '(newGrid, _), Some (Vec.push_back newGrid (Vec.fill width f_zero),
                              Vec.fill width f_zero))).
  - rewrite loop_push_rows. by rewrite Z.sub_0_r.
  - intros i [newGrid newRow]. unfold for_range.
    rewrite loop_push_back. by rewrite Z.sub_0_r.
Qed.

End ZerosFacts.

(** ** [read_line] and [read_map] *)

Section FindFacts.

Implicit Types (s pre post : list ascii) (c : ascii).

Lemma find_char_cons c a s :
  Str.find (a :: s) [c] = if Ascii.eqb c a then Some 0%nat else S <$> Str.find s [c].
Proof.
  cbn [Str.find Str.starts_with]. destruct (Ascii.eqb c a); [|done].
  by destruct s.
Qed.

(** The position of the first [c] of a string. *)
Lemma find_char_first c pre post :
  c ∉ pre → Str.find (pre ++ c :: post) [c] = Some (length pre).
Proof.
  intros Hpre. induction pre as [|a pre IH].
  - cbn [app length]. rewrite find_char_cons. by rewrite Ascii.eqb_refl.
  - cbn [app length]. rewrite find_char_cons.
    apply not_elem_of_cons in Hpre as [Hne Hpre].
    destruct (Ascii.eqb_spec c a) as [|_]; [done|].
    by rewrite (IH Hpre).
Qed.

Lemma find_char_none c s : c ∉ s → Str.find s [c] = None.
Proof.
  intros Hs. induction s as [|a s IH]; [done|].
  rewrite find_char_cons.
  apply not_elem_of_cons in Hs as [Hne Hs].
  destruct (Ascii.eqb_spec c a) as [|_]; [done|].
  by rewrite (IH Hs).
Qed.

Lemma find_char_cases c s :
  ((c ∉ s) ∧ Str.find s [c] = None)
  ∨ (∃ pre post, s = pre ++ c :: post ∧ (c ∉ pre)
                 ∧ Str.find s [c] = Some (length pre)).
Proof.
  induction s as [|a s IH].
  - left. split; [apply not_elem_of_nil|done].
  - destruct (Ascii.eqb_spec c a) as [<-|Hne].
    + right. exists [], s. split; [done|]. split; [apply not_elem_of_nil|].
      apply (find_char_first c [] s), not_elem_of_nil.
    + destruct IH as [[Hs Hf]|(pre & post & -> & Hpre & Hf)].
      * left. split; [by apply not_elem_of_cons|].
        apply find_char_none. by apply not_elem_of_cons.
      * right. exists (a :: pre), post. split; [done|].
        assert (c ∉ a :: pre) as Hpre' by (by apply not_elem_of_cons).
        split; [done|]. by apply (find_char_first c (a :: pre) post).
Qed.

End FindFacts.

Section ReadLineFacts.

Implicit Types (s rest : list ascii) (row : list ascii) (c : ascii).

Lemma read_line_loop_S fuel s row :
  read_line_loop (S fuel) s row
  = match Str.find s delimiter with
    | None => Some (Returns row)
    | Some pos =>
        match Str.char_at (Str.substr s 0 pos) 0 with
        | None => Some Throws_out_of_range
        | Some cell =>
            read_line_loop fuel (Str.erase s 0 (pos + length delimiter))
              (Vec.push_back row cell)
        end
    end.
Proof. done. Qed.

(** One turn of the loop of [read_line] on a token that is not empty: its
    first character is kept, and the loop goes on after the space. *)
Lemma read_line_loop_token fuel c tl rest row :
  Str.space ∉ c :: tl →
  read_line_loop (S fuel) (c :: tl ++ Str.space :: rest) row
  = read_line_loop fuel rest (row ++ [c]).
Proof.
  intros Htoken. rewrite read_line_loop_S. unfold delimiter.
  change (c :: tl ++ Str.space :: rest) with ((c :: tl) ++ Str.space :: rest).
  rewrite (find_char_first Str.space (c :: tl) rest Htoken).
  unfold Str.substr, Str.erase, Str.char_at, Vec.push_back.
  cbn [length drop take app lookup list_lookup Nat.add].
  replace (length tl + 1)%nat with (S (length tl)) by lia.
  cbn [drop].
  replace (S (length tl)) with (length (tl ++ [Str.space]))
    by (rewrite length_app; simpl; lia).
  by rewrite (cons_middle Str.space tl rest), app_assoc, drop_app_length.
Qed.

Lemma read_line_loop_end fuel s row :
  Str.space ∉ s → read_line_loop (S fuel) s row = Some (Returns row).
Proof.
  intros Hs. rewrite read_line_loop_S. unfold delimiter.
  by rewrite (find_char_none _ _ Hs).
Qed.

Lemma read_line_loop_tokens fuel (ts : list (ascii * list ascii)) rest row :
  Forall (λ '(c, tl), Str.space ∉ c :: tl) ts → Str.space ∉ rest →
  (length ts < fuel)%nat →
  read_line_loop fuel (spaced ts ++ rest) row
  = Some (Returns (row ++ map fst ts)).
Proof.
  intros Hts Hrest. revert fuel row.
  induction Hts as [|[c tl] ts Htoken _ IH]; intros fuel row Hfuel.
  - destruct fuel as [|fuel]; [simpl in Hfuel; lia|].
    cbn [spaced map concat app]. rewrite app_nil_r.
    by apply read_line_loop_end.
  - destruct fuel as [|fuel]; [simpl in Hfuel; lia|].
    unfold spaced. cbn [map concat]. fold (spaced ts).
    rewrite <- !app_assoc. cbn [app]. rewrite <- app_assoc. cbn [app].
    rewrite read_line_loop_token by done.
    rewrite IH by (simpl in Hfuel; lia).
    by rewrite <- app_assoc.
Qed.

Lemma spaced_length ts : (length ts ≤ length (spaced ts))%nat.
Proof.
  induction ts as [|[c tl] ts IH]; [done|].
  unfold spaced. cbn [map concat]. fold (spaced ts).
  cbn [app length]. rewrite !length_app. lia.
Qed.

Lemma read_line_tokens (ts : list (ascii * list ascii)) rest :
  Forall (λ '(c, tl), Str.space ∉ c :: tl) ts → Str.space ∉ rest →
  read_line (spaced ts ++ rest) = Some (Returns (map fst ts)).
Proof.
  intros Hts Hrest. unfold read_line.
  rewrite read_line_loop_tokens; [done..|].
  rewrite length_app. pose proof (spaced_length ts). lia.
Qed.

Lemma empty_token_after c tl rest :
  Str.space ∉ c :: tl →
  empty_token (c :: tl ++ Str.space :: rest) ↔ empty_token rest.
Proof.
  intros Htoken. split.
  - intros [[post E]|(pre & post & E)].
    + injection E as -> _. exfalso. apply Htoken. by left.
    + change (c :: tl ++ Str.space :: rest)
        with ((c :: tl) ++ Str.space :: rest) in E.
      apply app_eq_inv in E as [(k & Ek & E)|(k & Ek & E)].
      * destruct k as [|x k].
        -- injection E as <-. left. by eexists.
        -- injection E as <- _. exfalso. apply Htoken. rewrite Ek.
           apply elem_of_app. right. by left.
      * destruct k as [|x k].
        -- injection E as ->. left. by eexists.
        -- injection E as <- ->. right. by exists k, post.
  - intros [[post ->]|(pre & post & ->)].
    + right. exists (c :: tl), post. done.
    + right. exists (c :: tl ++ Str.space :: pre), post.
      cbn [app]. by rewrite <- app_assoc.
Qed.



Lemma count_space_none s : Str.space ∉ s → count_occ ascii_dec s Str.space = 0%nat.
Proof.
  intros Hs. apply count_occ_not_In. intros Hin. apply Hs.
  by apply list_elem_of_In.
Qed.

Lemma count_space_token c tl rest :
  Str.space ∉ c :: tl →
  count_occ ascii_dec (c :: tl ++ Str.space :: rest) Str.space
  = S (count_occ ascii_dec rest Str.space).
Proof.
  intros Htoken.
  change (c :: tl ++ Str.space :: rest) with ((c :: tl) ++ Str.space :: rest).
  rewrite count_occ_app, (count_space_none _ Htoken).
  cbn [count_occ]. by destruct (ascii_dec Str.space Str.space).
Qed.

(** With fuel for every character, the loop of [read_line] throws on a line
    with an empty token, and otherwise returns one cell for every space. *)
Lemma read_line_loop_outcome (n : nat) : ∀ s fuel row,
  (length s ≤ n)%nat → (length s < fuel)%nat →
  (empty_token s ∧ read_line_loop fuel s row = Some Throws_out_of_range)
  ∨ (¬ empty_token s ∧
     ∃ cells, read_line_loop fuel s row = Some (Returns (row ++ cells))
              ∧ length cells = count_occ ascii_dec s Str.space
              ∧ (Str.space ∉ cells)).
Proof.
  induction n as [|n IH]; intros s fuel row Hn Hfuel;
    (destruct fuel as [|fuel]; [lia|]);
    destruct (find_char_cases Str.space s)
      as [[Hs Hf]|(pre & post & -> & Hpre & Hf)].
  1,3: right; split;
    [ intros [[post ->]|(pre & post & ->)]; apply Hs;
      [by left|apply elem_of_app; right; by left]
    | exists []; rewrite app_nil_r, (read_line_loop_end _ _ _ Hs),
        (count_space_none _ Hs);
      split; [done|]; split; [done|]; apply not_elem_of_nil ].
  - rewrite length_app in Hn. simpl in Hn. lia.
  - rewrite length_app in Hn, Hfuel. cbn [length] in Hn, Hfuel.
    destruct pre as [|c tl].
    + left. split; [left; by eexists|done].
    + cbn [app]. rewrite (read_line_loop_token fuel c tl post row Hpre).
      cbn [length] in Hn, Hfuel.
      destruct (IH post fuel (row ++ [c]) ltac:(lia) ltac:(lia))
        as [[He Hr]|(He & cells & Hr & Hlen & Hsp)].
      * left. split; [|done]. by apply (empty_token_after c tl post Hpre).
      * right. split; [by rewrite (empty_token_after c tl post Hpre)|].
        exists (c :: cells). rewrite Hr, <- app_assoc. split; [done|].
        rewrite (count_space_token c tl post Hpre). split; [simpl; lia|].
        apply not_elem_of_cons. split; [|done].
        intros <-. apply Hpre. by left.
Qed.


Lemma read_line_outcome s :
  (empty_token s ∧ read_line s = Some Throws_out_of_range)
  ∨ (¬ empty_token s ∧
     ∃ row, read_line s = Some (Returns row)
            ∧ length row = count_occ ascii_dec s Str.space
            ∧ (Str.space ∉ row)).
Proof.
  unfold read_line.
  destruct (read_line_loop_outcome (length s) s (S (length s)) []) as [?|?];
    [lia|lia|by left|by right].
Qed.

End ReadLineFacts.

Section ReadMapFacts.

Implicit Types (l last infile : list ascii) (ls rows : list (list ascii)).

Lemma getline_line l infile :
  Str.newline ∉ l →
  getline (l ++ Str.newline :: infile) = Some (l, infile).
Proof.
  intros Hl. unfold getline.
  rewrite (find_char_first Str.newline l infile Hl).
  rewrite take_app_length.
  replace (S (length l)) with (length (l ++ [Str.newline]))
    by (rewrite length_app; simpl; lia).
  rewrite (cons_middle Str.newline l infile), app_assoc, drop_app_length.
  by destruct l.
Qed.

Lemma getline_last l :
  l ≠ [] → Str.newline ∉ l → getline l = Some (l, []).
Proof.
  intros Hne Hl. unfold getline. rewrite (find_char_none _ _ Hl).
  by destruct l.
Qed.

Lemma read_map_loop_S fuel infile rows :
  read_map_loop (S fuel) infile rows
  = match getline infile with
    | None => Some (Returns rows)
    | Some (line, infile) =>
        r ← read_line line;
        match r with
        | Throws_out_of_range => Some Throws_out_of_range
        | Returns row => read_map_loop fuel infile (Vec.push_back rows row)
        end
    end.
Proof. done. Qed.

(** The loop of [read_map] reads one row from every line, the last line
    with or without a newline after it. *)
Lemma read_map_loop_lines ls : ∀ last fuel rows,
  Forall (λ l, Str.newline ∉ l) ls → Str.newline ∉ last →
  (length (ls ++ match last with [] => [] | _ => [last] end) < fuel)%nat →
  read_map_loop fuel (lines_text ls ++ last) rows
  = read_lines (ls ++ match last with [] => [] | _ => [last] end) rows.
Proof.
  induction ls as [|l ls IH]; intros last fuel rows Hls Hlast Hfuel.
  - destruct fuel as [|fuel]; [simpl in Hfuel; lia|].
    cbn [lines_text List.map concat app]. rewrite read_map_loop_S.
    destruct last as [|a last]; [done|].
    destruct fuel as [|fuel]; [simpl in Hfuel; lia|].
    rewrite getline_last by done. cbn [read_lines].
    destruct (read_line (a :: last)) as [[row|]|]; try done.
  - destruct fuel as [|fuel]; [simpl in Hfuel; lia|].
    apply Forall_cons in Hls as [Hl Hls].
    unfold lines_text. cbn [List.map concat]. fold (lines_text ls).
    rewrite <- !app_assoc. cbn [app].
    rewrite read_map_loop_S, getline_line by done.
    cbn [read_lines app].
    destruct (read_line l) as [[row|]|]; try done.
    cbn [mbind option_bind]. apply IH; [done..|]. simpl in Hfuel. lia.
Qed.

Lemma lines_text_length ls : (length ls ≤ length (lines_text ls))%nat.
Proof.
  induction ls as [|l ls IH]; [done|].
  unfold lines_text. cbn [List.map concat]. fold (lines_text ls).
  rewrite !length_app. simpl. lia.
Qed.

Lemma read_map_lines files file_name ls last :
  files file_name = Some (lines_text ls ++ last) →
  Forall (λ l, Str.newline ∉ l) ls → Str.newline ∉ last →
  read_map files file_name
  = read_lines (ls ++ match last with [] => [] | _ => [last] end) [].
Proof.
  intros Hfile Hls Hlast. unfold read_map. rewrite Hfile.
  apply read_map_loop_lines; [done..|].
  rewrite !length_app. pose proof (lines_text_length ls).
  destruct last; simpl; lia.
Qed.


Lemma read_lines_returns ls : ∀ rows,
  Forall (λ l, ¬ empty_token l) ls →
  ∃ g, read_lines ls rows = Some (Returns (rows ++ g))
       ∧ Forall2 (λ l row, length row = count_occ ascii_dec l Str.space
                           ∧ (Str.space ∉ row)) ls g.
Proof.
  induction ls as [|l ls IH]; intros rows Hls.
  - exists []. by rewrite app_nil_r.
  - apply Forall_cons in Hls as [Hl Hls]. cbn [read_lines].
    destruct (read_line_outcome l) as [[He _]|(_ & row & -> & Hrow)]; [done|].
    cbn [mbind option_bind].
    destruct (IH (rows ++ [row]) Hls) as (g & -> & Hg).
    exists (row :: g). rewrite <- app_assoc. split; [done|].
    by constructor.
Qed.

Lemma read_lines_throws ls : ∀ rows,
  Exists empty_token ls → read_lines ls rows = Some Throws_out_of_range.
Proof.
  induction ls as [|l ls IH]; intros rows Hls.
  - by apply Exists_nil in Hls.
  - cbn [read_lines].
    destruct (read_line_outcome l) as [[He ->]|(Hne & row & -> & Hrow)]; [done|].
    cbn [mbind option_bind]. apply IH.
    by apply Exists_cons in Hls as [?|?].
Qed.

(** Every text is a list of lines that end with a newline, followed by
    characters without a newline. *)
Lemma split_lines infile :
  ∃ ls last, infile = lines_text ls ++ last
             ∧ Forall (λ l, Str.newline ∉ l) ls ∧ (Str.newline ∉ last).
Proof.
  induction infile as [|a infile (ls & last & -> & Hls & Hlast)].
  - exists [], []. split; [done|]. split; [done|apply not_elem_of_nil].
  - destruct (ascii_dec a Str.newline) as [->|Hne].
    + exists ([] :: ls), last. split; [done|]. split; [|done].
      constructor; [apply not_elem_of_nil|done].
    + destruct ls as [|l ls].
      * exists [], (a :: last). split; [done|]. split; [done|].
        apply not_elem_of_cons. split; [congruence|done].
      * apply Forall_cons in Hls as [Hl Hls].
        exists ((a :: l) :: ls), last. split; [done|]. split; [|done].
        constructor; [|done]. apply not_elem_of_cons. split; [congruence|done].
Qed.

(** The lines of the text of a map give the map back. *)
Lemma read_lines_cells g : ∀ rows,
  Forall (Forall (λ c, c ≠ Str.space)) g →
  read_lines (map (λ row, spaced (map (λ c, (c, [])) row)) g) rows
  = Some (Returns (rows ++ g)).
Proof.
  induction g as [|row g IH]; intros rows Hg.
  - cbn. by rewrite app_nil_r.
  - apply Forall_cons in Hg as [Hrow Hg]. cbn [map List.map read_lines].
    rewrite <- (app_nil_r (spaced _)).
    rewrite read_line_tokens.
    + cbn [mbind option_bind]. rewrite IH by done.
      rewrite <- app_assoc. do 3 f_equal. cbn [app]. f_equal.
      rewrite <- list_fmap_compose. apply list_fmap_id.
    + apply Forall_fmap. eapply Forall_impl; [exact Hrow|].
      intros c Hc. cbn. apply not_elem_of_cons.
      split; [congruence|apply not_elem_of_nil].
    + apply not_elem_of_nil.
Qed.

End ReadMapFacts.

(** ** Grids with more rows than columns *)

Section TallGrids.

Context {F : Type} `{Arith F}.
Implicit Types (g : grid F) (h w : Z).

Lemma tall_positive h w g : shape h w g → w < h → g ≠ [] → 0 ≤ w ∧ 0 < h.
Proof.
  intros Hg Hwh Hne. destruct g as [|row g]; [done|].
  destruct Hg as [<- Hrows]. apply Forall_cons in Hrows as [<- _].
  pose proof (size_nonneg row). unfold Vec.size. simpl. lia.
Qed.

Lemma blur_tall h w g b :
  shape h w g → w < h → blur g b = None.
Proof.
  intros Hg Hwh. destruct (decide (g = [])) as [->|Hne]; [done|].
  destruct (tall_positive h w g Hg Hwh Hne) as [Hw Hh].
  unfold blur.
  destruct (convolve_shape h w g b Hg Hh) as (r & -> & Hr).
  cbn [mbind option_bind]. apply (normalize_tall h w); [done|lia].
Qed.

Lemma move_tall h w dy dx g b :
  shape h w g → w < h → move dy dx g b = None.
Proof.
  intros Hg Hwh. destruct (decide (g = [])) as [->|Hne]; [done|].
  destruct (tall_positive h w g Hg Hwh Hne) as [Hw Hh].
  unfold move.
  destruct (shift dy dx g) as [r|] eqn:Hr; [|done]. cbn [mbind option_bind].
  apply (blur_tall h w); [|done].
  by apply (shift_shape h w dy dx g).
Qed.

End TallGrids.

(** ** Translations of square grids *)

Section Translations.

Context {F : Type} `{Arith F}.
Implicit Types (g r : grid F) (n dy dx : Z).

(** The cells of a translated grid determine it. *)
Lemma translated_unique n dy dx g r r' :
  shape n n r → shape n n r' → 0 < n →
  (∀ i j, 0 ≤ i < n → 0 ≤ j < n →
     Vec.get2 r ((i + dy) mod n) ((j + dx) mod n) = Vec.get2 g i j) →
  (∀ i j, 0 ≤ i < n → 0 ≤ j < n →
     Vec.get2 r' ((i + dy) mod n) ((j + dx) mod n) = Vec.get2 g i j) →
  r = r'.
Proof.
  intros Hr Hr' Hn Hcells Hcells'. apply (grid_ext n n); [done..|].
  intros a b Ha Hb.
  pose proof (Z.mod_pos_bound (a - dy) n Hn) as Hi.
  pose proof (Z.mod_pos_bound (b - dx) n Hn) as Hj.
  assert (((a - dy) mod n + dy) mod n = a) as Ea by (by apply mod_shift_iff).
  assert (((b - dx) mod n + dx) mod n = b) as Eb by (by apply mod_shift_iff).
  specialize (Hcells _ _ Hi Hj). specialize (Hcells' _ _ Hi Hj).
  rewrite Ea, Eb in Hcells, Hcells'. congruence.
Qed.


(** Offsets that are multiples of the size leave the grid as it is. *)
Lemma shift_full_turn n dy dx g :
  shape n n g → 0 < n →
  0 ≤ dy ≤ Vec.int_max - (n - 1) → 0 ≤ dx ≤ Vec.int_max - (n - 1) →
  dy mod n = 0 → dx mod n = 0 →
  shift dy dx g = Some g.
Proof.
  intros Hg Hn Hdy Hdx Ey Ex.
  destruct (shift_square n dy dx g Hg Hn Hdy Hdx) as (r & -> & Hr & Hcells).
  f_equal. apply (translated_unique n dy dx g); [done..|].
  intros i j Hi Hj.
  rewrite <- (Zplus_mod_idemp_r dy i), <- (Zplus_mod_idemp_r dx j), Ey, Ex.
  by rewrite !Z.add_0_r, !Z.mod_small.
Qed.

(** An offset and the offset that is whole turns of the torus longer give
    the same shift. *)
Lemma shift_one_turn n dy dx ty tx g :
  shape n n g → 0 < n → 0 ≤ dy → 0 ≤ dx → 0 ≤ ty → 0 ≤ tx →
  dy + ty * n ≤ Vec.int_max - (n - 1) → dx + tx * n ≤ Vec.int_max - (n - 1) →
  shift (dy + ty * n) (dx + tx * n) g = shift dy dx g.
Proof.
  intros Hg Hn Hdy Hdx Hty Htx Hy Hx.
  destruct (shift_square n dy dx g Hg Hn ltac:(nia) ltac:(nia))
    as (r & -> & Hr & Hcells).
  destruct (shift_square n (dy + ty * n) (dx + tx * n) g Hg Hn
              ltac:(nia) ltac:(nia)) as (r' & -> & Hr' & Hcells').
  f_equal. apply (translated_unique n dy dx g); [done..| |done].
  intros i j Hi Hj. rewrite <- (Hcells' i j Hi Hj).
  by rewrite !Z.add_assoc, !Z_mod_plus_full.
Qed.

(** Two shifts in a row are the shift by the sum of the offsets. *)
Lemma shift_twice n dy1 dx1 dy2 dx2 g r1 :
  shape n n g → 0 < n → 0 ≤ dy1 → 0 ≤ dx1 → 0 ≤ dy2 → 0 ≤ dx2 →
  dy1 + dy2 ≤ Vec.int_max - (n - 1) → dx1 + dx2 ≤ Vec.int_max - (n - 1) →
  shift dy1 dx1 g = Some r1 →
  shift dy2 dx2 r1 = shift (dy1 + dy2) (dx1 + dx2) g.
Proof.
  intros Hg Hn Hy1 Hx1 Hy2 Hx2 Hy Hx Hr1.
  destruct (shift_square n dy1 dx1 g Hg Hn ltac:(lia) ltac:(lia))
    as (r & Hr & Hsh1 & Hcells1).
  assert (r = r1) as -> by congruence.
  destruct (shift_square n dy2 dx2 r1 Hsh1 Hn ltac:(lia) ltac:(lia))
    as (r2 & -> & Hsh2 & Hcells2).
  destruct (shift_square n (dy1 + dy2) (dx1 + dx2) g Hg Hn
              ltac:(lia) ltac:(lia)) as (r3 & -> & Hsh3 & Hcells3).
  f_equal.
  apply (translated_unique n (dy1 + dy2) (dx1 + dx2) g); [done..| |done].
  intros i j Hi Hj.
  pose proof (Z.mod_pos_bound (i + dy1) n Hn) as Hi'.
  pose proof (Z.mod_pos_bound (j + dx1) n Hn) as Hj'.
  rewrite <- (Hcells1 i j Hi Hj), <- (Hcells2 _ _ Hi' Hj').
  rewrite !Zplus_mod_idemp_l. by rewrite !Z.add_assoc.
Qed.

End Translations.

(** ** [close_enough] *)

Section ReturnLoopFacts.

Context {R : Type}.

Lemma scan_from_ext (f g : Z → option (option R)) (n : nat) : ∀ i,
  (∀ i, f i = g i) → scan_from n i f = scan_from n i g.
Proof.
  induction n as [|n IH]; intros i Hfg; [done|].
  cbn [scan_from]. rewrite Hfg. destruct (g i) as [[r|]|]; try done.
  cbn [mbind option_bind]. by apply IH.
Qed.

End ReturnLoopFacts.

Section Symmetry.

Context {F : Type} `{Arith F}.
Hypothesis too_far_swap : ∀ v1 v2 : F, too_far v1 v2 = too_far v2 v1.

(** The comparison of two grids runs the same tests in both orders. *)
Lemma close_enough_swap (g1 g2 : grid F) :
  close_enough g1 g2 = close_enough g2 g1.
Proof.
  unfold close_enough. rewrite (Z.eqb_sym (Vec.size g2)).
  destruct (Z.eqb_spec (Vec.size g1) (Vec.size g2)) as [Hrows|]; [|done].
  cbn [negb].
  destruct (Vec.get g1 0) as [r1|], (Vec.get g2 0) as [r2|]; try done.
  cbn [mbind option_bind]. rewrite (Z.eqb_sym (Vec.size r2)).
  destruct (Z.eqb_spec (Vec.size r1) (Vec.size r2)) as [Hcols|]; [|done].
  cbn [negb]. rewrite Hrows, Hcols. f_equal. unfold for_return.
  apply scan_from_ext. intros i. apply scan_from_ext. intros j.
  destruct (Vec.get2 g1 i j) as [v1|], (Vec.get2 g2 i j) as [v2|]; try done.
  cbn [mbind option_bind]. by rewrite too_far_swap.
Qed.

End Symmetry.

Lemma exact_too_far_swap (v1 v2 : Qc) : too_far v1 v2 = too_far v2 v1.
Proof.
  unfold too_far. cbn [f_sub f_abs to_double exact].
  by rewrite Qcabs_Qcminus.
Qed.

Section IEEECloseEnough.

Implicit Types (x y v : float) (g : grid float).

Lemma abs_round (m : positive) (e : Z) :
  SFabs (binary_round 24 128 true m e) = SFabs (binary_round 24 128 false m e).
Proof.
  unfold binary_round, binary_round_aux.
  destruct (shl_align _ _ _) as [mz ez].
  destruct (shr_fexp _ _ _ _ _) as [mrs' e'].
  destruct (shr_fexp _ _ _ _ _) as [mrs'' e''].
  destruct (shr_m mrs''); [done| |done].
  by destruct (_ <=? _).
Qed.

(** The absolute value of a difference does not depend on the order. *)
Lemma abs_sub_swap x y :
  SFabs (SFsub 24 128 x y) = SFabs (SFsub 24 128 y x).
Proof.
  destruct x as [sx|sx| |sx mx ex], y as [sy|sy| |sy my ey];
    try (by destruct sx, sy) || done.
  unfold SFsub. rewrite (Z.min_comm ey ex).
  set (a := cond_Zopp sx _). set (b := cond_Zopp sy _).
  replace (b - a) with (- (a - b)) by lia.
  destruct (a - b) as [|p|p]; cbn [Z.opp binary_normalize];
    [done|symmetry|]; apply abs_round.
Qed.

Lemma ieee_too_far_swap v1 v2 : too_far v1 v2 = too_far v2 v1.
Proof.
  unfold too_far. cbn [f_sub f_abs ieee]. by rewrite abs_sub_swap.
Qed.

(** A NaN is not too far from any float. *)
Lemma too_far_nan v1 v2 : is_nan v1 = true → too_far v1 v2 = false.
Proof.
  destruct v1; try done. intros _. unfold too_far.
  cbn [f_sub f_abs to_double d_gt d_tol ieee].
  by destruct v2.
Qed.

End IEEECloseEnough.

(** ** Signs in binary32 *)

Section IEEESigns.

Implicit Types (x acc total : float) (g : grid float).

Lemma round_aux_sign_clear m e l :
  sign_clear (binary_round_aux 24 128 false m e l) = true.
Proof.
  unfold binary_round_aux.
  destruct (shr_fexp _ _ _ _ _) as [mrs' e'].
  destruct (shr_fexp _ _ _ _ _) as [mrs'' e''].
  destruct (shr_m mrs''); try done. by destruct (_ <=? _).
Qed.

Lemma round_sign_clear m e : sign_clear (binary_round 24 128 false m e) = true.
Proof.
  unfold binary_round. destruct (shl_align _ _ _) as [mz ez].
  apply round_aux_sign_clear.
Qed.

(** A sum that starts from [+0.0] and adds cells that are not negative has
    its sign bit clear. *)
Lemma add_sign_clear acc x :
  sign_clear acc = true → negative x = false →
  sign_clear (SFadd 24 128 acc x) = true.
Proof.
  intros Hacc Hx.
  destruct acc as [[]|[]| |[] ma ea]; try done;
    destruct x as [[]|[]| |[] mx ex]; try done.
  unfold SFadd. cbn [cond_Zopp]. cbn [Z.add binary_normalize].
  apply round_sign_clear.
Qed.

Lemma total_sign_clear acc (xs : list float) :
  sign_clear acc = true → Forall (λ x, negative x = false) xs →
  sign_clear (foldl (SFadd 24 128) acc xs) = true.
Proof.
  intros Hacc Hxs. revert acc Hacc.
  induction Hxs as [|x xs Hx _ IH]; intros acc Hacc; [done|].
  cbn [foldl]. apply IH. by apply add_sign_clear.
Qed.

(** The quotient of a cell that is not negative by such a sum is not
    negative. *)
Lemma div_not_negative x total :
  negative x = false → sign_clear total = true →
  negative (SFdiv 24 128 x total) = false.
Proof.
  intros Hx Ht.
  destruct x as [sx|[]| |[] mx ex]; try done;
    destruct total as [[]|[]| |[] mt et]; try done.
  unfold SFdiv. destruct (SFdiv_core_binary _ _ _ _ _ _) as [[mz ez] lz].
  cbn [xorb].
  pose proof (round_aux_sign_clear mz ez lz) as Hs.
  by destruct (binary_round_aux 24 128 false mz ez lz) as [[]|[]| |[] ? ?].
Qed.

Lemma grid_cell_Forall {A} (P : A → Prop) (g : list (list A)) i j (x : A) :
  Forall (Forall P) g → Vec.get2 g i j = Some x → P x.
Proof.
  intros Hg. unfold Vec.get2, Vec.get. destruct (i <? 0); [done|].
  destruct (g !! Z.to_nat i) as [row|] eqn:Hrow; [|done].
  cbn [mbind option_bind]. destruct (j <? 0); [done|]. intros Hx.
  rewrite Forall_lookup in Hg. specialize (Hg _ _ Hrow).
  rewrite Forall_lookup in Hg. by apply (Hg _ _ Hx).
Qed.

End IEEESigns.

(** * Further properties of the code *)

(** ** [zeros], [read_line] and [read_map] *)

(** X1.  [zeros(height, width)] returns [height] rows of [width] cells that
    hold [0.0], the grid that the vector constructor of [normalize], [blur]
    and [move] builds; with a height that is not positive the loops do not
    run and the grid is empty. *)
Theorem zeros_grid {F : Type} `{Arith F} (height width : Z) :
  (0 ≤ height → 0 ≤ width →
   zeros height width = Some (filled height width f_zero)
   ∧ shape height width (filled height width f_zero))
  ∧ (height ≤ 0 → zeros height width = Some []).
Proof.
  split.
  - intros Hh Hw. split; [apply zeros_filled|by apply shape_filled].
  - intros Hh. rewrite zeros_filled. unfold filled, Vec.fill.
    by replace (Z.to_nat height) with 0%nat by lia.
Qed.

Lemma zeros_grid_witness :
  (zeros (F:=float) 2 3 = Some (filled 2 3 f_zero)
   ∧ shape 2 3 (filled (F:=float) 2 3 f_zero))
  ∧ zeros (F:=float) (-1) 3 = Some [].
Proof.
  destruct (zeros_grid (F:=float) 2 3) as [Hgrid _].
  destruct (zeros_grid (F:=float) (-1) 3) as [_ Hempty].
  split; [apply Hgrid; lia|apply Hempty; lia].
Defined.

(** X2.  On a line of tokens that are each followed by one space,
    [read_line] returns the first character of every token; the characters
    after the last space are dropped. *)
Theorem read_line_first_characters (ts : list (ascii * list ascii))
    (rest : list ascii) :
  Forall (λ '(c, tl), Str.space ∉ c :: tl) ts → Str.space ∉ rest →
  read_line (spaced ts ++ rest) = Some (Returns (map fst ts)).
Proof. apply read_line_tokens. Qed.

Lemma read_line_first_characters_witness :
  read_line (spaced [("r", ["e"; "d"]); ("g", [])] ++ ["b"])%char
  = Some (Returns ["r"; "g"])%char.
Proof.
  apply (read_line_first_characters [("r", ["e"; "d"]); ("g", [])]%char
           ["b"]%char).
  - repeat constructor; vm_compute; intros Hin;
      repeat (apply elem_of_cons in Hin as [Hin|Hin]; [discriminate Hin|]);
      by apply elem_of_nil in Hin.
  - intros Hin.
    repeat (apply elem_of_cons in Hin as [Hin|Hin]; [discriminate Hin|]).
    by apply elem_of_nil in Hin.
Defined.

(** X3.  [read_line] ends on every line: it throws [std::out_of_range] when
    the line starts with a space or has two spaces in a row, and otherwise
    returns one cell for every space of the line, none of them a space. *)
Theorem read_line_throws_or_returns (s : list ascii) :
  (empty_token s ∧ read_line s = Some Throws_out_of_range)
  ∨ (¬ empty_token s ∧
     ∃ row, read_line s = Some (Returns row)
            ∧ length row = count_occ ascii_dec s Str.space
            ∧ (Str.space ∉ row)).
Proof. apply read_line_outcome. Qed.

(** X4.  A map file that cannot be opened gives the empty map and no error,
    and [initialize_beliefs] indexes the first row of that map, which it does
    not have. *)
Theorem read_map_missing_file {F : Type} `{Arith F}
    (files : list ascii → option (list ascii)) (file_name : list ascii) :
  files file_name = None →
  read_map files file_name = Some (Returns [])
  ∧ initialize_beliefs (F:=F) [] = None.
Proof. intros Hfile. unfold read_map. by rewrite Hfile. Qed.

Lemma read_map_missing_file_witness :
  read_map (λ _, None) ["m"; "1"]%char = Some (Returns [])
  ∧ initialize_beliefs (F:=float) [] = None.
Proof.
  apply (read_map_missing_file (F:=float) (λ _, None) ["m"; "1"]%char).
  reflexivity.
Defined.

(** X5.  Reading is the inverse of writing: on the text in which every cell
    of a map is followed by a space and every row by a newline, [read_map]
    returns the map, whatever the lengths of its rows. *)
Theorem read_map_round_trip (files : list ascii → option (list ascii))
    (file_name : list ascii) (g : list (list ascii)) :
  files file_name = Some (map_text g) →
  Forall (Forall (λ c, c ≠ Str.space ∧ c ≠ Str.newline)) g →
  read_map files file_name = Some (Returns g).
Proof.
  intros Hfile Hg. unfold map_text in Hfile.
  rewrite <- (app_nil_r (lines_text _)) in Hfile.
  rewrite (read_map_lines _ _ _ _ Hfile).
  - rewrite app_nil_r. rewrite read_lines_cells; [done|].
    eapply Forall_impl; [exact Hg|]. intros row Hrow.
    eapply Forall_impl; [exact Hrow|]. by intros c [? _].
  - apply Forall_fmap. eapply Forall_impl; [exact Hg|]. intros row Hrow.
    cbn. induction Hrow as [|c row [_ Hc] _ IH]; [apply not_elem_of_nil|].
    cbn [map concat spaced app].
    apply not_elem_of_cons. split; [congruence|].
    apply not_elem_of_cons. split; [discriminate|done].
  - apply not_elem_of_nil.
Qed.

Lemma read_map_round_trip_witness :
  read_map (λ _, Some (map_text [["r"; "g"]; ["b"]; []]%char)) []
  = Some (Returns [["r"; "g"]; ["b"]; []]%char).
Proof.
  apply (read_map_round_trip _ [] [["r"; "g"]; ["b"]; []]%char).
  - reflexivity.
  - repeat constructor; discriminate.
Defined.

(** X6.  On a text of lines that end with a newline, [read_map] throws when
    a line starts with a space or has two spaces in a row; otherwise it
    returns one row for every line, with one cell for every space of the
    line: rows of different lengths are returned and not rejected. *)
Theorem read_map_rows (files : list ascii → option (list ascii))
    (file_name : list ascii) (ls : list (list ascii)) :
  files file_name = Some (lines_text ls) →
  Forall (λ l, Str.newline ∉ l) ls →
  (Exists empty_token ls ∧ read_map files file_name = Some Throws_out_of_range)
  ∨ (Forall (λ l, ¬ empty_token l) ls ∧
     ∃ g, read_map files file_name = Some (Returns g)
          ∧ Forall2 (λ l row, length row = count_occ ascii_dec l Str.space
                              ∧ (Str.space ∉ row)) ls g).
Proof.
  intros Hfile Hls.
  rewrite <- (app_nil_r (lines_text _)) in Hfile.
  rewrite (read_map_lines _ _ _ _ Hfile Hls); [|apply not_elem_of_nil].
  rewrite app_nil_r.
  assert (Exists empty_token ls ∨ Forall (λ l, ¬ empty_token l) ls) as [He|Hne].
  { clear. induction ls as [|l ls [IH|IH]].
    - right. constructor.
    - left. by constructor 2.
    - destruct (read_line_outcome l) as [[He _]|[Hne _]].
      + left. by constructor 1.
      + right. by constructor. }
  - left. split; [done|]. by apply read_lines_throws.
  - right. split; [done|]. by apply (read_lines_returns ls []).
Qed.

Lemma read_map_rows_witness :
  let ls := [["r"; " "; "g"; " "]; ["b"; " "]]%char in
  (Exists empty_token ls
   ∧ read_map (λ _, Some (lines_text ls)) [] = Some Throws_out_of_range)
  ∨ (Forall (λ l, ¬ empty_token l) ls ∧
     ∃ g, read_map (λ _, Some (lines_text ls)) [] = Some (Returns g)
          ∧ Forall2 (λ l row, length row = count_occ ascii_dec l Str.space
                              ∧ (Str.space ∉ row)) ls g).
Proof.
  intros ls. apply (read_map_rows _ [] ls).
  - reflexivity.
  - repeat constructor; intros Hin;
      repeat (apply elem_of_cons in Hin as [Hin|Hin]; [discriminate Hin|]);
      by apply elem_of_nil in Hin.
Defined.

(** X7.  A last line without a newline is read as a line: the text with and
    without the final newline give the same map. *)
Theorem read_map_final_newline (files1 files2 : list ascii → option (list ascii))
    (name1 name2 infile : list ascii) :
  files1 name1 = Some infile →
  files2 name2 = Some (infile ++ [Str.newline]) →
  infile ≠ [] → last infile ≠ Some Str.newline →
  read_map files1 name1 = read_map files2 name2.
Proof.
  intros H1 H2 Hne Hlast.
  destruct (split_lines infile) as (ls & rest & -> & Hls & Hrest).
  assert (rest ≠ []) as Hrest_ne.
  { intros ->. rewrite app_nil_r in Hne, Hlast.
    destruct ls as [|l ls _] using rev_ind; [done|].
    apply Hlast. unfold lines_text.
    rewrite map_app, concat_app. cbn [map concat].
    rewrite app_nil_r, !app_assoc. apply last_snoc. }
  rewrite (read_map_lines _ _ _ _ H1 Hls Hrest).
  assert (infile_eq : (lines_text ls ++ rest) ++ [Str.newline]
                      = lines_text (ls ++ [rest]) ++ []).
  { unfold lines_text. rewrite map_app, concat_app. cbn [map concat].
    by rewrite !app_nil_r, app_assoc. }
  rewrite infile_eq in H2.
  rewrite (read_map_lines _ _ _ _ H2); [|apply Forall_app; by split; [|constructor]
                                        |apply not_elem_of_nil].
  rewrite app_nil_r. by destruct rest.
Qed.

Lemma read_map_final_newline_witness :
  read_map (λ _, Some ["r"; " "; "010"; "g"; " "]%char) []
  = read_map (λ _, Some (["r"; " "; "010"; "g"; " "]%char ++ [Str.newline])) [].
Proof.
  apply (read_map_final_newline _ _ [] [] ["r"; " "; "010"; "g"; " "]%char);
    (reflexivity || discriminate).
Defined.

(** ** [normalize] *)

(** X8.  On a rectangular grid that is at least as wide as tall, [normalize]
    returns a grid of the same shape: the cells of the first [h] columns are
    the cells of the grid divided by the sum of all its cells, added from
    [0.0] row by row; the cells of the columns from [h] on are [0.0]. *)
Theorem normalize_columns {F : Type} `{Arith F} (h w : Z) (g : grid F) :
  shape h w g → 0 < h ≤ w →
  ∃ r, normalize g = Some r ∧ shape h w r ∧
    ∀ i j, 0 ≤ i < h → 0 ≤ j < w →
      Vec.get2 r i j =
        if decide (j < h)
        then x ← Vec.get2 g i j; Some (f_div x (foldl f_add f_zero (concat g)))
        else Some f_zero.
Proof.
  intros Hg Hhw. apply normalize_wide; [done..|].
  apply (grid_total_shape h w); [done|lia].
Qed.

Lemma normalize_columns_witness :
  ∃ r, normalize [[one; one; one]; [one; one; one]] = Some r ∧ shape 2 3 r ∧
    ∀ i j, 0 ≤ i < 2 → 0 ≤ j < 3 →
      Vec.get2 r i j =
        if decide (j < 2)
        then x ← Vec.get2 [[one; one; one]; [one; one; one]] i j;
             Some (f_div x (foldl f_add f_zero
                              (concat [[one; one; one]; [one; one; one]])))
        else Some f_zero.
Proof.
  apply (normalize_columns 2 3 [[one; one; one]; [one; one; one]]).
  - apply shape_intro; reflexivity.
  - lia.
Defined.

(** X9.  On a rectangular grid with more rows than columns, [normalize],
    [blur] and [move] have no defined result, whatever the cells, the
    blurring and the offsets: the second loop nest of [normalize] indexes
    every row up to the number of rows. *)
Theorem tall_grid_undefined {F : Type} `{Arith F} (h w : Z) (g : grid F) :
  shape h w g → w < h →
  normalize g = None
  ∧ (∀ blurring, blur g blurring = None)
  ∧ (∀ dy dx blurring, move dy dx g blurring = None).
Proof.
  intros Hg Hwh. split; [|split].
  - destruct (decide (g = [])) as [->|Hne]; [done|].
    destruct (tall_positive h w g Hg Hwh Hne) as [Hw Hh].
    apply (normalize_tall h w); [done|lia].
  - intros b. by apply (blur_tall h w).
  - intros dy dx b. by apply (move_tall h w).
Qed.

Lemma tall_grid_undefined_witness :
  normalize [[half]; [half]] = None
  ∧ (∀ blurring, blur [[half]; [half]] blurring = None)
  ∧ (∀ dy dx blurring, move dy dx [[half]; [half]] blurring = None).
Proof.
  apply (tall_grid_undefined 2 1 [[half]; [half]]).
  - apply shape_intro; reflexivity.
  - lia.
Defined.

(** ** [blur] *)

(** X12.  For the operands that [blur] passes to it (an index [i] of a
    dimension [n] of at most 2^30, and an offset [d] of the window), the
    index [((i + d) % n + n) % n] is the mathematical modulus of [i + d]: it
    lies between [0] and [n - 1], and neither of its two sums leaves the
    range of [int]. *)
Theorem wrap_index_in_range (i d n : Z) :
  0 < n ≤ 2 ^ 30 → 0 ≤ i < n → -1 ≤ d ≤ 1 →
  ∃ k, wrap_index i d n = Some k ∧ 0 ≤ k < n ∧ k = (i + d) mod n
       ∧ Vec.add i d = Some (i + d)
       ∧ Vec.add (Z.rem (i + d) n) n = Some (Z.rem (i + d) n + n).
Proof.
  intros Hn Hi Hd. exists ((i + d) mod n).
  change (2 ^ 30) with 1073741824 in Hn.
  pose proof (Z.rem_bound_abs (i + d) n ltac:(lia)) as Hrem.
  split; [apply wrap_index_mod; lia|]. split; [apply Z.mod_pos_bound; lia|].
  split; [done|]. split; apply add_in_range; int_lia.
Qed.

Lemma wrap_index_in_range_witness :
  ∃ k, wrap_index 0 (-1) 3 = Some k ∧ 0 ≤ k < 3 ∧ k = (0 + -1) mod 3
       ∧ Vec.add 0 (-1) = Some (0 + -1)
       ∧ Vec.add (Z.rem (0 + -1) 3) 3 = Some (Z.rem (0 + -1) 3 + 3).
Proof.
  apply (wrap_index_in_range 0 (-1) 3).
  - change (2 ^ 30) with 1073741824. lia.
  - lia.
  - lia.
Defined.



(** ** [move] *)

(** X16.  On a square grid, for offsets that are not negative and small
    enough that no sum of an index and an offset leaves the range of [int],
    the loop nest of [move] is the translation on the torus: it has a
    result, in which cell [((i + dy) mod n, (j + dx) mod n)] holds the value
    of cell [(i, j)] of the grid. *)
Theorem shift_translates {F : Type} `{Arith F} (n dy dx : Z) (g : grid F) :
  shape n n g → 0 < n →
  0 ≤ dy ≤ Vec.int_max - (n - 1) → 0 ≤ dx ≤ Vec.int_max - (n - 1) →
  ∃ r, shift dy dx g = Some r ∧ shape n n r ∧
    ∀ i j, 0 ≤ i < n → 0 ≤ j < n →
      Vec.get2 r ((i + dy) mod n) ((j + dx) mod n) = Vec.get2 g i j.
Proof. apply shift_square. Qed.

Lemma shift_translates_witness :
  ∃ r, shift 4 2 centered = Some r ∧ shape 3 3 r ∧
    ∀ i j, 0 ≤ i < 3 → 0 ≤ j < 3 →
      Vec.get2 r ((i + 4) mod 3) ((j + 2) mod 3) = Vec.get2 centered i j.
Proof.
  apply (shift_translates 3 4 2 centered).
  - apply shape_intro; reflexivity.
  - lia.
  - int_lia.
  - int_lia.
Defined.

(** X17.  With a negative offset, on a rectangular grid of two rows and two
    columns or more, [move] has no defined result: the remainder of a
    negative sum is negative, and a cell is written at a negative index. *)
Theorem move_negative_offset {F : Type} `{Arith F} (h w dy dx : Z)
    (g : grid F) (blurring : F) :
  shape h w g → 2 ≤ h → 2 ≤ w → dy < 0 ∨ dx < 0 →
  move dy dx g blurring = None.
Proof.
  intros Hg Hh Hw Hneg. unfold move.
  by rewrite (shift_negative_offset h w dy dx g Hg Hh Hw Hneg).
Qed.

Lemma move_negative_offset_witness :
  move 0 (-2) [[half; quarter]; [quarter; zero]] zero = None.
Proof.
  apply (move_negative_offset 2 2 0 (-2) [[half; quarter]; [quarter; zero]] zero).
  - apply shape_intro; reflexivity.
  - lia.
  - lia.
  - right. lia.
Defined.

(** X18.  In binary32 a move without blurring is the shift followed by
    [normalize], up to the sign of zeros: on a square grid of finite cells,
    for offsets that are not negative and overflow no sum, [move] with
    [blurring = 0.0] is [normalize] of the shifted grid in which every
    [-0.0] is read as [+0.0]. *)
Theorem move_noiseless_float (n dy dx : Z) (g : grid float) :
  shape n n g → 0 < n →
  0 ≤ dy ≤ Vec.int_max - (n - 1) → 0 ≤ dx ≤ Vec.int_max - (n - 1) →
  Forall (Forall (λ x, finite x = true)) g →
  ∃ s, shift dy dx g = Some s ∧ shape n n s
       ∧ (∀ i j, 0 ≤ i < n → 0 ≤ j < n →
            Vec.get2 s ((i + dy) mod n) ((j + dx) mod n) = Vec.get2 g i j)
       ∧ move dy dx g f_zero = normalize (map (map unsigned_zero) s).
Proof.
  intros Hg Hn Hdy Hdx Hfin.
  destruct (shift_square n dy dx g Hg Hn Hdy Hdx) as (s & Hs & Hsh & Hcells).
  exists s. split; [done|]. split; [done|]. split; [done|].
  unfold move. rewrite Hs. cbn [mbind option_bind]. unfold blur.
  rewrite (ieee_convolve_zero n n s Hsh Hn); [done|].
  intros a b x Hx.
  destruct (get2_Some_range n n s a b x Hsh Hx) as [Ha Hb].
  pose proof (Z.mod_pos_bound (a - dy) n Hn) as Hi.
  pose proof (Z.mod_pos_bound (b - dx) n Hn) as Hj.
  specialize (Hcells _ _ Hi Hj).
  rewrite (proj2 (mod_shift_iff a ((a - dy) mod n) dy n Ha Hi) eq_refl) in Hcells.
  rewrite (proj2 (mod_shift_iff b ((b - dx) mod n) dx n Hb Hj) eq_refl) in Hcells.
  rewrite Hx in Hcells.
  by apply (grid_cell_Forall _ g ((a - dy) mod n) ((b - dx) mod n) x Hfin).
Qed.

Lemma move_noiseless_float_witness :
  let g := [[half; S754_zero true]; [quarter; quarter]] in
  ∃ s, shift 1 3 g = Some s ∧ shape 2 2 s
       ∧ (∀ i j, 0 ≤ i < 2 → 0 ≤ j < 2 →
            Vec.get2 s ((i + 1) mod 2) ((j + 3) mod 2) = Vec.get2 g i j)
       ∧ move 1 3 g f_zero = normalize (map (map unsigned_zero) s).
Proof.
  intros g. apply (move_noiseless_float 2 1 3 g).
  - apply shape_intro; reflexivity.
  - lia.
  - int_lia.
  - int_lia.
  - repeat constructor.
Defined.

(** X19.  For every arithmetic, two shifts in a row are one shift by the sum
    of the offsets: on a square grid, for offsets that are not negative and
    whose sum overflows no sum with an index, the loop nest of [move] run
    with [(dy2, dx2)] on its result for [(dy1, dx1)] gives its result for
    [(dy1 + dy2, dx1 + dx2)]. *)
Theorem shift_composes {F : Type} `{Arith F} (n dy1 dx1 dy2 dx2 : Z)
    (g r1 : grid F) :
  shape n n g → 0 < n → 0 ≤ dy1 → 0 ≤ dx1 → 0 ≤ dy2 → 0 ≤ dx2 →
  dy1 + dy2 ≤ Vec.int_max - (n - 1) → dx1 + dx2 ≤ Vec.int_max - (n - 1) →
  shift dy1 dx1 g = Some r1 →
  shift dy2 dx2 r1 = shift (dy1 + dy2) (dx1 + dx2) g
  ∧ ∃ r2, shift dy2 dx2 r1 = Some r2.
Proof.
  intros Hg Hn Hy1 Hx1 Hy2 Hx2 Hy Hx Hr1.
  rewrite (shift_twice n dy1 dx1 dy2 dx2 g r1) by done.
  split; [done|].
  destruct (shift_square n (dy1 + dy2) (dx1 + dx2) g Hg Hn
              ltac:(lia) ltac:(lia)) as (r2 & Hr2 & _).
  by exists r2.
Qed.

Lemma shift_composes_witness :
  shift 2 0 [[zero; zero; zero]; [zero; zero; zero]; [zero; zero; one]]
  = shift (1 + 2) (1 + 0) centered
  ∧ ∃ r2, shift 2 0 [[zero; zero; zero]; [zero; zero; zero]; [zero; zero; one]]
          = Some r2.
Proof.
  apply (shift_composes 3 1 1 2 0 centered).
  - apply shape_intro; reflexivity.
  - lia.
  - lia.
  - lia.
  - lia.
  - lia.
  - int_lia.
  - int_lia.
  - reflexivity.
Defined.

(** X20.  For every arithmetic, a shift is undone by the shift that
    completes the turn of the torus: on a square grid, when the two offsets
    of each direction are not negative and add up to a multiple of the size
    (and overflow no sum), the second shift returns the grid. *)
Theorem shift_round_trip {F : Type} `{Arith F} (n dy1 dx1 dy2 dx2 : Z)
    (g r1 : grid F) :
  shape n n g → 0 < n → 0 ≤ dy1 → 0 ≤ dx1 → 0 ≤ dy2 → 0 ≤ dx2 →
  dy1 + dy2 ≤ Vec.int_max - (n - 1) → dx1 + dx2 ≤ Vec.int_max - (n - 1) →
  (dy1 + dy2) mod n = 0 → (dx1 + dx2) mod n = 0 →
  shift dy1 dx1 g = Some r1 →
  shift dy2 dx2 r1 = Some g.
Proof.
  intros Hg Hn Hy1 Hx1 Hy2 Hx2 Hy Hx Ey Ex Hr1.
  rewrite (shift_twice n dy1 dx1 dy2 dx2 g r1) by done.
  apply (shift_full_turn n); (done || lia).
Qed.

Lemma shift_round_trip_witness :
  shift 2 2 [[zero; zero; zero]; [zero; zero; zero]; [zero; zero; one]]
  = Some centered.
Proof.
  apply (shift_round_trip 3 1 1 2 2 centered).
  - apply shape_intro; reflexivity.
  - lia.
  - lia.
  - lia.
  - lia.
  - lia.
  - int_lia.
  - int_lia.
  - reflexivity.
  - reflexivity.
  - reflexivity.
Defined.

(** X21.  For every arithmetic, on a square grid [move] depends on its
    offsets only modulo the size: for offsets that are not negative, whole
    turns of the torus added to them do not change the result, as long as
    the longer offsets overflow no sum with an index. *)
Theorem move_wraps {F : Type} `{Arith F} (n dy dx ty tx : Z) (g : grid F)
    (blurring : F) :
  shape n n g → 0 < n → 0 ≤ dy → 0 ≤ dx → 0 ≤ ty → 0 ≤ tx →
  dy + ty * n ≤ Vec.int_max - (n - 1) → dx + tx * n ≤ Vec.int_max - (n - 1) →
  move (dy + ty * n) (dx + tx * n) g blurring = move dy dx g blurring.
Proof.
  intros Hg Hn Hdy Hdx Hty Htx Hy Hx. unfold move.
  by rewrite (shift_one_turn n dy dx ty tx g).
Qed.

Lemma move_wraps_witness :
  move (1 + 2 * 3) (0 + 1 * 3) centered half = move 1 0 centered half.
Proof.
  apply (move_wraps 3 1 0 2 1 centered half).
  - apply shape_intro; reflexivity.
  - lia.
  - lia.
  - lia.
  - lia.
  - lia.
  - int_lia.
  - int_lia.
Defined.

(** X22.  For every arithmetic, on a square grid a move by offsets that are
    multiples of the size, not negative and overflowing no sum with an
    index, leaves every cell in its place: [move] is [blur] then. *)
Theorem move_whole_turns_is_blur {F : Type} `{Arith F} (n dy dx : Z)
    (g : grid F) (blurring : F) :
  shape n n g → 0 < n →
  0 ≤ dy ≤ Vec.int_max - (n - 1) → 0 ≤ dx ≤ Vec.int_max - (n - 1) →
  dy mod n = 0 → dx mod n = 0 →
  move dy dx g blurring = blur g blurring.
Proof.
  intros Hg Hn Hdy Hdx Ey Ex. unfold move.
  by rewrite (shift_full_turn n dy dx g).
Qed.

Lemma move_whole_turns_is_blur_witness :
  move 0 3 centered half = blur centered half.
Proof.
  apply (move_whole_turns_is_blur 3 0 3 centered half).
  - apply shape_intro; reflexivity.
  - lia.
  - int_lia.
  - int_lia.
  - reflexivity.
  - reflexivity.
Defined.



(** ** [close_enough] *)

(** X24.  [close_enough] does not depend on the order of its arguments, with
    and without rounding, on all grids: the two calls run the same
    comparisons, and have no defined result on the same grids. *)
Theorem close_enough_symmetric :
  (∀ g1 g2 : grid Qc, close_enough g1 g2 = close_enough g2 g1)
  ∧ (∀ g1 g2 : grid float, close_enough g1 g2 = close_enough g2 g1)
  ∧ (∀ v1 v2 : float, close_enough_scalar v1 v2 = close_enough_scalar v2 v1).
Proof.
  split; [|split].
  - apply close_enough_swap, exact_too_far_swap.
  - apply close_enough_swap, ieee_too_far_swap.
  - intros v1 v2. unfold close_enough_scalar. by rewrite ieee_too_far_swap.
Qed.

(** X25.  In binary32 a NaN is [close_enough] to every float: a grid whose
    cells are all NaN is accepted as equal to every grid of its shape, and
    every rectangular grid is accepted as equal to itself, NaN cells
    included. *)
Theorem close_enough_accepts_nan (h w : Z) (g1 g2 : grid float) :
  shape h w g1 → shape h w g2 → 0 < h →
  Forall (Forall (λ x, is_nan x = true)) g1 →
  close_enough g1 g2 = Some true ∧ close_enough g2 g1 = Some true
  ∧ close_enough g2 g2 = Some true.
Proof.
  intros Hg1 Hg2 Hh Hnan.
  assert (close_enough g1 g2 = Some true) as H12.
  { destruct (close_enough_cells h w g1 g2 Hg1 Hg2 Hh) as (b & -> & Hb).
    f_equal. apply Hb. intros i j v1 v2 Hv1 Hv2.
    unfold close_enough_scalar. rewrite too_far_nan; [done|].
    revert Hv1. unfold Vec.get2, Vec.get. destruct (i <? 0); [done|].
    destruct (g1 !! Z.to_nat i) as [row|] eqn:Hrow; [|done].
    cbn [mbind option_bind]. destruct (j <? 0); [done|]. intros Hv1.
    rewrite Forall_lookup in Hnan. specialize (Hnan _ _ Hrow).
    rewrite Forall_lookup in Hnan. by apply (Hnan _ _ Hv1). }
  split; [done|]. split.
  - by rewrite (close_enough_swap ieee_too_far_swap).
  - destruct (close_enough_cells h w g2 g2 Hg2 Hg2 Hh) as (b & -> & Hb).
    f_equal. apply Hb. intros i j v1 v2 Hv1 Hv2.
    assert (v1 = v2) as -> by congruence.
    unfold close_enough_scalar. by rewrite too_far_same.
Qed.

Lemma close_enough_accepts_nan_witness :
  close_enough [[nan; nan]] [[half; one]] = Some true
  ∧ close_enough [[half; one]] [[nan; nan]] = Some true
  ∧ close_enough [[half; one]] [[half; one]] = Some true.
Proof.
  apply (close_enough_accepts_nan 1 2 [[nan; nan]] [[half; one]]).
  - apply shape_intro; reflexivity.
  - apply shape_intro; reflexivity.
  - lia.
  - repeat constructor.
Defined.

(** ** The empty grid *)

(** X26.  No operation checks for the empty grid: [normalize], [blur],
    [move] and [initialize_beliefs] index its first row, which it does not
    have, and so does [close_enough] on two empty grids; [close_enough] of
    the empty grid and a grid with a row is false. *)
Theorem empty_grid_undefined {F : Type} `{Arith F} :
  normalize (F:=F) [] = None
  ∧ (∀ blurring : F, blur [] blurring = None)
  ∧ (∀ dy dx (blurring : F), move dy dx [] blurring = None)
  ∧ initialize_beliefs (F:=F) [] = None
  ∧ close_enough (F:=F) [] [] = None
  ∧ (∀ (row : list F) g, close_enough [] (row :: g) = Some false).
Proof.
  repeat split; done.
Qed.

(** ** Signs in binary32 *)

(** X29.  In binary32, [normalize] makes no negative cell: on a rectangular
    grid that is at least as wide as tall and has no negative cell (a cell
    may be a zero of either sign, an infinity or NaN), no cell of the result
    is a negative number or the negative infinity. *)
Theorem normalize_keeps_sign (h w : Z) (g : grid float) :
  shape h w g → 0 < h ≤ w →
  Forall (Forall (λ x, negative x = false)) g →
  ∃ r, normalize g = Some r ∧ shape h w r
       ∧ ∀ i j x, Vec.get2 r i j = Some x → negative x = false.
Proof.
  intros Hg Hhw Hcells.
  destruct (normalize_wide h w g _ Hg Hhw (grid_total_shape h w g Hg ltac:(lia)))
    as (r & Hr & Hsh & Hr_cells).
  exists r. split; [done|]. split; [done|].
  intros i j x Hx.
  destruct (get2_Some_range h w r i j x Hsh Hx) as [Hi Hj].
  rewrite (Hr_cells i j Hi Hj) in Hx.
  destruct (decide (j < h)); [|by injection Hx as <-].
  destruct (Vec.get2 g i j) as [y|] eqn:Hy; [|done].
  injection Hx as <-. apply div_not_negative.
  - by apply (grid_cell_Forall _ g i j y Hcells).
  - apply total_sign_clear; [done|]. by apply Forall_concat.
Qed.

Lemma normalize_keeps_sign_witness :
  ∃ r, normalize [[half; S754_zero true]; [S754_infinity false; one]] = Some r
       ∧ shape 2 2 r
       ∧ ∀ i j x, Vec.get2 r i j = Some x → negative x = false.
Proof.
  apply (normalize_keeps_sign 2 2
           [[half; S754_zero true]; [S754_infinity false; one]]).
  - apply shape_intro; reflexivity.
  - lia.
  - repeat constructor.
Defined.

(** ** [blur] without blurring, in binary32 *)


